(** * ufo2ft mark feature writer: anchor parsing, graph colouring,
      mark classes and attachment grouping

    A shallow embedding of [Lib/ufo2ft/featureWriters/markFeatureWriter.py].

    Conventions of the embedding.
    - Python [str] values are modelled as [string] (anchor, glyph and class
      names are ASCII identifiers in UFO sources); [\d] and [str.isalpha]
      are therefore the ASCII digit and letter tests.
    - A Python [dict] (insertion ordered) is an association list with
      first-match lookup, update in place and append of new keys.
    - Code that can raise returns [result]; the exceptions that the source
      can raise are the constructors of [exn].
    - A truthiness test ([if x], [x and y], [not x]) is a [bool]. *)

From Stdlib Require Import String Ascii List Bool Arith PeanoNat ZArith QArith Lia.
From Stdlib Require Import Permutation Sorted Qround.
Import ListNotations.

Local Open Scope string_scope.
Local Open Scope list_scope.
Local Open Scope nat_scope.

Set Implicit Arguments.

(** ** Exceptions and the error monad *)

Inductive exn : Type :=
| IndexError                               (* [anchorName[0]] on an empty name *)
| AssertionError                           (* a failed [assert] *)
| KeyError                                 (* [d[k]] with [k] missing *)
| AttributeError                           (* [None.name] *)
| ValueError_mark_numbered (anchorName : string)
    (* "mark anchor cannot be numbered: %r" *)
| ValueError_mark_key_nil (anchorName : string)
    (* "mark anchor key is nil: %r" *)
| ValueError_component_index
    (* "ligature component indexes must start from 1" *)
| FeatureLibError_already_defined (glyph : string)
    (* feaLib's MarkClass.addDefinition on a glyph already in the class *)
| ValueError_min_empty                     (* [min] of an empty sequence *)
| TypeError                                (* [set | None] *)
| LoopBound.                               (* the fuel of a [while True] ran out *)

Inductive result (A : Type) : Type :=
| Ok (a : A)
| Raise (e : exn).

Arguments Ok {A} a.
Arguments Raise {A} e.

Definition bind {A B : Type} (r : result A) (k : A -> result B) : result B :=
  match r with
  | Ok a => k a
  | Raise e => Raise e
  end.

Notation "x <- r ;; k" := (bind r (fun x => k))
  (at level 61, r at next level, right associativity).
Notation "' p <- r ;; k" := (bind r (fun x => match x with p => k end))
  (at level 61, p pattern, r at next level, right associativity).

Definition assert (b : bool) : result unit :=
  if b then Ok tt else Raise AssertionError.

(** ** Python string primitives used by the writer *)

Module PyStr.

Definition newline : ascii := "010"%char.

(** [\d] on an ASCII character. *)
Definition isdigit (c : ascii) : bool :=
  let n := nat_of_ascii c in ((48 <=? n) && (n <=? 57))%nat.

(** [str.isalpha] on an ASCII character. *)
Definition isalpha (c : ascii) : bool :=
  let n := nat_of_ascii c in
  (((65 <=? n) && (n <=? 90)) || ((97 <=? n) && (n <=? 122)))%nat.

(** Truthiness of a string: non-empty. *)
Definition truthy (s : string) : bool :=
  match s with EmptyString => false | String _ _ => true end.

Fixpoint contains (c : ascii) (chars : string) : bool :=
  match chars with
  | EmptyString => false
  | String d chars' => Ascii.eqb c d || contains c chars'
  end.

Fixpoint rev_onto (s acc : string) : string :=
  match s with
  | EmptyString => acc
  | String c s' => rev_onto s' (String c acc)
  end.

Definition rev (s : string) : string := rev_onto s EmptyString.

Fixpoint lstrip (s chars : string) : string :=
  match s with
  | EmptyString => EmptyString
  | String c s' => if contains c chars then lstrip s' chars else s
  end.

(** [s.rstrip(chars)]: drop the trailing characters that occur in [chars]. *)
Definition rstrip (s chars : string) : string :=
  rev (lstrip (rev s) chars).

(** [s.startswith(p)]. *)
Definition startswith (s p : string) : bool := String.prefix p s.

(** [s.endswith(p)]. *)
Definition endswith (s p : string) : bool := String.prefix (rev p) (rev s).

(** [s[n:]]. *)
Fixpoint drop (n : nat) (s : string) : string :=
  match n, s with
  | O, _ => s
  | S _, EmptyString => EmptyString
  | S n', String _ s' => drop n' s'
  end.

(** [s[:-n]] for [n > 0]. *)
Definition drop_last (n : nat) (s : string) : string :=
  rev (drop n (rev s)).

(** [int(s)] on a string of ASCII digits. *)
Fixpoint int_digits (acc : nat) (s : string) : nat :=
  match s with
  | EmptyString => acc
  | String c s' => int_digits (10 * acc + (nat_of_ascii c - 48)) s'
  end.

Definition int (s : string) : nat := int_digits 0 s.

(** The longest run of digits at the head of [s], and what follows it. *)
Fixpoint span_digits (s : string) : string * string :=
  match s with
  | EmptyString => (EmptyString, EmptyString)
  | String c s' =>
      if isdigit c
      then let (ds, rest) := span_digits s' in (String c ds, rest)
      else (EmptyString, s)
  end.

(** [(\d+)$] tried at the head of [s]: the greedy digit run must be
    non-empty and must reach the end of the string, or stop just before a
    newline that ends the string (Python's [$] without MULTILINE). *)
Definition match_digits_eos (s : string) : option string :=
  let (ds, rest) := span_digits s in
  if truthy ds
     && (String.eqb rest EmptyString
         || String.eqb rest (String newline EmptyString))
  then Some ds else None.

(** [re.compile(r".*?(\d+)$").match(s)]: the lazy prefix grows one
    character at a time ([.] does not match a newline) until the digit
    group matches.  The result is [m.group(1)], or [None]. *)
Fixpoint LIGA_NUM_RE_match (s : string) : option string :=
  match match_digits_eos s with
  | Some ds => Some ds
  | None =>
      match s with
      | EmptyString => None
      | String c s' =>
          if Ascii.eqb c newline then None else LIGA_NUM_RE_match s'
      end
  end.

(** [re.sub(r"\..*", "", s)]: every dot and what follows it up to the end
    of its line is removed. *)
Fixpoint sub_dot_rest (skipping : bool) (s : string) : string :=
  match s with
  | EmptyString => EmptyString
  | String c s' =>
      if skipping
      then if Ascii.eqb c newline
           then String c (sub_dot_rest false s')
           else sub_dot_rest true s'
      else if Ascii.eqb c "."%char
           then sub_dot_rest true s'
           else String c (sub_dot_rest false s')
  end.

End PyStr.

(** ** Insertion-ordered dictionaries *)

Module Dict.
Section WithKey.
Variables K V : Type.
Variable eqb : K -> K -> bool.

Definition t : Type := list (K * V).

(** [d.get(k)]. *)
Fixpoint get (d : t) (k : K) : option V :=
  match d with
  | [] => None
  | (k', v) :: d' => if eqb k k' then Some v else get d' k
  end.

(** [k in d]. *)
Definition mem (d : t) (k : K) : bool :=
  match get d k with Some _ => true | None => false end.

(** [d[k] = v]: an existing key keeps its position, a new one goes last. *)
Fixpoint set (d : t) (k : K) (v : V) : t :=
  match d with
  | [] => [(k, v)]
  | (k', v') :: d' =>
      if eqb k k' then (k', v) :: d' else (k', v') :: set d' k v
  end.

(** [d[k]], raising [KeyError]. *)
Definition item (d : t) (k : K) : result V :=
  match get d k with Some v => Ok v | None => Raise KeyError end.

(** [d.keys()], [d.values()], [d.items()] is the list itself. *)
Definition keys (d : t) : list K := map fst d.
Definition values (d : t) : list V := map snd d.
End WithKey.

Arguments keys {K V} d.
Arguments values {K V} d.
End Dict.

(** Dictionaries keyed by strings. *)
Abbreviation sdict := (Dict.t string).
Abbreviation sget := (Dict.get String.eqb).
Abbreviation smem := (Dict.mem String.eqb).
Abbreviation sset := (Dict.set String.eqb).
Abbreviation sitem := (Dict.item String.eqb).

(** A Python [set] of strings, used only through membership. *)
Definition str_in (x : string) (s : list string) : bool :=
  existsb (String.eqb x) s.

(** ** Anchor name parser *)

Definition MARK_PREFIX : string := "_".
Definition LIGA_SEPARATOR : string := "_".

(** The per-anchor lib payload [objectLibs[identifier]].  The writer reads
    one entry of that dict, the one stored under
    [ANCHOR_LIB_GPOS_CONTEXT_KEY]; the payload is modelled by that entry
    ([None] when the key is missing). *)
Record LibData : Type := mkLibData { GPOS_Context : option string }.

(** [libData and ANCHOR_LIB_GPOS_CONTEXT_KEY in libData]. *)
Definition hasContext (libData : option LibData) : bool :=
  match libData with
  | None => false
  | Some d => match GPOS_Context d with Some _ => true | None => false end
  end.

(** The parsed tuple [(isMark, key, number, isContextual, isIgnorable)]. *)
Definition ParsedName : Type := (bool * string * option nat * bool * bool)%type.

(** [parseAnchorName].  [ignoreRE] is given as the substitution it performs
    ([re.sub(ignoreRE, "", .)]), [ligaNumRE] as the function returning
    [m.group(1)] of its match. *)
Definition parseAnchorName
    (anchorName : string)
    (markPrefix ligaSeparator : string)
    (ligaNumRE : string -> option string)
    (ignoreRE : option (string -> string))
    (libData : option LibData) : result ParsedName :=
  let anchorName :=
    match ignoreRE with
    | Some sub => sub anchorName
    | None => anchorName
    end in
  match anchorName with
  | EmptyString => Raise IndexError
  | String c0 rest0 =>
      let '(isContextual, anchorName) :=
        if Ascii.eqb c0 "*"%char && hasContext libData
        then (true, PyStr.sub_dot_rest false rest0)
        else (false, anchorName) in
      '(key, number) <-
        match ligaNumRE anchorName with
        | None => Ok (anchorName, None)
        | Some number =>
            let key := PyStr.rstrip anchorName number in
            let separator := ligaSeparator in
            if PyStr.endswith key separator
            then
              _ <- assert (PyStr.truthy separator) ;;
              Ok (PyStr.drop_last (String.length separator) key,
                  Some (PyStr.int number))
            else
              (* not a valid ligature anchor name *)
              Ok (anchorName, None)
        end ;;
      '(isMark, key) <-
        (if PyStr.startswith anchorName markPrefix && PyStr.truthy key
         then
           match number with
           | Some _ => Raise (ValueError_mark_numbered anchorName)
           | None =>
               let key := PyStr.drop (String.length markPrefix) key in
               if PyStr.truthy key
               then Ok (true, key)
               else Raise (ValueError_mark_key_nil anchorName)
           end
         else Ok (false, key)) ;;
      (* [key and not key[0].isalpha()]: falsy on an empty key *)
      let isIgnorable :=
        match key with
        | EmptyString => false
        | String k0 _ => negb (PyStr.isalpha k0)
        end in
      Ok (isMark, key, number, isContextual, isIgnorable)
  end.

(** ** feaLib objects the writer builds: anchors and mark classes *)

(** [ast.Anchor]: the five attributes [_anchorsAreEqual] compares. *)
Module Anchor.
Record t : Type := mk {
  x : Z;
  y : Z;
  contourpoint : option nat;
  xDeviceTable : option (list (Z * Z));
  yDeviceTable : option (list (Z * Z))
}.

(** [ast.Anchor(x=.., y=..)]: the other attributes default to [None]. *)
Definition make (x y : Z) : t := mk x y None None None.
End Anchor.

(** [ast.MarkClassDefinition(markClass, anchor, glyphs)].  The class is
    referred to by its name, the handle under which the feature file's
    [markClasses] registry stores it. *)
Module MarkClassDefinition.
Record t : Type := mk {
  markClass : string;
  anchor : Anchor.t;
  glyphs : string        (* an [ast.GlyphName] *)
}.
End MarkClassDefinition.

(** [ast.MarkClass]: a name, the definitions in the order they were added,
    and the dict [glyphs] from glyph name to its definition. *)
Module MarkClass.
Record t : Type := mk {
  name : string;
  definitions : list MarkClassDefinition.t;
  glyphs : sdict MarkClassDefinition.t
}.

(** [ast.MarkClass(name)]. *)
Definition new (name : string) : t := mk name [] [].

(** [MarkClass.addDefinition]: feaLib refuses a glyph the class already
    holds. *)
Definition addDefinition (self : t) (definition : MarkClassDefinition.t)
  : result t :=
  let glyph := MarkClassDefinition.glyphs definition in
  if smem (glyphs self) glyph
  then Raise (FeatureLibError_already_defined glyph)
  else Ok (mk (name self)
              (definitions self ++ [definition])
              (sset (glyphs self) glyph definition)).
End MarkClass.

(** ** NamedAnchor *)

(** Anchor coordinates as the glyph source gives them, before rounding. *)
Definition Coord : Type := Q.

Module NamedAnchor.
Record t : Type := mk {
  name : string;
  x : Coord;
  y : Coord;
  isMark : bool;
  key : string;
  number : option nat;
  markClass : option MarkClass.t;
  isContextual : bool;
  isIgnorable : bool;
  libData : option LibData
}.

(** Class attributes; subclasses may override them. *)
Definition markPrefix : string := MARK_PREFIX.
Definition ignoreRE : option (string -> string) := None.
Definition ligaSeparator : string := LIGA_SEPARATOR.
Definition ligaNumRE : string -> option string := PyStr.LIGA_NUM_RE_match.

(** [NamedAnchor.__init__]. *)
Definition __init__ (name : string) (x y : Coord)
    (markClass : option MarkClass.t) (libData : option LibData) : result t :=
  '(isMark, key, number, isContextual, isIgnorable) <-
    parseAnchorName name markPrefix ligaSeparator ligaNumRE ignoreRE libData ;;
  _ <- match number with
       | Some number =>
           if number <? 1 then Raise ValueError_component_index else Ok tt
       | None => assert (PyStr.truthy key)
       end ;;
  Ok (mk name x y isMark key number markClass isContextual isIgnorable
         libData).

(** The property [markAnchorName]. *)
Definition markAnchorName (self : t) : string :=
  (markPrefix ++ key self)%string.
End NamedAnchor.

(** ** [sorted] *)

Section Sorted.
Variable A : Type.
Variable leb : A -> A -> bool.

Fixpoint insert_sorted (a : A) (l : list A) : list A :=
  match l with
  | [] => [a]
  | b :: l' => if leb a b then a :: b :: l' else b :: insert_sorted a l'
  end.

(** Python's [sorted] is stable: an element is placed before the first
    element of the sorted tail that is not smaller than it. *)
Fixpoint sorted (l : list A) : list A :=
  match l with
  | [] => []
  | a :: l' => insert_sorted a (sorted l')
  end.
End Sorted.

(** ** Graph colouring *)

(** [firstAvailable]: the [while True] loop, bounded by [fuel] rounds. *)
Fixpoint firstAvailable_loop (fuel : nat) (colorSet : list nat) (count : nat)
  : result nat :=
  match fuel with
  | O => Raise LoopBound
  | S fuel' =>
      if negb (existsb (Nat.eqb count) colorSet)
      then Ok count
      else firstAvailable_loop fuel' colorSet (count + 1)
  end.

(** One more round than the set has elements always suffices
    ([firstAvailable_total]). *)
Definition firstAvailable (colorSet : list nat) : result nat :=
  firstAvailable_loop (S (length colorSet)) colorSet 0.

(** [{colors[neighbour] for neighbour in neighbours if neighbour in colors}] *)
Definition usedNeighbourColors (colors : sdict nat) (neighbours : list string)
  : list nat :=
  flat_map (fun neighbour =>
              match sget colors neighbour with
              | Some c => [c]
              | None => []
              end) neighbours.

(** The loop [for node in sorted(adjacency)] of [colorGraph]. *)
Fixpoint colorGraph_colors (adjacency : sdict (list string))
    (nodes : list string) (colors : sdict nat) : result (sdict nat) :=
  match nodes with
  | [] => Ok colors
  | node :: nodes' =>
      neighbours <- sitem adjacency node ;;
      color <- firstAvailable (usedNeighbourColors colors neighbours) ;;
      colorGraph_colors adjacency nodes' (sset colors node color)
  end.

(** [groups[color].append(node)] on a [defaultdict(list)]. *)
Definition groups_append (groups : Dict.t nat (list string))
    (color : nat) (node : string) : Dict.t nat (list string) :=
  match Dict.get Nat.eqb groups color with
  | Some g => Dict.set Nat.eqb groups color (g ++ [node])
  | None => Dict.set Nat.eqb groups color [node]
  end.

(** The loop [for node, color in colors.items()] of [colorGraph]. *)
Fixpoint colorGraph_groups (items : list (string * nat))
    (groups : Dict.t nat (list string)) : Dict.t nat (list string) :=
  match items with
  | [] => groups
  | (node, color) :: items' =>
      colorGraph_groups items' (groups_append groups color node)
  end.

(** [colorGraph]. *)
Definition colorGraph (adjacency : sdict (list string))
  : result (list (list string)) :=
  colors <- colorGraph_colors adjacency
              (sorted String.leb (Dict.keys adjacency)) [] ;;
  Ok (Dict.values (colorGraph_groups colors [])).

(** ** Attachments *)

(** The three subclasses of [AbstractMarkPos]: a glyph name and its marks,
    a flat list of anchors, or one list per ligature component. *)
Inductive Attachment : Type :=
| MarkToBasePos (name : string) (marks : list NamedAnchor.t)
| MarkToMarkPos (name : string) (marks : list NamedAnchor.t)
| MarkToLigaPos (name : string) (marks : list (list NamedAnchor.t)).

(** String sets in insertion order: [s.add(x)] and [s.update(xs)]. *)
Definition set_add (x : string) (s : list string) : list string :=
  if str_in x s then s else s ++ [x].

Definition set_update (s xs : list string) : list string :=
  fold_left (fun s x => set_add x s) xs s.

(** A list comprehension [[a for a in l if include(a)]] whose predicate can
    raise. *)
Fixpoint filter_anchors (include : NamedAnchor.t -> result bool)
    (l : list NamedAnchor.t) : result (list NamedAnchor.t) :=
  match l with
  | [] => Ok []
  | a :: l' =>
      b <- include a ;;
      l'' <- filter_anchors include l' ;;
      Ok (if b then a :: l'' else l'')
  end.

Fixpoint filter_components (include : NamedAnchor.t -> result bool)
    (l : list (list NamedAnchor.t)) : result (list (list NamedAnchor.t)) :=
  match l with
  | [] => Ok []
  | component :: l' =>
      c <- filter_anchors include component ;;
      l'' <- filter_components include l' ;;
      Ok (c :: l'')
  end.

Definition nonempty {A : Type} (l : list A) : bool :=
  match l with [] => false | _ :: _ => true end.

(** [AbstractMarkPos.filter], with [_filterMarks] of the subclass; [any]
    asks for one anchor (base, mark) or one non-empty component (liga). *)
Definition Attachment_filter (self : Attachment)
    (include : NamedAnchor.t -> result bool) : result (option Attachment) :=
  match self with
  | MarkToBasePos name marks =>
      marks <- filter_anchors include marks ;;
      Ok (if nonempty marks then Some (MarkToBasePos name marks) else None)
  | MarkToMarkPos name marks =>
      marks <- filter_anchors include marks ;;
      Ok (if nonempty marks then Some (MarkToMarkPos name marks) else None)
  | MarkToLigaPos name marks =>
      marks <- filter_components include marks ;;
      Ok (if existsb nonempty marks
          then Some (MarkToLigaPos name marks) else None)
  end.

(** [anchor.markClass], raising on [None] when an attribute is read. *)
Definition the_markClass (anchor : NamedAnchor.t) : result MarkClass.t :=
  match NamedAnchor.markClass anchor with
  | Some mc => Ok mc
  | None => Raise AttributeError
  end.

(** [markGlyphToMarkClasses[markGlyph].add(className)] on a
    [defaultdict(set)]. *)
Definition classes_add (d : sdict (list string)) (markGlyph className : string)
  : sdict (list string) :=
  match sget d markGlyph with
  | Some s => sset d markGlyph (set_add className s)
  | None => sset d markGlyph [className]
  end.

(** The two inner loops of [getMarkGlyphToMarkClasses], over one anchor. *)
Definition anchor_classes (d : sdict (list string)) (namedAnchor : NamedAnchor.t)
  : result (sdict (list string)) :=
  mc <- the_markClass namedAnchor ;;
  Ok (fold_left (fun d markGlyph => classes_add d markGlyph (MarkClass.name mc))
                (Dict.keys (MarkClass.glyphs mc)) d).

Fixpoint anchors_classes (d : sdict (list string)) (l : list NamedAnchor.t)
  : result (sdict (list string)) :=
  match l with
  | [] => Ok d
  | a :: l' => d' <- anchor_classes d a ;; anchors_classes d' l'
  end.

Fixpoint components_classes (d : sdict (list string))
    (l : list (list NamedAnchor.t)) : result (sdict (list string)) :=
  match l with
  | [] => Ok d
  | c :: l' => d' <- anchors_classes d c ;; components_classes d' l'
  end.

(** [getMarkGlyphToMarkClasses]: the items of the dict. *)
Definition getMarkGlyphToMarkClasses (self : Attachment)
  : result (sdict (list string)) :=
  match self with
  | MarkToBasePos _ marks | MarkToMarkPos _ marks => anchors_classes [] marks
  | MarkToLigaPos _ marks => components_classes [] marks
  end.

(** A list comprehension whose body can raise. *)
Fixpoint mapM {A B : Type} (f : A -> result B) (l : list A) : result (list B) :=
  match l with
  | [] => Ok []
  | a :: l' => b <- f a ;; bs <- mapM f l' ;; Ok (b :: bs)
  end.

(** ** Grouping mark classes into lookups *)

(** Class attributes of [MarkFeatureWriter]. *)
Definition markClassPrefix : string := "MC".
Definition anchorSortKey : sdict Z := [("_bottom", (-2)%Z); ("_top", (-1)%Z)].

(** [_removeClassPrefix]. *)
Definition _removeClassPrefix (markClass : string) : result string :=
  _ <- assert (PyStr.startswith markClass markClassPrefix) ;;
  Ok (PyStr.drop (String.length markClassPrefix) markClass).

(** The dict comprehension that starts [adjacency]: one empty set per mark
    class, a repeated class keeps its first position. *)
Definition adjacency_init (markGlyphToMarkClasses : sdict (list string))
  : sdict (list string) :=
  fold_left (fun adjacency markClass => sset adjacency markClass [])
            (concat (Dict.values markGlyphToMarkClasses)) [].

(** [itertools.combinations(l, 2)]. *)
Fixpoint combinations2 (l : list string) : list (string * string) :=
  match l with
  | [] => []
  | a :: l' => map (pair a) l' ++ combinations2 l'
  end.

(** [adjacency[k].add(v)]. *)
Definition adjacency_add (adjacency : sdict (list string)) (k v : string)
  : result (sdict (list string)) :=
  s <- sitem adjacency k ;;
  Ok (sset adjacency k (set_add v s)).

Fixpoint adjacency_edges (pairs : list (string * string))
    (adjacency : sdict (list string)) : result (sdict (list string)) :=
  match pairs with
  | [] => Ok adjacency
  | (markClass, other) :: pairs' =>
      adjacency <- adjacency_add adjacency markClass other ;;
      adjacency <- adjacency_add adjacency other markClass ;;
      adjacency_edges pairs' adjacency
  end.

Fixpoint adjacency_loop (items : list (string * list string))
    (adjacency : sdict (list string)) : result (sdict (list string)) :=
  match items with
  | [] => Ok adjacency
  | (_markGlyph, markClasses) :: items' =>
      adjacency <- adjacency_edges (combinations2 markClasses) adjacency ;;
      adjacency_loop items' adjacency
  end.

(** Lexicographic [<=] on lists of strings, and on the sort key
    [(int, group)]. *)
Fixpoint list_leb (l1 l2 : list string) : bool :=
  match l1, l2 with
  | [], _ => true
  | _ :: _, [] => false
  | a :: l1', b :: l2' =>
      match String.compare a b with
      | Lt => true
      | Gt => false
      | Eq => list_leb l1' l2'
      end
  end.

Definition group_key_leb (k1 k2 : Z * list string) : bool :=
  (fst k1 <? fst k2)%Z || ((fst k1 =? fst k2)%Z && list_leb (snd k1) (snd k2)).

(** The [key=] of the final [sorted]: minus the least [anchorSortKey] of the
    group's classes, then the group itself. *)
Definition group_sort_key (group : list string) : result (Z * list string) :=
  ks <- mapM (fun markClass =>
                n <- _removeClassPrefix markClass ;;
                Ok (match sget anchorSortKey n with
                    | Some k => k
                    | None => 0%Z
                    end)) group ;;
  match ks with
  | [] => Raise ValueError_min_empty
  | k :: ks' => Ok ((- fold_left Z.min ks' k)%Z, group)
  end.

(** [_groupMarkClasses]. *)
Definition _groupMarkClasses (markGlyphToMarkClasses : sdict (list string))
  : result (list (list string)) :=
  adjacency <- adjacency_loop markGlyphToMarkClasses
                 (adjacency_init markGlyphToMarkClasses) ;;
  colorGroups <- colorGraph adjacency ;;
  keyed <- mapM group_sort_key (map (sorted String.leb) colorGroups) ;;
  Ok (map snd (sorted group_key_leb keyed)).

(** [markGlyphToMarkClasses[markGlyph].update(markClasses)]. *)
Definition classes_update (d : sdict (list string)) (markGlyph : string)
    (markClasses : list string) : sdict (list string) :=
  match sget d markGlyph with
  | Some s => sset d markGlyph (set_update s markClasses)
  | None => sset d markGlyph (set_update [] markClasses)
  end.

Fixpoint attachments_classes (d : sdict (list string))
    (attachments : list Attachment) : result (sdict (list string)) :=
  match attachments with
  | [] => Ok d
  | attachment :: attachments' =>
      items <- getMarkGlyphToMarkClasses attachment ;;
      attachments_classes
        (fold_left (fun d item => classes_update d (fst item) (snd item))
                   items d)
        attachments'
  end.

(** The closure [include] of [_groupAttachments]. *)
Definition include_in (markClasses : list string) (anchor : NamedAnchor.t)
  : result bool :=
  mc <- the_markClass anchor ;;
  Ok (str_in (MarkClass.name mc) markClasses).

(** One lookup: the attachments that keep an anchor after filtering. *)
Fixpoint make_lookup (markClasses : list string) (attachments : list Attachment)
  : result (list Attachment) :=
  match attachments with
  | [] => Ok []
  | attachment :: attachments' =>
      filteredAttachment <- Attachment_filter attachment (include_in markClasses) ;;
      lookup <- make_lookup markClasses attachments' ;;
      Ok (match filteredAttachment with
          | Some a => a :: lookup
          | None => lookup
          end)
  end.

(** [sorted(self.context.markClasses.items())]: the items are compared by
    key, and the keys of a dict differ. *)
Definition item_leb (i1 i2 : string * MarkClass.t) : bool :=
  String.leb (fst i1) (fst i2).

(** [_groupAttachments]; [groupMarkClasses] is the option of that name and
    [markClasses] is [self.context.markClasses], keyed by anchor key. *)
Definition _groupAttachments (groupMarkClasses : bool)
    (markClasses : sdict MarkClass.t) (attachments : list Attachment)
  : result (list (list Attachment)) :=
  groupedMarkClasses <-
    (if groupMarkClasses
     then
       markGlyphToMarkClasses <- attachments_classes [] attachments ;;
       _groupMarkClasses markGlyphToMarkClasses
     else
       Ok (map (fun item => [MarkClass.name (snd item)])
               (sorted item_leb markClasses))) ;;
  mapM (fun markClasses => make_lookup markClasses attachments)
       groupedMarkClasses.

(** ** Glyph sources and the anchor collector *)

(** A UFO anchor as the glyph carries it: its name may be missing. *)
Module UFOAnchor.
Record t : Type := mk {
  name : option string;
  x : Coord;
  y : Coord;
  identifier : option string
}.
End UFOAnchor.

(** A glyph: its anchors in order and [glyph.lib.get(OBJECT_LIBS_KEY)]. *)
Module Glyph.
Record t : Type := mk {
  anchors : list UFOAnchor.t;
  objectLibs : option (sdict LibData)
}.
End Glyph.

(** [self.context.gdefClasses]: each class is a set of glyph names or
    [None]. *)
Module GDEFClasses.
Record t : Type := mk {
  base : option (list string);
  ligature : option (list string);
  mark : option (list string)
}.
End GDEFClasses.

(** What [self.log.warning] is called with. *)
Inductive warning : Type :=
| unnamed_anchor_discarded (glyphName : string)
| duplicate_anchor (anchorName glyphName : string).

(** Truthiness of an optional string: neither [None] nor empty. *)
Definition truthy_opt (s : option string) : bool :=
  match s with Some s => PyStr.truthy s | None => false end.

(** [a | b] on sets that may be [None]. *)
Definition set_union (a b : option (list string)) : result (list string) :=
  match a, b with
  | Some a, Some b => Ok (a ++ b)
  | _, _ => Raise TypeError
  end.

Section Collector.

(** [BaseFeatureWriter._getAnchor], which is not part of the sources at
    hand: the coordinates to use for an anchor of a glyph. *)
Variable _getAnchor : string -> string -> UFOAnchor.t -> Coord * Coord.

(** The anchor that [_getAnchorLists] builds from a named UFO anchor. *)
Definition collect_anchor (glyphName anchorName : string)
    (objectLibs : option (sdict LibData)) (anchor : UFOAnchor.t)
  : result NamedAnchor.t :=
  let '(x, y) := _getAnchor glyphName anchorName anchor in
  let libData :=
    match objectLibs with
    | Some libs =>
        if truthy_opt (UFOAnchor.identifier anchor) && nonempty libs
        then match UFOAnchor.identifier anchor with
             | Some i => sget libs i
             | None => None
             end
        else None
    | None => None
    end in
  NamedAnchor.__init__ anchorName x y None libData.

(** The loop [for anchor in glyph.anchors]. *)
Fixpoint anchorDict_loop (glyphName : string)
    (objectLibs : option (sdict LibData)) (anchors : list UFOAnchor.t)
    (anchorDict : sdict NamedAnchor.t) (log : list warning)
  : result (sdict NamedAnchor.t * list warning) :=
  match anchors with
  | [] => Ok (anchorDict, log)
  | anchor :: anchors' =>
      match UFOAnchor.name anchor with
      | None =>
          anchorDict_loop glyphName objectLibs anchors' anchorDict
            (log ++ [unnamed_anchor_discarded glyphName])
      | Some anchorName =>
          if negb (PyStr.truthy anchorName)
          then
            anchorDict_loop glyphName objectLibs anchors' anchorDict
              (log ++ [unnamed_anchor_discarded glyphName])
          else
            let log :=
              if smem anchorDict anchorName
              then log ++ [duplicate_anchor anchorName glyphName]
              else log in
            a <- collect_anchor glyphName anchorName objectLibs anchor ;;
            if NamedAnchor.isIgnorable a
            then anchorDict_loop glyphName objectLibs anchors' anchorDict log
            else anchorDict_loop glyphName objectLibs anchors'
                   (sset anchorDict anchorName a) log
      end
  end.

(** The loop [for glyphName, glyph in self.getOrderedGlyphSet().items()]. *)
Fixpoint anchorLists_loop (include : option (list string))
    (glyphSet : list (string * Glyph.t))
    (result_ : sdict (list NamedAnchor.t)) (log : list warning)
  : result (sdict (list NamedAnchor.t) * list warning) :=
  match glyphSet with
  | [] => Ok (result_, log)
  | (glyphName, glyph) :: glyphSet' =>
      if match include with
         | Some include => negb (str_in glyphName include)
         | None => false
         end
      then anchorLists_loop include glyphSet' result_ log
      else
        '(anchorDict, log) <-
          anchorDict_loop glyphName (Glyph.objectLibs glyph)
            (Glyph.anchors glyph) [] log ;;
        anchorLists_loop include glyphSet'
          (if nonempty anchorDict
           then sset result_ glyphName (Dict.values anchorDict)
           else result_)
          log
  end.

(** [_getAnchorLists]: the anchor lists and the warnings logged. *)
Definition _getAnchorLists (gdefClasses : GDEFClasses.t)
    (glyphSet : list (string * Glyph.t))
  : result (sdict (list NamedAnchor.t) * list warning) :=
  include <-
    match GDEFClasses.base gdefClasses with
    | Some base =>
        bl <- set_union (Some base) (GDEFClasses.ligature gdefClasses) ;;
        blm <- set_union (Some bl) (GDEFClasses.mark gdefClasses) ;;
        Ok (Some blm)
    | None => Ok None
    end ;;
  anchorLists_loop include glyphSet [] [].

End Collector.

(** [_getAnchorPairs]: the first loop gathers the names of the mark
    anchors, the second pairs each other anchor with its mark anchor name. *)
Definition markAnchorNames_of (anchorLists : sdict (list NamedAnchor.t))
  : list string :=
  map NamedAnchor.name
      (filter NamedAnchor.isMark (concat (Dict.values anchorLists))).

Definition _getAnchorPairs (anchorLists : sdict (list NamedAnchor.t))
  : sdict string :=
  let markAnchorNames := markAnchorNames_of anchorLists in
  fold_left
    (fun anchorPairs anchor =>
       if NamedAnchor.isMark anchor then anchorPairs
       else
         let markAnchorName := NamedAnchor.markAnchorName anchor in
         if str_in markAnchorName markAnchorNames
         then sset anchorPairs (NamedAnchor.name anchor) markAnchorName
         else anchorPairs)
    (concat (Dict.values anchorLists)) [].

(** [shouldContinue]; [super_shouldContinue] is what
    [BaseFeatureWriter.shouldContinue] answers. *)
Definition shouldContinue (anchorPairs : sdict string)
    (super_shouldContinue : bool) : bool :=
  if negb (nonempty anchorPairs)
  then false      (* "No mark-attaching anchors found; skipped" *)
  else super_shouldContinue.

(** Modelled from the spec: [BaseFeatureWriter.write], the driver that
    calls [shouldContinue], is not among the sources.  The spec (4.3, 6)
    says that when no contract pairs exist the whole generation is
    skipped, no feature is produced and a "nothing generated" signal is
    returned; otherwise the generation ([_write]) runs on the document. *)
Definition write {Doc : Type} (feaFile : Doc) (anchorPairs : sdict string)
    (super_shouldContinue : bool) (_write : Doc -> result (bool * Doc))
  : result (bool * Doc) :=
  if shouldContinue anchorPairs super_shouldContinue
  then _write feaFile
  else Ok (false, feaFile).

(** ** Mark class definitions *)

Definition option_eqb {A : Type} (eqb : A -> A -> bool) (a b : option A) : bool :=
  match a, b with
  | Some a, Some b => eqb a b
  | None, None => true
  | _, _ => false
  end.

Fixpoint list_eqb {A : Type} (eqb : A -> A -> bool) (l1 l2 : list A) : bool :=
  match l1, l2 with
  | [], [] => true
  | a :: l1', b :: l2' => eqb a b && list_eqb eqb l1' l2'
  | _, _ => false
  end.

Definition deviceTable_eqb : option (list (Z * Z)) -> option (list (Z * Z)) -> bool :=
  option_eqb (list_eqb (fun p q => (fst p =? fst q)%Z && (snd p =? snd q)%Z)).

(** [_anchorsAreEqual]: the five attributes compared with [==]. *)
Definition _anchorsAreEqual (a1 a2 : Anchor.t) : bool :=
  (Anchor.x a1 =? Anchor.x a2)%Z
  && (Anchor.y a1 =? Anchor.y a2)%Z
  && option_eqb Nat.eqb (Anchor.contourpoint a1) (Anchor.contourpoint a2)
  && deviceTable_eqb (Anchor.xDeviceTable a1) (Anchor.xDeviceTable a2)
  && deviceTable_eqb (Anchor.yDeviceTable a1) (Anchor.yDeviceTable a2).

Section MarkClasses.

(** [ufo2ft.util.otRoundIgnoringVariable] and
    [ufo2ft.featureWriters.ast.makeFeaClassName(name, existing)] are not
    part of the sources at hand; they are parameters.  The second one
    receives the names already in use (the keys of [markClasses]). *)
Variable otRoundIgnoringVariable : Coord -> Z.
Variable makeFeaClassName : string -> list string -> string.

(** The last three statements of [_defineMarkClass]: the definition is
    added to the class object held in the registry under [handle]. *)
Definition add_mcdef (markClasses : sdict MarkClass.t) (handle : string)
    (markClass : MarkClass.t) (anchor : Anchor.t) (glyphName : string)
  : result (option MarkClassDefinition.t * sdict MarkClass.t) :=
  let mcdef := MarkClassDefinition.mk handle anchor glyphName in
  markClass <- MarkClass.addDefinition markClass mcdef ;;
  Ok (Some mcdef, sset markClasses handle markClass).

(** [_defineMarkClass]: the returned definition ([None] when the glyph is
    already defined) and the registry [markClasses] after the call. *)
Definition _defineMarkClass (glyphName : string) (x y : Coord)
    (className : string) (markClasses : sdict MarkClass.t)
  : result (option MarkClassDefinition.t * sdict MarkClass.t) :=
  let anchor := Anchor.make (otRoundIgnoringVariable x)
                            (otRoundIgnoringVariable y) in
  match sget markClasses className with
  | None =>
      let markClass := MarkClass.new className in
      let markClasses := sset markClasses className markClass in
      add_mcdef markClasses className markClass anchor glyphName
  | Some markClass =>
      match sget (MarkClass.glyphs markClass) glyphName with
      | Some mcdef =>
          if _anchorsAreEqual anchor (MarkClassDefinition.anchor mcdef)
          then
            (* "Glyph %s already defined in markClass @%s" *)
            Ok (None, markClasses)
          else
            (* same mark glyph defined with different anchors for the
               same markClass; make a new unique markClass definition *)
            let newClassName :=
              makeFeaClassName className (Dict.keys markClasses) in
            let markClass := MarkClass.new newClassName in
            let markClasses := sset markClasses newClassName markClass in
            add_mcdef markClasses newClassName markClass anchor glyphName
      | None =>
          add_mcdef markClasses className markClass anchor glyphName
      end
  end.

End MarkClasses.

(** ** Mark-to-ligature attachments *)

Definition is_none {A : Type} (o : option A) : bool :=
  match o with None => true | Some _ => false end.

(** The loop [for anchor in anchors] that fills [componentAnchors]. *)
Fixpoint componentAnchors_loop (anchors : list NamedAnchor.t)
    (componentAnchors : Dict.t nat (list NamedAnchor.t))
  : result (Dict.t nat (list NamedAnchor.t)) :=
  match anchors with
  | [] => Ok componentAnchors
  | anchor :: anchors' =>
      if is_none (NamedAnchor.markClass anchor)
         && PyStr.truthy (NamedAnchor.key anchor)
      then
        (* skip anchors for which no mark class is defined *)
        componentAnchors_loop anchors' componentAnchors
      else
        _ <- assert (negb (NamedAnchor.isMark anchor)) ;;
        match NamedAnchor.number anchor with
        | None =>
            (* we handled these in the mark2base lookup *)
            componentAnchors_loop anchors' componentAnchors
        | Some number =>
            if NamedAnchor.isContextual anchor
            then componentAnchors_loop anchors' componentAnchors
            else if negb (PyStr.truthy (NamedAnchor.key anchor))
            then
              componentAnchors_loop anchors'
                (Dict.set Nat.eqb componentAnchors number [])
            else
              componentAnchors_loop anchors'
                (Dict.set Nat.eqb componentAnchors number
                   (match Dict.get Nat.eqb componentAnchors number with
                    | Some l => l ++ [anchor]
                    | None => [anchor]
                    end))
        end
  end.

(** [[componentAnchors.get(number, []) for number in range(1, max + 1)]]. *)
Definition ligatureMarks_of (componentAnchors : Dict.t nat (list NamedAnchor.t))
  : list (list NamedAnchor.t) :=
  map (fun number =>
         match Dict.get Nat.eqb componentAnchors number with
         | Some l => l
         | None => []
         end)
      (seq 1 (list_max (Dict.keys componentAnchors))).

(** [_makeMarkToLigaAttachments]. *)
Fixpoint _makeMarkToLigaAttachments (markGlyphNames : list string)
    (ligatureClass : option (list string))
    (anchorLists : sdict (list NamedAnchor.t)) : result (list Attachment) :=
  match anchorLists with
  | [] => Ok []
  | (glyphName, anchors) :: anchorLists' =>
      if str_in glyphName markGlyphNames
         || match ligatureClass with
            | Some ligatureClass => negb (str_in glyphName ligatureClass)
            | None => false
            end
      then _makeMarkToLigaAttachments markGlyphNames ligatureClass anchorLists'
      else
        componentAnchors <- componentAnchors_loop anchors [] ;;
        result_ <- _makeMarkToLigaAttachments markGlyphNames ligatureClass
                     anchorLists' ;;
        Ok (if negb (nonempty componentAnchors)
            then result_
            else MarkToLigaPos glyphName (ligatureMarks_of componentAnchors)
                 :: result_)
  end.

(** ** Pruning the anchors that attach to nothing *)

(** [baseAnchorNames | markAnchorNames], used through membership. *)
Definition attachingAnchorNames (anchorPairs : sdict string) : list string :=
  Dict.keys anchorPairs ++ Dict.values anchorPairs.

(** The loop [for anchor in list(anchors)] of [_pruneUnusedAnchors]:
    [anchors.remove(anchor)] takes out the very object at hand
    ([NamedAnchor] defines no [__eq__]), so what is left are the anchors
    that fail the test, in their order. *)
Definition prune_anchors (attachingAnchorNames : list string)
    (anchors : list NamedAnchor.t) : list NamedAnchor.t :=
  filter (fun anchor =>
            negb (negb (str_in (NamedAnchor.name anchor) attachingAnchorNames)
                  && PyStr.truthy (NamedAnchor.key anchor)))
         anchors.

(** The loop over [list(self.context.anchorLists.items())]: a glyph left
    without anchors is deleted from the dict. *)
Fixpoint prune_glyphs (attachingAnchorNames : list string)
    (items : list (string * list NamedAnchor.t)) : sdict (list NamedAnchor.t) :=
  match items with
  | [] => []
  | (glyphName, anchors) :: items' =>
      let anchors := prune_anchors attachingAnchorNames anchors in
      if negb (nonempty anchors)
      then prune_glyphs attachingAnchorNames items'
      else (glyphName, anchors) :: prune_glyphs attachingAnchorNames items'
  end.

(** [_pruneUnusedAnchors]: [self.context.anchorLists] after the call. *)
Definition _pruneUnusedAnchors (anchorPairs : sdict string)
    (anchorLists : sdict (list NamedAnchor.t)) : sdict (list NamedAnchor.t) :=
  prune_glyphs (attachingAnchorNames anchorPairs) anchorLists.

(** ** Mark glyphs grouped by mark anchor *)

(** The loop [for anchor in markAnchors] of [_groupMarkGlyphsByAnchor]. *)
Fixpoint group_markAnchors (glyphName : string) (markAnchors : list NamedAnchor.t)
    (groups : sdict (sdict NamedAnchor.t)) : result (sdict (sdict NamedAnchor.t)) :=
  match markAnchors with
  | [] => Ok groups
  | anchor :: markAnchors' =>
      (* [groups.setdefault(anchor.name, OrderedDict())] *)
      let group :=
        match sget groups (NamedAnchor.name anchor) with
        | Some group => group
        | None => []
        end in
      _ <- assert (negb (smem group glyphName)) ;;
      group_markAnchors glyphName markAnchors'
        (sset groups (NamedAnchor.name anchor) (sset group glyphName anchor))
  end.

(** The loop over [self.context.anchorLists.items()]; the state is the
    dict [groups] and the set [markGlyphNames]. *)
Fixpoint group_markGlyphs (gdefMarks : option (list string))
    (markAnchorNames : list string)
    (items : list (string * list NamedAnchor.t))
    (groups : sdict (sdict NamedAnchor.t)) (markGlyphNames : list string)
  : result (sdict (sdict NamedAnchor.t) * list string) :=
  match items with
  | [] => Ok (groups, markGlyphNames)
  | (glyphName, anchors) :: items' =>
      if match gdefMarks with
         | Some gdefMarks => negb (str_in glyphName gdefMarks)
         | None => false
         end
      then group_markGlyphs gdefMarks markAnchorNames items' groups markGlyphNames
      else
        let markAnchors :=
          filter (fun a => str_in (NamedAnchor.name a) markAnchorNames) anchors in
        if negb (nonempty markAnchors)
        then group_markGlyphs gdefMarks markAnchorNames items' groups
               markGlyphNames
        else
          groups <- group_markAnchors glyphName markAnchors groups ;;
          group_markGlyphs gdefMarks markAnchorNames items' groups
            (set_add glyphName markGlyphNames)
  end.

(** [_groupMarkGlyphsByAnchor]: the returned [groups] and the
    [self.context.markGlyphNames] it sets. *)
Definition _groupMarkGlyphsByAnchor (gdefMarks : option (list string))
    (anchorPairs : sdict string) (anchorLists : sdict (list NamedAnchor.t))
  : result (sdict (sdict NamedAnchor.t) * list string) :=
  group_markGlyphs gdefMarks (Dict.values anchorPairs) anchorLists [] [].

(** ** Mark classes of the base anchors *)

(** [anchor.markClass = mc]. *)
Definition set_markClass (anchor : NamedAnchor.t) (mc : option MarkClass.t)
  : NamedAnchor.t :=
  NamedAnchor.mk (NamedAnchor.name anchor) (NamedAnchor.x anchor)
    (NamedAnchor.y anchor) (NamedAnchor.isMark anchor) (NamedAnchor.key anchor)
    (NamedAnchor.number anchor) mc (NamedAnchor.isContextual anchor)
    (NamedAnchor.isIgnorable anchor) (NamedAnchor.libData anchor).

(** The body of the inner loop of [_setBaseAnchorMarkClasses]. *)
Definition setBaseAnchorMarkClass (markClasses : sdict MarkClass.t)
    (anchor : NamedAnchor.t) : NamedAnchor.t :=
  if NamedAnchor.isMark anchor
     || negb (PyStr.truthy (NamedAnchor.key anchor))
     || negb (smem markClasses (NamedAnchor.key anchor))
  then anchor
  else set_markClass anchor (sget markClasses (NamedAnchor.key anchor)).

(** [_setBaseAnchorMarkClasses]: the anchor lists after the call. *)
Definition _setBaseAnchorMarkClasses (markClasses : sdict MarkClass.t)
    (anchorLists : sdict (list NamedAnchor.t)) : sdict (list NamedAnchor.t) :=
  map (fun item => (fst item, map (setBaseAnchorMarkClass markClasses) (snd item)))
      anchorLists.

(** ** Mark-to-base and mark-to-mark attachments *)

(** The loop [for anchor in anchors] of [_makeMarkToBaseAttachments]. *)
Fixpoint baseMarks_loop (anchors : list NamedAnchor.t)
  : result (list NamedAnchor.t) :=
  match anchors with
  | [] => Ok []
  | anchor :: anchors' =>
      if is_none (NamedAnchor.markClass anchor)
         || negb (is_none (NamedAnchor.number anchor))
      then baseMarks_loop anchors'
      else if NamedAnchor.isContextual anchor
      then baseMarks_loop anchors'
      else
        _ <- assert (negb (NamedAnchor.isMark anchor)) ;;
        baseMarks <- baseMarks_loop anchors' ;;
        Ok (anchor :: baseMarks)
  end.

(** [_makeMarkToBaseAttachments]. *)
Fixpoint _makeMarkToBaseAttachments (markGlyphNames : list string)
    (baseClass : option (list string))
    (anchorLists : sdict (list NamedAnchor.t)) : result (list Attachment) :=
  match anchorLists with
  | [] => Ok []
  | (glyphName, anchors) :: anchorLists' =>
      if str_in glyphName markGlyphNames
         || match baseClass with
            | Some baseClass => negb (str_in glyphName baseClass)
            | None => false
            end
      then _makeMarkToBaseAttachments markGlyphNames baseClass anchorLists'
      else
        baseMarks <- baseMarks_loop anchors ;;
        result_ <- _makeMarkToBaseAttachments markGlyphNames baseClass
                     anchorLists' ;;
        Ok (if negb (nonempty baseMarks)
            then result_
            else MarkToBasePos glyphName baseMarks :: result_)
  end.

(** The warning of [_makeMarkToMarkAttachments]. *)
Inductive mkmk_warning : Type :=
| invalid_ligature_anchor (anchorName glyphName : string).

(** The loop [for anchor in anchors] of [_makeMarkToMarkAttachments]. *)
Fixpoint markToMark_anchors (glyphName : string) (anchors : list NamedAnchor.t)
    (results : sdict (list Attachment)) (log : list mkmk_warning)
  : sdict (list Attachment) * list mkmk_warning :=
  match anchors with
  | [] => (results, log)
  | anchor :: anchors' =>
      if is_none (NamedAnchor.markClass anchor) || NamedAnchor.isMark anchor
      then markToMark_anchors glyphName anchors' results log
      else if NamedAnchor.isContextual anchor
      then markToMark_anchors glyphName anchors' results log
      else if negb (is_none (NamedAnchor.number anchor))
      then markToMark_anchors glyphName anchors' results
             (log ++ [invalid_ligature_anchor (NamedAnchor.name anchor) glyphName])
      else
        let pos := MarkToMarkPos glyphName [anchor] in
        markToMark_anchors glyphName anchors'
          (sset results (NamedAnchor.key anchor)
             (match sget results (NamedAnchor.key anchor) with
              | Some l => l ++ [pos]
              | None => [pos]
              end))
          log
  end.

(** [_makeMarkToMarkAttachments]: the dict from anchor key to the
    attachments of that key, and the warnings logged. *)
Fixpoint markToMark_glyphs (markGlyphNames : list string)
    (items : list (string * list NamedAnchor.t))
    (results : sdict (list Attachment)) (log : list mkmk_warning)
  : sdict (list Attachment) * list mkmk_warning :=
  match items with
  | [] => (results, log)
  | (glyphName, anchors) :: items' =>
      if negb (str_in glyphName markGlyphNames)
      then markToMark_glyphs markGlyphNames items' results log
      else
        let (results, log) := markToMark_anchors glyphName anchors results log in
        markToMark_glyphs markGlyphNames items' results log
  end.

Definition _makeMarkToMarkAttachments (markGlyphNames : list string)
    (anchorLists : sdict (list NamedAnchor.t))
  : sdict (list Attachment) * list mkmk_warning :=
  markToMark_glyphs markGlyphNames anchorLists [] [].

(** ** Above and below marks *)

(** Class attributes of [MarkFeatureWriter]. *)
Definition abvmAnchorNames : list string :=
  ["top"; "topleft"; "topright"; "candra"; "bindu"; "candrabindu"; "imatra"].
Definition blwmAnchorNames : list string :=
  ["bottom"; "bottomleft"; "bottomright"; "nukta"].

(** [_isAboveMark] and [_isBelowMark]. *)
Definition _isAboveMark (anchor : NamedAnchor.t) : bool :=
  if str_in (NamedAnchor.name anchor) abvmAnchorNames then true
  else if str_in (NamedAnchor.name anchor) blwmAnchorNames
          || PyStr.startswith (NamedAnchor.name anchor) "bottom"
          || PyStr.startswith (NamedAnchor.name anchor) "nukta"
  then false
  else true.

Definition _isBelowMark (anchor : NamedAnchor.t) : bool :=
  negb (_isAboveMark anchor).

(** [_iterAttachments]: the attachments it yields, in order.  [include]
    tests glyph names and [marksFilter] anchors; either may be [None]. *)
Fixpoint _iterAttachments (attachments : list Attachment)
    (include : option (string -> bool))
    (marksFilter : option (NamedAnchor.t -> bool)) : result (list Attachment) :=
  match attachments with
  | [] => Ok []
  | pos :: attachments' =>
      let name :=
        match pos with
        | MarkToBasePos name _ | MarkToMarkPos name _ | MarkToLigaPos name _ =>
            name
        end in
      if match include with
         | Some include => negb (include name)
         | None => false
         end
      then _iterAttachments attachments' include marksFilter
      else
        pos <- match marksFilter with
               | Some marksFilter =>
                   Attachment_filter pos (fun a => Ok (marksFilter a))
               | None => Ok (Some pos)
               end ;;
        rest <- _iterAttachments attachments' include marksFilter ;;
        Ok (match pos with
            | Some pos => pos :: rest
            | None => rest
            end)
  end.

(** * Specification predicates *)

Unset Implicit Arguments.

(** The spec's wording of [isIgnorable]: true when the key is empty or its
    first character is not alphabetic. *)
Definition isIgnorable_as_specified (key : string) : bool :=
  match key with
  | EmptyString => true
  | String c _ => negb (PyStr.isalpha c)
  end.

(** What the parser computes: [key and not key[0].isalpha()]. *)
Definition isIgnorable_of (key : string) : bool :=
  match key with
  | EmptyString => false
  | String c _ => negb (PyStr.isalpha c)
  end.

(** The adjacency of an undirected graph: [v] listed under [u] means [u]
    listed under [v]. *)
Definition symmetric (adjacency : sdict (list string)) : Prop :=
  forall u v nu nv,
    sget adjacency u = Some nu -> sget adjacency v = Some nv ->
    In v nu -> In u nv.

(** No two distinct adjacent vertices have the same colour. *)
Definition proper (adjacency : sdict (list string)) (colors : sdict nat) : Prop :=
  forall u v cu cv nu,
    sget colors u = Some cu -> sget colors v = Some cv -> u <> v ->
    sget adjacency u = Some nu -> In v nu -> cu <> cv.

(** A checker for [symmetric], for concrete adjacency maps. *)
Definition symmetricb (adjacency : sdict (list string)) : bool :=
  forallb (fun item =>
             forallb (fun v =>
                        match sget adjacency v with
                        | Some nv => str_in (fst item) nv
                        | None => true
                        end) (snd item)) adjacency.

(** The anchors an attachment carries, and those of a lookup. *)
Definition attachment_anchors (a : Attachment) : list NamedAnchor.t :=
  match a with
  | MarkToBasePos _ marks | MarkToMarkPos _ marks => marks
  | MarkToLigaPos _ marks => concat marks
  end.

Definition lookup_anchors (lookup : list Attachment) : list NamedAnchor.t :=
  flat_map attachment_anchors lookup.

(** The mark class names a lookup refers to, anchor by anchor. *)
Definition lookup_classes (lookup : list Attachment) : list string :=
  flat_map (fun a => match NamedAnchor.markClass a with
                     | Some mc => [MarkClass.name mc]
                     | None => []
                     end) (lookup_anchors lookup).

(** The LookupGroup invariant: within a lookup no mark glyph appears under
    two different mark classes. *)
Definition LookupGroup_invariant (lookup : list Attachment) : Prop :=
  forall a1 a2 mc1 mc2 markGlyph,
    In a1 (lookup_anchors lookup) -> In a2 (lookup_anchors lookup) ->
    NamedAnchor.markClass a1 = Some mc1 ->
    NamedAnchor.markClass a2 = Some mc2 ->
    In markGlyph (Dict.keys (MarkClass.glyphs mc1)) ->
    In markGlyph (Dict.keys (MarkClass.glyphs mc2)) ->
    MarkClass.name mc1 = MarkClass.name mc2.

(** Every anchor of the attachments has a mark class. *)
Definition all_have_markClass (attachments : list Attachment) : Prop :=
  forall a, In a (lookup_anchors attachments) -> NamedAnchor.markClass a <> None.

(** [markGlyph] is recorded under class [c] in a glyph-to-classes dict. *)
Definition covers (d : sdict (list string)) (markGlyph c : string) : Prop :=
  exists cs, sget d markGlyph = Some cs /\ In c cs.

(** [v] is listed as a neighbour of [u]. *)
Definition edge (adjacency : sdict (list string)) (u v : string) : Prop :=
  exists nu, sget adjacency u = Some nu /\ In v nu.

(** Every class name recorded in a glyph-to-classes dict satisfies [P]. *)
Definition all_classes (P : string -> Prop) (d : sdict (list string)) : Prop :=
  forall g cs c, In (g, cs) d -> In c cs -> P c.

(** The class name starts with the writer's [markClassPrefix]. *)
Definition prefixed (c : string) : Prop :=
  PyStr.startswith c markClassPrefix = true.

(** Data for the concrete runs: the mark glyph "acutecomb" belongs to the
    classes [MC_top] and [MC_bottom], "dotbelowcomb" to [MC_bottom] and
    "ringcomb" to [MC_ring]. *)
Definition MC_glyphs_example (name : string) (glyphs : list string) : MarkClass.t :=
  let defs := map (MarkClassDefinition.mk name (Anchor.make 0 0)) glyphs in
  MarkClass.mk name defs (map (fun d => (MarkClassDefinition.glyphs d, d)) defs).

Definition overlapping_attachments : list Attachment :=
  [MarkToBasePos "a"
     [NamedAnchor.mk "top" 100%Q 500%Q false "top" None
        (Some (MC_glyphs_example "MC_top" ["acutecomb"])) false false None;
      NamedAnchor.mk "bottom" 100%Q 0%Q false "bottom" None
        (Some (MC_glyphs_example "MC_bottom" ["acutecomb"; "dotbelowcomb"]))
        false false None;
      NamedAnchor.mk "ring" 100%Q 600%Q false "ring" None
        (Some (MC_glyphs_example "MC_ring" ["ringcomb"])) false false None];
   MarkToLigaPos "f_i"
     [[NamedAnchor.mk "top_1" 50%Q 500%Q false "top" (Some 1)
         (Some (MC_glyphs_example "MC_top" ["acutecomb"])) false false None];
      [];
      [NamedAnchor.mk "bottom_3" 250%Q 0%Q false "bottom" (Some 3)
         (Some (MC_glyphs_example "MC_bottom" ["acutecomb"; "dotbelowcomb"]))
         false false None]]].

(** A checker for the hypothesis that every anchor has a prefixed class. *)
Definition all_prefixedb (attachments : list Attachment) : bool :=
  forallb (fun a => match NamedAnchor.markClass a with
                    | Some mc => PyStr.startswith (MarkClass.name mc) markClassPrefix
                    | None => false
                    end) (lookup_anchors attachments).

(** The anchors of a glyph that [_makeMarkToLigaAttachments] collects:
    numbered, not contextual, and with a mark class unless the key is
    empty. *)
Definition collected (a : NamedAnchor.t) : bool :=
  negb (is_none (NamedAnchor.markClass a) && PyStr.truthy (NamedAnchor.key a))
  && negb (is_none (NamedAnchor.number a))
  && negb (NamedAnchor.isContextual a).

(** A collected anchor of component [i] with an empty key (a null anchor),
    and one with a key. *)
Definition null_for (i : nat) (a : NamedAnchor.t) : bool :=
  collected a && option_eqb Nat.eqb (NamedAnchor.number a) (Some i)
  && negb (PyStr.truthy (NamedAnchor.key a)).

Definition keyed_for (i : nat) (a : NamedAnchor.t) : bool :=
  collected a && option_eqb Nat.eqb (NamedAnchor.number a) (Some i)
  && PyStr.truthy (NamedAnchor.key a).

(** The component numbers observed on the collected anchors. *)
Definition numbers_of (anchors : list NamedAnchor.t) : list nat :=
  flat_map (fun a => match NamedAnchor.number a with
                     | Some n => [n]
                     | None => []
                     end) (filter collected anchors).

(** What one anchor does to the list held for component [i]. *)
Definition component_step (i : nat) (held : option (list NamedAnchor.t))
    (a : NamedAnchor.t) : option (list NamedAnchor.t) :=
  if null_for i a then Some []
  else if keyed_for i a
       then Some (match held with Some l => l ++ [a] | None => [a] end)
       else held.

(** A glyph is left out of the mark-to-ligature attachments. *)
Definition liga_excluded (markGlyphNames : list string)
    (ligatureClass : option (list string)) (glyphName : string) : bool :=
  str_in glyphName markGlyphNames
  || match ligatureClass with
     | Some ligatureClass => negb (str_in glyphName ligatureClass)
     | None => false
     end.

(** The list held for component [i] once all the anchors are read. *)
Definition component_of (i : nat) (anchors : list NamedAnchor.t)
  : list NamedAnchor.t :=
  match fold_left (component_step i) anchors None with
  | Some l => l
  | None => []
  end.

(** A ligature whose anchors are the null anchor "_1" followed by "top_1",
    the latter resolved to the class [MC_top]. *)
Definition null_then_keyed : sdict (list NamedAnchor.t) :=
  [("f_i",
    [NamedAnchor.mk "_1" 0%Q 0%Q false "" (Some 1) None false false None;
     NamedAnchor.mk "top_1" 50%Q 500%Q false "top" (Some 1)
       (Some (MC_glyphs_example "MC_top" ["tildecomb"])) false false None])].

(** Scenario B of the spec: "f_f" with "top_1" and "top_2". *)
Definition scenario_B : sdict (list NamedAnchor.t) :=
  [("f_f",
    [NamedAnchor.mk "top_1" 50%Q 500%Q false "top" (Some 1)
       (Some (MC_glyphs_example "MC_top" ["tildecomb"])) false false None;
     NamedAnchor.mk "top_2" 150%Q 500%Q false "top" (Some 2)
       (Some (MC_glyphs_example "MC_top" ["tildecomb"])) false false None]);
   ("tildecomb",
    [NamedAnchor.mk "_top" 0%Q 0%Q true "top" None None false false None])].

(** A checker for the hypothesis that no mark anchor reaches the assert. *)
Definition marks_skippedb (anchorLists : sdict (list NamedAnchor.t)) : bool :=
  forallb (fun a => negb (NamedAnchor.isMark a)
                    || (is_none (NamedAnchor.markClass a)
                        && PyStr.truthy (NamedAnchor.key a)))
          (concat (Dict.values anchorLists)).

(** *** The anchor collector *)

Section CollectorSpec.
Variable _getAnchor : string -> string -> UFOAnchor.t -> Coord * Coord.
Variable glyphName : string.
Variable objectLibs : option (sdict LibData).

(** The UFO anchor [r], named [n], is built into the anchor [a], which is
    kept (it is not ignorable). *)
Definition builds (n : string) (r : UFOAnchor.t) (a : NamedAnchor.t) : Prop :=
  UFOAnchor.name r = Some n /\ n <> ""
  /\ collect_anchor _getAnchor glyphName n objectLibs r = Ok a
  /\ NamedAnchor.isIgnorable a = false.

(** The UFO anchor [r] does not replace an anchor named [n]: it has another
    name, or what is built from it is ignorable. *)
Definition keeps (n : string) (r : UFOAnchor.t) : Prop :=
  forall a, UFOAnchor.name r = Some n ->
            collect_anchor _getAnchor glyphName n objectLibs r = Ok a ->
            NamedAnchor.isIgnorable a = true.

(** [a] is built from the last UFO anchor of its name that is kept. *)
Definition retained_from (raws : list UFOAnchor.t) (a : NamedAnchor.t) : Prop :=
  exists l1 r l2,
    raws = l1 ++ r :: l2
    /\ builds (NamedAnchor.name a) r a
    /\ forall r', In r' l2 -> keeps (NamedAnchor.name a) r'.

(** What one UFO anchor does to the anchor held under the name [n]. *)
Definition retained_step (n : string) (held : option NamedAnchor.t)
    (r : UFOAnchor.t) : option NamedAnchor.t :=
  match UFOAnchor.name r with
  | Some m =>
      if String.eqb m n && PyStr.truthy m
      then match collect_anchor _getAnchor glyphName m objectLibs r with
           | Ok a => if NamedAnchor.isIgnorable a then held else Some a
           | Raise _ => held
           end
      else held
  | None => held
  end.

End CollectorSpec.

(** The glyph passes the GDEF restriction of [_getAnchorLists]. *)
Definition gdef_included (gdefClasses : GDEFClasses.t) (glyphName : string) : bool :=
  match GDEFClasses.base gdefClasses with
  | None => true
  | Some base =>
      str_in glyphName base
      || match GDEFClasses.ligature gdefClasses with
         | Some l => str_in glyphName l
         | None => false
         end
      || match GDEFClasses.mark gdefClasses with
         | Some m => str_in glyphName m
         | None => false
         end
  end.

(** [_getAnchor] of a static font: the coordinates of the UFO anchor. *)
Definition plain_getAnchor (_ _ : string) (anchor : UFOAnchor.t) : Coord * Coord :=
  (UFOAnchor.x anchor, UFOAnchor.y anchor).

(** A glyph with two anchors named "top" and one without a name. *)
Definition duplicate_top : list (string * Glyph.t) :=
  [("a", Glyph.mk [UFOAnchor.mk (Some "top") 100%Q 500%Q None;
                   UFOAnchor.mk None 0%Q 0%Q None;
                   UFOAnchor.mk (Some "top") 120%Q 520%Q None] None)].

(** *** Data for the concrete runs *)

(** Only "_top" anchors and no glyph with "top": nothing pairs. *)
Definition only_mark_anchors : sdict (list NamedAnchor.t) :=
  [("acutecomb",
    [NamedAnchor.mk "_top" 0%Q 0%Q true "top" None None false false None]);
   ("gravecomb",
    [NamedAnchor.mk "_top" 5%Q 0%Q true "top" None None false false None])].



Definition MC_example (name glyph : string) : MarkClass.t :=
  let d := MarkClassDefinition.mk name (Anchor.make 0 0) glyph in
  MarkClass.mk name [d] [(glyph, d)].

Definition base_anchor_example (name key : string) (mc : MarkClass.t)
  : NamedAnchor.t :=
  NamedAnchor.mk name 100%Q 500%Q false key None (Some mc) false false None.

(** A registry after a coordinate conflict on key "top": the class of "top"
    is the split class [MC_top_1], the class of "top.alt" is [MC_top.alt]. *)
Definition split_registry : sdict MarkClass.t :=
  [("top.alt", MC_example "MC_top.alt" "gravecomb");
   ("top", MC_example "MC_top_1" "acutecomb")].

Definition split_attachments : list Attachment :=
  [MarkToBasePos "a"
     [base_anchor_example "top" "top" (MC_example "MC_top_1" "acutecomb");
      base_anchor_example "top.alt" "top.alt"
                          (MC_example "MC_top.alt" "gravecomb")]].

Definition variant_registry : sdict MarkClass.t :=
  [("top.alt", MC_example "MC_top.alt" "gravecomb");
   ("top", MC_example "MC_top" "acutecomb")].

Definition variant_attachments : list Attachment :=
  [MarkToBasePos "a"
     [base_anchor_example "top" "top" (MC_example "MC_top" "acutecomb");
      base_anchor_example "top.alt" "top.alt"
                          (MC_example "MC_top.alt" "gravecomb")]].

(** *** Further predicates *)

(** The greatest number of neighbours listed for a vertex. *)
Definition max_degree (adjacency : sdict (list string)) : nat :=
  list_max (map (fun item => length (snd item)) adjacency).

(** Two adjacency dicts describe the same graph: a vertex is a key of both
    or of none, and its two neighbour lists have the same members. *)
Definition same_graph (adjacency adjacency' : sdict (list string)) : Prop :=
  forall v,
    match sget adjacency v, sget adjacency' v with
    | Some nv, Some nv' => forall u, In u nv <-> In u nv'
    | None, None => True
    | _, _ => False
    end.

(** Every character of a string passes a test. *)
Fixpoint string_forallb (f : ascii -> bool) (s : string) : bool :=
  match s with
  | EmptyString => true
  | String c s' => f c && string_forallb f s'
  end.

(** A non-empty string of ASCII digits. *)
Definition digits (ds : string) : bool :=
  PyStr.truthy ds && string_forallb PyStr.isdigit ds.

(** A string without a newline. *)
Definition no_newline (s : string) : bool :=
  string_forallb (fun c => negb (Ascii.eqb c PyStr.newline)) s.

(** Every anchor of every glyph, in the order the loops visit them. *)
Definition all_anchors (anchorLists : sdict (list NamedAnchor.t))
  : list NamedAnchor.t :=
  concat (Dict.values anchorLists).

(** Anchors of one name have one key. *)
Definition name_determines_key (anchors : list NamedAnchor.t) : Prop :=
  forall a b, In a anchors -> In b anchors ->
    NamedAnchor.name a = NamedAnchor.name b ->
    NamedAnchor.key a = NamedAnchor.key b.

(** The anchor is named in the pairs, on either side. *)
Definition attaches (anchorPairs : sdict string) (anchor : NamedAnchor.t) : Prop :=
  In (NamedAnchor.name anchor) (Dict.keys anchorPairs)
  \/ In (NamedAnchor.name anchor) (Dict.values anchorPairs).

(** A plain anchor record for a name and a key. *)
Definition plain_anchor (name : string) (isMark : bool) (key : string)
  : NamedAnchor.t :=
  NamedAnchor.mk name 0%Q 0%Q isMark key None None false false None.

(** A base glyph with an attaching and a stray anchor, and a mark glyph. *)
Definition stray_anchorLists : sdict (list NamedAnchor.t) :=
  [("a", [plain_anchor "top" false "top"; plain_anchor "ogonek" false "ogonek"]);
   ("acutecomb", [plain_anchor "_top" true "top"]);
   ("space", [plain_anchor "origin" false "origin"])].

(** The glyph an attachment is for. *)
Definition attachment_name (pos : Attachment) : string :=
  match pos with
  | MarkToBasePos name _ | MarkToMarkPos name _ | MarkToLigaPos name _ => name
  end.

(** No anchor has a mark class yet, as [_getAnchorLists] builds them. *)
Definition no_markClass (anchorLists : sdict (list NamedAnchor.t)) : Prop :=
  forall g l a, In (g, l) anchorLists -> In a l ->
    NamedAnchor.markClass a = None.

(** The glyph passes the GDEF class filter of a maker. *)
Definition in_gdef_class (class : option (list string)) (glyphName : string)
  : Prop :=
  forall glyphs, class = Some glyphs -> In glyphName glyphs.

(** Mark classes for the keys "top" and "bottom". *)
Definition top_bottom_markClasses : sdict MarkClass.t :=
  [("top", MC_glyphs_example "MC_top" ["acutecomb"]);
   ("bottom", MC_glyphs_example "MC_bottom" ["dotbelowcomb"])].

(** The anchor is what [NamedAnchor.__init__] builds for its name, without
    a mark class. *)
Definition built (a : NamedAnchor.t) : Prop :=
  exists x y libData,
    NamedAnchor.__init__ (NamedAnchor.name a) x y None libData = Ok a.

(** What holds of the anchor lists that [_getAnchorLists] returns. *)
Definition anchorLists_invariant (anchorLists : sdict (list NamedAnchor.t))
  : Prop :=
  NoDup (Dict.keys anchorLists)
  /\ forall g l, In (g, l) anchorLists ->
       l <> [] /\ NoDup (map NamedAnchor.name l)
       /\ forall a, In a l -> built a /\ NamedAnchor.isIgnorable a = false.

(** A ligature with two numbered anchors, a base glyph and a mark glyph. *)
Definition ligature_glyphSet : list (string * Glyph.t) :=
  [("f_i", Glyph.mk [UFOAnchor.mk (Some "top_1") 100%Q 500%Q None;
                     UFOAnchor.mk (Some "top_2") 300%Q 500%Q None] None);
   ("a", Glyph.mk [UFOAnchor.mk (Some "top") 120%Q 520%Q None] None);
   ("acutecomb", Glyph.mk [UFOAnchor.mk (Some "_top") 0%Q 500%Q None] None)].

(** The dict of mark-to-mark attachments holds [pos] under the key [k]. *)
Definition mkmk_holds (results : sdict (list Attachment)) (k : string)
    (pos : Attachment) : Prop :=
  exists l, sget results k = Some l /\ In pos l.

(** The anchors of a mark glyph that get a mark-to-mark attachment, and
    those that are reported as invalid ligature anchors. *)
Definition mkmk_attached (a : NamedAnchor.t) : bool :=
  negb (is_none (NamedAnchor.markClass a) || NamedAnchor.isMark a)
  && negb (NamedAnchor.isContextual a)
  && is_none (NamedAnchor.number a).

Definition mkmk_warned (a : NamedAnchor.t) : bool :=
  negb (is_none (NamedAnchor.markClass a) || NamedAnchor.isMark a)
  && negb (NamedAnchor.isContextual a)
  && negb (is_none (NamedAnchor.number a)).

(** A mark glyph with a stacking anchor, a stray numbered one and its own
    mark anchor. *)
Definition stacking_anchorLists : sdict (list NamedAnchor.t) :=
  [("acutecomb",
    [NamedAnchor.mk "top" 0%Q 700%Q false "top" None
       (Some (MC_glyphs_example "MC_top" ["acutecomb"])) false false None;
     NamedAnchor.mk "top_1" 0%Q 700%Q false "top" (Some 1)
       (Some (MC_glyphs_example "MC_top" ["acutecomb"])) false false None;
     plain_anchor "_top" true "top"])].

(** A ligature with two numbered anchors and a mark glyph. *)
Definition ligature_anchorLists : sdict (list NamedAnchor.t) :=
  [("f_i",
    [NamedAnchor.mk "top_1" 0%Q 0%Q false "top" (Some 1) None false false None;
     NamedAnchor.mk "top_2" 0%Q 0%Q false "top" (Some 2) None false false None]);
   ("acutecomb", [plain_anchor "_top" true "top"])].

(** In the groups of mark glyphs, the anchor [a] is recorded for the glyph
    [g] under the mark anchor name [n]. *)
Definition group_entry (groups : sdict (sdict NamedAnchor.t)) (n g : string)
    (a : NamedAnchor.t) : Prop :=
  exists group, sget groups n = Some group /\ sget group g = Some a.

(** The rank that the final sort of [_groupMarkClasses] gives a group: 2
    with the class of "_bottom", else 1 with the class of "_top", else 0. *)
Definition group_rank (group : list string) : Z :=
  if str_in "MC_bottom" group then 2%Z
  else if str_in "MC_top" group then 1%Z
  else 0%Z.

(** What [anchorSortKey] gives a class name once its prefix is removed. *)
Definition class_sort_key (markClass : string) : Z :=
  if String.eqb "MC_bottom" markClass then (-2)%Z
  else if String.eqb "MC_top" markClass then (-1)%Z
  else 0%Z.

(** Mark glyphs and their classes: "acutecomb" is in two classes. *)
Definition conflicting_classes : sdict (list string) :=
  [("acutecomb", ["MC_bottom"; "MC_top"]);
   ("ringcomb", ["MC_ring"]);
   ("dotbelowcomb", ["MC_bottom"])].

(** The anchor has a mark class named in [markClasses]. *)
Definition in_classes (markClasses : list string) (a : NamedAnchor.t) : bool :=
  match NamedAnchor.markClass a with
  | Some mc => str_in (MarkClass.name mc) markClasses
  | None => false
  end.

(** An attachment with its anchors restricted to those that pass [p]; the
    components of a ligature keep their positions. *)
Definition restrict (p : NamedAnchor.t -> bool) (pos : Attachment) : Attachment :=
  match pos with
  | MarkToBasePos name marks => MarkToBasePos name (filter p marks)
  | MarkToMarkPos name marks => MarkToMarkPos name (filter p marks)
  | MarkToLigaPos name marks => MarkToLigaPos name (map (filter p) marks)
  end.

(** A parse result with the contextual flag set. *)
Definition as_contextual (r : result ParsedName) : result ParsedName :=
  match r with
  | Ok (isMark, key, number, _, isIgnorable) =>
      Ok (isMark, key, number, true, isIgnorable)
  | Raise e => Raise e
  end.


(** The steps from the glyphs to the mark-to-ligature attachments, in the
    order of [setContext] and [_write], without a GDEF table and with the
    mark classes given: [_getAnchorLists], [_getAnchorPairs],
    [_pruneUnusedAnchors], [_groupMarkGlyphsByAnchor],
    [_setBaseAnchorMarkClasses], [_makeMarkToLigaAttachments]. *)
Definition ligature_attachments_of (glyphSet : list (string * Glyph.t))
    (markClasses : sdict MarkClass.t) : result (list Attachment) :=
  '(anchorLists, _) <-
    _getAnchorLists plain_getAnchor (GDEFClasses.mk None None None) glyphSet ;;
  let anchorPairs := _getAnchorPairs anchorLists in
  let pruned := _pruneUnusedAnchors anchorPairs anchorLists in
  '(_, markGlyphNames) <- _groupMarkGlyphsByAnchor None anchorPairs pruned ;;
  _makeMarkToLigaAttachments markGlyphNames None
    (_setBaseAnchorMarkClasses markClasses pruned).

(** The ligature "f_i" with the null anchor "_1" and the anchor "top_1" on
    its first component, in the two orders, and the mark "tildecomb". *)
Definition null_first_glyphSet : list (string * Glyph.t) :=
  [("f_i", Glyph.mk [UFOAnchor.mk (Some "_1") 0%Q 0%Q None;
                     UFOAnchor.mk (Some "top_1") 50%Q 500%Q None] None);
   ("tildecomb", Glyph.mk [UFOAnchor.mk (Some "_top") 0%Q 0%Q None] None)].

Definition null_last_glyphSet : list (string * Glyph.t) :=
  [("f_i", Glyph.mk [UFOAnchor.mk (Some "top_1") 50%Q 500%Q None;
                     UFOAnchor.mk (Some "_1") 0%Q 0%Q None] None);
   ("tildecomb", Glyph.mk [UFOAnchor.mk (Some "_top") 0%Q 0%Q None] None)].

Definition tilde_markClasses : sdict MarkClass.t :=
  [("top", MC_glyphs_example "MC_top" ["tildecomb"])].

(** The glyph of the attachment passes the glyph filter of
    [_iterAttachments], when there is one. *)
Definition included (include : option (string -> bool)) (pos : Attachment)
  : bool :=
  match include with
  | Some include => include (attachment_name pos)
  | None => true
  end.

(** The attachment carries an anchor. *)
Definition has_anchors (pos : Attachment) : bool :=
  nonempty (attachment_anchors pos).

(** The attachments restricted to the anchors whose mark class is named in
    [group], without those left with no anchor. *)
Definition restricted_lookup (group : list string)
    (attachments : list Attachment) : list Attachment :=
  filter has_anchors (map (restrict (in_classes group)) attachments).

(** * Verification *)


(** ** Facts on the error monad *)

Lemma bind_Ok {A B : Type} (r : result A) (k : A -> result B) (b : B) :
  bind r k = Ok b -> exists a, r = Ok a /\ k a = Ok b.
Proof. destruct r; simpl; intros H; [eauto | discriminate]. Qed.

Tactic Notation "inv_bind" hyp(H) "as" simple_intropattern(x) ident(Hx) :=
  apply bind_Ok in H; destruct H as [x [Hx H]].

Lemma mapM_Ok_length {A B : Type} (f : A -> result B) (l : list A) (bs : list B) :
  mapM f l = Ok bs -> length bs = length l.
Proof.
  revert bs; induction l as [|a l IH]; simpl; intros bs H.
  - injection H as <-. reflexivity.
  - inv_bind H as b Hb. inv_bind H as bs' Hbs. injection H as <-. simpl. f_equal. auto.
Qed.

Lemma mapM_total {A B : Type} (f : A -> result B) (l : list A) :
  (forall a, In a l -> exists b, f a = Ok b) -> exists bs, mapM f l = Ok bs.
Proof.
  induction l as [|a l IH]; simpl; intros H.
  - eauto.
  - destruct (H a (or_introl eq_refl)) as [b ->].
    destruct IH as [bs ->]; [auto|]. simpl. eauto.
Qed.

(** ** Facts on dictionaries *)

Section DictFacts.
Variables K V : Type.
Variable eqb : K -> K -> bool.
Hypothesis eqb_spec : forall a b, reflect (a = b) (eqb a b).

Local Abbreviation get := (Dict.get eqb).
Local Abbreviation set := (Dict.set eqb).

Lemma get_None (d : Dict.t K V) k : get d k = None <-> ~ In k (Dict.keys d).
Proof.
  induction d as [|[k' v'] d IH]; simpl.
  - tauto.
  - destruct (eqb_spec k k') as [->|Hne].
    + split; [discriminate | intros H; exfalso; apply H; auto].
    + rewrite IH. split; [intros H [E|I]; [congruence | tauto] | tauto].
Qed.

Lemma get_Some_In (d : Dict.t K V) k v : get d k = Some v -> In (k, v) d.
Proof.
  induction d as [|[k' v'] d IH]; simpl; [discriminate|].
  destruct (eqb_spec k k') as [->|Hne].
  - intros [= ->]. auto.
  - auto.
Qed.

Lemma In_get (d : Dict.t K V) k v :
  NoDup (Dict.keys d) -> In (k, v) d -> get d k = Some v.
Proof.
  induction d as [|[k' v'] d IH]; simpl; [tauto|].
  intros Hnd [E|I].
  - injection E as -> ->. destruct (eqb_spec k k); congruence.
  - inversion Hnd as [|? ? Hni Hnd']; subst.
    destruct (eqb_spec k k') as [->|Hne]; [|auto].
    exfalso. apply Hni. change k' with (fst (k', v)). apply in_map, I.
Qed.

Lemma In_keys_get (d : Dict.t K V) k :
  In k (Dict.keys d) -> exists v, get d k = Some v.
Proof.
  intros H. destruct (get d k) eqn:E; [eauto|].
  apply get_None in E. tauto.
Qed.

Lemma get_set_same (d : Dict.t K V) k v : get (set d k v) k = Some v.
Proof.
  induction d as [|[k' v'] d IH]; simpl.
  - destruct (eqb_spec k k); congruence.
  - destruct (eqb_spec k k') as [->|Hne]; simpl.
    + destruct (eqb_spec k' k'); congruence.
    + destruct (eqb_spec k k'); congruence.
Qed.

Lemma get_set_other (d : Dict.t K V) k v k' :
  k' <> k -> get (set d k v) k' = get d k'.
Proof.
  intros Hne. induction d as [|[k0 v0] d IH]; simpl.
  - destruct (eqb_spec k' k); congruence.
  - destruct (eqb_spec k k0) as [->|Hne0]; simpl.
    + destruct (eqb_spec k' k0); congruence.
    + destruct (eqb_spec k' k0); congruence.
Qed.

Lemma set_new (d : Dict.t K V) k v : get d k = None -> set d k v = d ++ [(k, v)].
Proof.
  induction d as [|[k' v'] d IH]; simpl; [reflexivity|].
  destruct (eqb_spec k k'); [discriminate|]. intros H. f_equal. auto.
Qed.

Lemma keys_set_old (d : Dict.t K V) k v v0 :
  get d k = Some v0 -> Dict.keys (set d k v) = Dict.keys d.
Proof.
  induction d as [|[k' v'] d IH]; simpl; [discriminate|].
  destruct (eqb_spec k k'); simpl; [reflexivity|].
  intros H. f_equal. auto.
Qed.

Lemma In_set (d : Dict.t K V) k v k' v' :
  In (k', v') (set d k v) -> (k' = k /\ v' = v) \/ In (k', v') d.
Proof.
  induction d as [|[k0 v0] d IH]; simpl.
  - intros [[= <- <-]|[]]. auto.
  - destruct (eqb_spec k k0) as [->|Hne]; simpl.
    + intros [[= <- <-]|I]; auto.
    + intros [E|I]; auto. destruct (IH I); auto.
Qed.

Lemma NoDup_keys_set (d : Dict.t K V) k v :
  NoDup (Dict.keys d) -> NoDup (Dict.keys (set d k v)).
Proof.
  intros Hnd. destruct (get d k) eqn:E.
  - erewrite keys_set_old; eauto.
  - rewrite set_new by assumption. unfold Dict.keys. rewrite map_app. simpl.
    apply get_None in E.
    apply NoDup_app; [assumption | repeat constructor; simpl; tauto |].
    intros x Hx [<-|[]]. exact (E Hx).
Qed.

End DictFacts.

(** The dictionary facts at the two key types in use. *)
Abbreviation sget_None := (get_None string _ String.eqb String.eqb_spec).
Abbreviation sget_Some_In := (get_Some_In string _ String.eqb String.eqb_spec).
Abbreviation sIn_get := (In_get string _ String.eqb String.eqb_spec).
Abbreviation sIn_keys_get := (In_keys_get string _ String.eqb String.eqb_spec).
Abbreviation sget_set_same := (get_set_same string _ String.eqb String.eqb_spec).
Abbreviation sget_set_other := (get_set_other string _ String.eqb String.eqb_spec).
Abbreviation sset_new := (set_new string _ String.eqb String.eqb_spec).
Abbreviation skeys_set_old := (keys_set_old string _ String.eqb String.eqb_spec).
Abbreviation sIn_set := (In_set string _ String.eqb String.eqb_spec).
Abbreviation sNoDup_keys_set := (NoDup_keys_set string _ String.eqb String.eqb_spec).

Abbreviation nget_None := (get_None nat _ Nat.eqb Nat.eqb_spec).
Abbreviation nget_Some_In := (get_Some_In nat _ Nat.eqb Nat.eqb_spec).
Abbreviation nIn_get := (In_get nat _ Nat.eqb Nat.eqb_spec).
Abbreviation nIn_keys_get := (In_keys_get nat _ Nat.eqb Nat.eqb_spec).
Abbreviation nget_set_same := (get_set_same nat _ Nat.eqb Nat.eqb_spec).
Abbreviation nget_set_other := (get_set_other nat _ Nat.eqb Nat.eqb_spec).
Abbreviation nset_new := (set_new nat _ Nat.eqb Nat.eqb_spec).
Abbreviation nkeys_set_old := (keys_set_old nat _ Nat.eqb Nat.eqb_spec).
Abbreviation nIn_set := (In_set nat _ Nat.eqb Nat.eqb_spec).
Abbreviation nNoDup_keys_set := (NoDup_keys_set nat _ Nat.eqb Nat.eqb_spec).

Lemma set_set_same {K V : Type} (eqb : K -> K -> bool)
    (eqb_spec : forall a b, reflect (a = b) (eqb a b))
    (d : Dict.t K V) k v v' :
  Dict.set eqb (Dict.set eqb d k v) k v' = Dict.set eqb d k v'.
Proof.
  induction d as [|[k0 v0] d IH]; simpl.
  - destruct (eqb_spec k k); [reflexivity | congruence].
  - destruct (eqb_spec k k0) as [->|Hne]; simpl.
    + destruct (eqb_spec k0 k0); [reflexivity | congruence].
    + destruct (eqb_spec k k0); [congruence|]. f_equal. exact IH.
Qed.

Abbreviation sset_set_same := (set_set_same String.eqb String.eqb_spec).

(** ** The anchor name parser *)



Lemma parseAnchorName_inv anchorName markPrefix ligaSeparator ligaNumRE
    ignoreRE libData isMark key number isContextual isIgnorable :
  parseAnchorName anchorName markPrefix ligaSeparator ligaNumRE ignoreRE libData
  = Ok (isMark, key, number, isContextual, isIgnorable) ->
  (isMark = true -> number = None /\ key <> EmptyString)
  /\ isIgnorable = isIgnorable_of key.
Proof.
  unfold parseAnchorName.
  destruct (match ignoreRE with Some sub => sub anchorName | None => anchorName end)
    as [|c0 rest0]; [discriminate|].
  destruct (if (c0 =? "*")%char && hasContext libData then _ else _) as [ctx nm].
  intros H.
  apply bind_Ok in H. destruct H as [[key1 number1] [H1 H]].
  apply bind_Ok in H. destruct H as [[isMark2 key2] [H2 H]].
  injection H as -> -> -> -> <-.
  split; [|reflexivity].
  intros ->.
  destruct (PyStr.startswith nm markPrefix && PyStr.truthy key1); [|discriminate].
  destruct number; [discriminate|].
  destruct (PyStr.truthy (PyStr.drop _ key1)) eqn:E; [|discriminate].
  injection H2 as <-. split; [reflexivity|].
  intros Hk. rewrite Hk in E. discriminate.
Qed.

(** C1.  With the default prefix, separator and number pattern, and
    whatever the lib payload: "top_1" parses to a non-mark anchor with key
    "top" and component 1; "_top" to a mark anchor with key "top" and no
    component number; "_top_1" and "_bottom_2" raise the error of a
    numbered mark anchor. *)
Theorem parseAnchorName_reference_inputs (libData : option LibData) :
  parseAnchorName "top_1" MARK_PREFIX LIGA_SEPARATOR PyStr.LIGA_NUM_RE_match
                  None libData
  = Ok (false, "top", Some 1, false, false)
  /\ parseAnchorName "_top" MARK_PREFIX LIGA_SEPARATOR PyStr.LIGA_NUM_RE_match
                     None libData
     = Ok (true, "top", None, false, false)
  /\ parseAnchorName "_top_1" MARK_PREFIX LIGA_SEPARATOR PyStr.LIGA_NUM_RE_match
                     None libData
     = Raise (ValueError_mark_numbered "_top_1")
  /\ parseAnchorName "_bottom_2" MARK_PREFIX LIGA_SEPARATOR
                     PyStr.LIGA_NUM_RE_match None libData
     = Raise (ValueError_mark_numbered "_bottom_2").
Proof. repeat split; reflexivity. Qed.

(** C9, as stated, fails: "_3" parses without error to a non-mark anchor
    with an empty key and component 3 whose [isIgnorable] is false, although
    the key is empty. *)
Lemma parseAnchorName_null_anchor_not_ignorable :
  parseAnchorName "_3" MARK_PREFIX LIGA_SEPARATOR PyStr.LIGA_NUM_RE_match
                  None None
  = Ok (false, "", Some 3, false, false)
  /\ isIgnorable_as_specified "" = true.
Proof. split; reflexivity. Qed.

(** C9, amended.  Whatever the arguments, the [isIgnorable] that
    [parseAnchorName] returns is true exactly when the returned key is not
    empty and its first character is not alphabetic.  With the defaults,
    "_3" parses to a non-mark anchor with empty key, component 3, not
    ignorable; the error of an empty mark key is the one raised for the
    bare prefix "_". *)
Theorem parseAnchorName_isIgnorable anchorName markPrefix ligaSeparator
    ligaNumRE ignoreRE libData isMark key number isContextual isIgnorable :
  parseAnchorName anchorName markPrefix ligaSeparator ligaNumRE ignoreRE libData
  = Ok (isMark, key, number, isContextual, isIgnorable) ->
  (isIgnorable = true <->
   exists c rest, key = String c rest /\ PyStr.isalpha c = false)
  /\ parseAnchorName "_3" MARK_PREFIX LIGA_SEPARATOR PyStr.LIGA_NUM_RE_match
                     None libData
     = Ok (false, "", Some 3, false, false)
  /\ parseAnchorName "_" MARK_PREFIX LIGA_SEPARATOR PyStr.LIGA_NUM_RE_match
                     None libData
     = Raise (ValueError_mark_key_nil "_").
Proof.
  intros H. apply parseAnchorName_inv in H. destruct H as [_ ->].
  split; [|split; reflexivity].
  destruct key as [|c rest]; simpl.
  - split; [discriminate | intros [c [rest [E _]]]; discriminate].
  - split.
    + intros E. exists c, rest. split; [reflexivity|].
      destruct (PyStr.isalpha c); [discriminate | reflexivity].
    + intros [c' [rest' [E Ha]]]. injection E as <- <-. rewrite Ha. reflexivity.
Qed.

Lemma parseAnchorName_isIgnorable_witness :
  (true = true <->
   exists c rest, "1top" = String c rest /\ PyStr.isalpha c = false)
  /\ parseAnchorName "_3" MARK_PREFIX LIGA_SEPARATOR PyStr.LIGA_NUM_RE_match
                     None None
     = Ok (false, "", Some 3, false, false)
  /\ parseAnchorName "_" MARK_PREFIX LIGA_SEPARATOR PyStr.LIGA_NUM_RE_match
                     None None
     = Raise (ValueError_mark_key_nil "_").
Proof.
  apply (parseAnchorName_isIgnorable "1top" MARK_PREFIX LIGA_SEPARATOR
           PyStr.LIGA_NUM_RE_match None None false "1top" None false true).
  reflexivity.
Defined.

(** ** NamedAnchor *)

(** C10, as stated, fails: the anchor built from the name "_3" has an empty
    key and is not ignorable. *)
Lemma NamedAnchor_null_anchor_empty_key :
  exists a,
    NamedAnchor.__init__ "_3" 0%Q 0%Q None None = Ok a
    /\ NamedAnchor.key a = ""
    /\ NamedAnchor.isIgnorable a = false.
Proof. eexists. split; [reflexivity|]. split; reflexivity. Qed.

(** C10, amended.  Every anchor that [NamedAnchor.__init__] builds has a
    component number of at least 1 when it has one, has none when it is a
    mark anchor, and has a non-empty key unless it carries a component
    number (the null anchor of a ligature component); an ignorable anchor
    has a non-empty key. *)
Theorem NamedAnchor_invariant name x y markClass libData a :
  NamedAnchor.__init__ name x y markClass libData = Ok a ->
  (forall n, NamedAnchor.number a = Some n -> 1 <= n)
  /\ (NamedAnchor.isMark a = true -> NamedAnchor.number a = None)
  /\ (NamedAnchor.key a = "" ->
      NamedAnchor.number a <> None /\ NamedAnchor.isMark a = false)
  /\ (NamedAnchor.isIgnorable a = true -> NamedAnchor.key a <> "").
Proof.
  unfold NamedAnchor.__init__. intros H.
  apply bind_Ok in H. destruct H as [[[[[isMark key] number] ctx] ign] [Hp H]].
  apply parseAnchorName_inv in Hp. destruct Hp as [Hmark ->].
  apply bind_Ok in H. destruct H as [[] [Hchk H]].
  injection H as <-. simpl.
  split; [|split; [|split]].
  - intros n ->. destruct (Nat.ltb_spec n 1); [discriminate | assumption].
  - intros Hm. apply Hmark. assumption.
  - intros ->. split.
    + destruct number; [discriminate | discriminate Hchk].
    + destruct isMark; [|reflexivity]. destruct (Hmark eq_refl) as [_ Hk]. congruence.
  - destruct key; [discriminate | discriminate].
Qed.

Lemma NamedAnchor_invariant_witness :
  exists a,
    NamedAnchor.__init__ "top_2" 0%Q 0%Q None None = Ok a
    /\ (forall n, NamedAnchor.number a = Some n -> 1 <= n)
    /\ (NamedAnchor.isMark a = true -> NamedAnchor.number a = None).
Proof.
  eexists. split; [reflexivity|].
  pose proof (NamedAnchor_invariant "top_2" 0%Q 0%Q None None _ eq_refl) as H.
  split; apply H.
Defined.

(** A component number below 1 makes the construction fail. *)
Example NamedAnchor_component_zero :
  NamedAnchor.__init__ "top_0" 0%Q 0%Q None None
  = Raise ValueError_component_index.
Proof. reflexivity. Qed.

(** ** Facts on [sorted] *)

Lemma insert_sorted_perm {A : Type} (leb : A -> A -> bool) (a : A) (l : list A) :
  Permutation (insert_sorted leb a l) (a :: l).
Proof.
  induction l as [|b l IH]; simpl.
  - reflexivity.
  - destruct (leb a b); [reflexivity|].
    rewrite IH. apply perm_swap.
Qed.

Lemma sorted_perm {A : Type} (leb : A -> A -> bool) (l : list A) :
  Permutation (sorted leb l) l.
Proof.
  induction l as [|a l IH]; simpl.
  - reflexivity.
  - rewrite insert_sorted_perm. constructor. exact IH.
Qed.

Lemma sorted_In {A : Type} (leb : A -> A -> bool) (l : list A) (a : A) :
  In a (sorted leb l) <-> In a l.
Proof.
  split; apply Permutation_in; [|symmetry]; apply sorted_perm.
Qed.

(** ** [firstAvailable] returns, and returns the least free colour *)

Lemma existsb_eqb_In (c : nat) (l : list nat) :
  existsb (Nat.eqb c) l = true <-> In c l.
Proof.
  rewrite existsb_exists. split.
  - intros [x [Hx E]]. apply Nat.eqb_eq in E. congruence.
  - intros H. exists c. split; [assumption | apply Nat.eqb_refl].
Qed.

Lemma firstAvailable_loop_spec (colorSet : list nat) (fuel count : nat) :
  (forall c, c < count -> In c colorSet) ->
  fuel + count = S (length colorSet) ->
  exists c, firstAvailable_loop fuel colorSet count = Ok c
            /\ ~ In c colorSet
            /\ forall c', c' < c -> In c' colorSet.
Proof.
  revert count. induction fuel as [|fuel IH]; intros count Hbelow Hfuel.
  - exfalso.
    assert (Hincl : incl (seq 0 count) colorSet).
    { intros c Hc. apply in_seq in Hc. apply Hbelow. lia. }
    apply NoDup_incl_length in Hincl; [|apply seq_NoDup].
    rewrite length_seq in Hincl. simpl in Hfuel. lia.
  - simpl. destruct (existsb (Nat.eqb count) colorSet) eqn:E; simpl.
    + apply existsb_eqb_In in E.
      apply IH; [|lia].
      intros c Hc. destruct (Nat.eq_dec c count) as [->|Hne]; [assumption|].
      apply Hbelow. lia.
    + exists count. split; [reflexivity|]. split; [|assumption].
      intros Hin. apply existsb_eqb_In in Hin. congruence.
Qed.

Lemma firstAvailable_spec (colorSet : list nat) :
  exists c, firstAvailable colorSet = Ok c
            /\ ~ In c colorSet
            /\ forall c', c' < c -> In c' colorSet.
Proof.
  apply firstAvailable_loop_spec; [intros c Hc; lia | lia].
Qed.

(** ** The colouring loop keeps the colouring proper *)


Lemma usedNeighbourColors_In (colors : sdict nat) (neighbours : list string) (c : nat) :
  In c (usedNeighbourColors colors neighbours) <->
  exists v, In v neighbours /\ sget colors v = Some c.
Proof.
  unfold usedNeighbourColors. rewrite in_flat_map. split.
  - intros [v [Hv Hc]]. exists v. split; [assumption|].
    destruct (sget colors v); simpl in Hc; [|tauto].
    destruct Hc as [->|[]]. reflexivity.
  - intros [v [Hv Hc]]. exists v. split; [assumption|].
    rewrite Hc. simpl. auto.
Qed.



Lemma colorGraph_colors_spec (adjacency : sdict (list string)) :
  symmetric adjacency ->
  forall nodes colors,
    NoDup nodes ->
    (forall n, In n nodes -> sget colors n = None) ->
    (forall n, In n nodes -> In n (Dict.keys adjacency)) ->
    proper adjacency colors ->
    exists colors',
      colorGraph_colors adjacency nodes colors = Ok colors'
      /\ Dict.keys colors' = Dict.keys colors ++ nodes
      /\ proper adjacency colors'.
Proof.
  intros Hsym nodes. induction nodes as [|node nodes IH]; intros colors Hnd Hnew Hkey Hprop.
  - exists colors. simpl. rewrite app_nil_r. auto.
  - simpl.
    destruct (sIn_keys_get adjacency node) as [nb Hnb]; [apply Hkey; simpl; auto|].
    unfold Dict.item. rewrite Hnb. simpl.
    destruct (firstAvailable_spec (usedNeighbourColors colors nb)) as [c [-> [Hfree _]]].
    simpl.
    inversion Hnd as [|? ? Hni Hnd']; subst.
    destruct (IH (sset colors node c)) as [colors' [Hrun [Hkeys Hprop']]].
    + assumption.
    + intros n Hn. rewrite sget_set_other; [apply Hnew; simpl; auto|].
      intros ->. contradiction.
    + intros n Hn. apply Hkey. simpl. auto.
    + intros u v cu cv nu Hu Hv Hne Hadj Hin.
      destruct (String.eqb_spec u node) as [->|Hun];
        destruct (String.eqb_spec v node) as [->|Hvn].
      * congruence.
      * rewrite sget_set_same in Hu. injection Hu as <-.
        rewrite sget_set_other in Hv by assumption.
        intros ->. apply Hfree. apply usedNeighbourColors_In.
        exists v. split; [congruence | assumption].
      * rewrite sget_set_same in Hv. injection Hv as <-.
        rewrite sget_set_other in Hu by assumption.
        intros <-. apply Hfree. apply usedNeighbourColors_In.
        exists u. split; [|assumption].
        eapply Hsym; eauto.
      * rewrite sget_set_other in Hu, Hv by assumption.
        eapply Hprop; eauto.
    + exists colors'. split; [assumption|]. split; [|assumption].
      rewrite Hkeys. rewrite sset_new by (apply Hnew; simpl; auto).
      unfold Dict.keys. rewrite map_app. simpl. rewrite <- app_assoc. reflexivity.
Qed.

(** ** The grouping loop partitions the coloured vertices *)

Lemma concat_values_set_old (groups : Dict.t nat (list string)) c g x :
  Dict.get Nat.eqb groups c = Some g ->
  Permutation (concat (Dict.values (Dict.set Nat.eqb groups c (g ++ [x]))))
              (concat (Dict.values groups) ++ [x]).
Proof.
  induction groups as [|[c0 g0] groups IH]; simpl; [discriminate|].
  destruct (Nat.eqb_spec c c0) as [->|Hne]; simpl.
  - intros [= ->]. rewrite <- !app_assoc.
    apply Permutation_app_head, Permutation_app_comm.
  - intros H. rewrite <- app_assoc. apply Permutation_app_head. auto.
Qed.

Lemma groups_append_perm (groups : Dict.t nat (list string)) c x :
  Permutation (concat (Dict.values (groups_append groups c x)))
              (concat (Dict.values groups) ++ [x]).
Proof.
  unfold groups_append. destruct (Dict.get Nat.eqb groups c) eqn:E.
  - apply concat_values_set_old. assumption.
  - rewrite nset_new by assumption. unfold Dict.values.
    rewrite map_app, concat_app. simpl. reflexivity.
Qed.

Lemma groups_append_In (groups : Dict.t nat (list string)) c x c' g' :
  NoDup (Dict.keys groups) ->
  In (c', g') (groups_append groups c x) ->
  forall v, In v g' -> (v = x /\ c' = c) \/ exists g0, In (c', g0) groups /\ In v g0.
Proof.
  unfold groups_append. intros Hnd Hin v Hv.
  destruct (Dict.get Nat.eqb groups c) as [g|] eqn:E.
  - apply nIn_set in Hin. destruct Hin as [[-> ->]|Hin].
    + apply in_app_or in Hv. destruct Hv as [Hv|[<-|[]]]; [|auto].
      right. exists g. split; [apply nget_Some_In|]; assumption.
    + right. eauto.
  - apply nIn_set in Hin. destruct Hin as [[-> ->]|Hin].
    + destruct Hv as [<-|[]]. auto.
    + right. eauto.
Qed.

Lemma groups_append_NoDup (groups : Dict.t nat (list string)) c x :
  NoDup (Dict.keys groups) -> NoDup (Dict.keys (groups_append groups c x)).
Proof.
  unfold groups_append. intros H.
  destruct (Dict.get Nat.eqb groups c); apply nNoDup_keys_set; assumption.
Qed.

Lemma groups_append_nonempty (groups : Dict.t nat (list string)) c x :
  Forall (fun g => g <> []) (Dict.values groups) ->
  Forall (fun g => g <> []) (Dict.values (groups_append groups c x)).
Proof.
  unfold groups_append. intros H. rewrite Forall_forall in *.
  intros g Hg. apply in_map_iff in Hg. destruct Hg as [[c' g'] [<- Hin]]. simpl.
  destruct (Dict.get Nat.eqb groups c) as [g0|];
    apply nIn_set in Hin; destruct Hin as [[-> ->]|Hin].
  - destruct g0; discriminate.
  - apply H. apply in_map_iff. exists (c', g'). auto.
  - discriminate.
  - apply H. apply in_map_iff. exists (c', g'). auto.
Qed.

Lemma colorGraph_groups_spec (items : list (string * nat)) :
  forall groups,
    NoDup (Dict.keys groups) ->
    Forall (fun g => g <> []) (Dict.values groups) ->
    let groups' := colorGraph_groups items groups in
    NoDup (Dict.keys groups')
    /\ Forall (fun g => g <> []) (Dict.values groups')
    /\ Permutation (concat (Dict.values groups'))
                   (concat (Dict.values groups) ++ map fst items)
    /\ forall c g v, In (c, g) groups' -> In v g ->
         In (v, c) items \/ exists g0, In (c, g0) groups /\ In v g0.
Proof.
  induction items as [|[node color] items IH]; intros groups Hnd Hne; simpl.
  - rewrite app_nil_r. repeat split; auto. intros c g v Hin Hv. right. eauto.
  - destruct (IH (groups_append groups color node)) as [H1 [H2 [H3 H4]]].
    + apply groups_append_NoDup. assumption.
    + apply groups_append_nonempty. assumption.
    + repeat split; try assumption.
      * rewrite H3. rewrite groups_append_perm. rewrite <- app_assoc. reflexivity.
      * intros c g v Hin Hv. destruct (H4 c g v Hin Hv) as [Hi|[g0 [Hg0 Hv0]]]; [auto|].
        destruct (groups_append_In groups color node c g0 Hnd Hg0 v Hv0)
          as [[-> ->]|Hold]; auto.
Qed.

(** ** What [colorGraph] returns *)

(** The colouring behind the groups: [colorGraph] returns, the groups
    partition the vertices, none is empty, and the vertices of a group have
    one colour of a proper colouring. *)
Lemma colorGraph_spec (adjacency : sdict (list string)) :
  NoDup (Dict.keys adjacency) ->
  symmetric adjacency ->
  exists colors groups,
    colorGraph adjacency = Ok groups
    /\ Permutation (concat groups) (Dict.keys adjacency)
    /\ Forall (fun g => g <> []) groups
    /\ proper adjacency colors
    /\ forall g, In g groups ->
         exists c, forall v, In v g -> sget colors v = Some c.
Proof.
  intros Hnd Hsym. unfold colorGraph.
  destruct (colorGraph_colors_spec adjacency Hsym
              (sorted String.leb (Dict.keys adjacency)) [])
    as [colors [Hrun [Hkeys Hprop]]].
  - eapply Permutation_NoDup; [symmetry; apply sorted_perm | assumption].
  - reflexivity.
  - intros n Hn. apply sorted_In in Hn. assumption.
  - intros u v cu cv nu Hu. discriminate.
  - simpl in Hkeys.
    assert (Hndc : NoDup (Dict.keys colors)).
    { rewrite Hkeys. eapply Permutation_NoDup; [symmetry; apply sorted_perm | assumption]. }
    destruct (colorGraph_groups_spec colors [] (NoDup_nil _) (Forall_nil _))
      as [H1 [H2 [H3 H4]]].
    exists colors, (Dict.values (colorGraph_groups colors [])).
    rewrite Hrun. simpl. split; [reflexivity|]. split; [|split; [assumption|split; [assumption|]]].
    + rewrite H3. simpl. fold (Dict.keys colors). rewrite Hkeys. apply sorted_perm.
    + intros g Hg. apply in_map_iff in Hg. destruct Hg as [[c g'] [<- Hin]]. simpl.
      exists c. intros v Hv. destruct (H4 c g' v Hin Hv) as [Hi|[g0 [[] _]]].
      apply sIn_get; assumption.
Qed.

Lemma NoDup_concat_In {A : Type} (L : list (list A)) (g : list A) :
  NoDup (concat L) -> In g L -> NoDup g.
Proof.
  induction L as [|g0 L IH]; simpl; [tauto|].
  intros Hnd [->|Hin].
  - eapply NoDup_app_remove_r. eassumption.
  - apply IH; [|assumption]. eapply NoDup_app_remove_l. eassumption.
Qed.

Lemma length_concat_singletons {A : Type} (L : list (list A)) :
  (forall g, In g L -> length g = 1) -> length (concat L) = length L.
Proof.
  induction L as [|g L IH]; simpl; intros H; [reflexivity|].
  rewrite length_app, (H g) by auto. simpl. f_equal. auto.
Qed.

(** On an edgeless graph every vertex receives colour 0. *)
Lemma colorGraph_colors_edgeless (adjacency : sdict (list string)) :
  (forall v nv, sget adjacency v = Some nv -> nv = []) ->
  forall nodes colors,
    NoDup nodes ->
    (forall n, In n nodes -> sget colors n = None) ->
    (forall n, In n nodes -> In n (Dict.keys adjacency)) ->
    colorGraph_colors adjacency nodes colors
    = Ok (colors ++ map (fun n => (n, 0)) nodes).
Proof.
  intros Hnil nodes. induction nodes as [|node nodes IH]; intros colors Hnd Hnew Hkey; simpl.
  - rewrite app_nil_r. reflexivity.
  - destruct (sIn_keys_get adjacency node) as [nb Hnb]; [apply Hkey; simpl; auto|].
    unfold Dict.item. rewrite Hnb. rewrite (Hnil _ _ Hnb). simpl.
    inversion Hnd as [|? ? Hni Hnd']; subst.
    rewrite IH.
    + rewrite sset_new by (apply Hnew; simpl; auto).
      rewrite <- app_assoc. reflexivity.
    + assumption.
    + intros n Hn. rewrite sget_set_other; [apply Hnew; simpl; auto|].
      intros ->. contradiction.
    + intros n Hn. apply Hkey. simpl. auto.
Qed.

Lemma colorGraph_groups_one_colour (nodes : list string) (g : list string) :
  colorGraph_groups (map (fun n => (n, 0)) nodes) [(0, g)] = [(0, g ++ nodes)].
Proof.
  revert g. induction nodes as [|n nodes IH]; intros g; simpl.
  - rewrite app_nil_r. reflexivity.
  - unfold groups_append. simpl. rewrite IH, <- app_assoc. reflexivity.
Qed.


Lemma str_in_In (x : string) (s : list string) : str_in x s = true <-> In x s.
Proof.
  unfold str_in. rewrite existsb_exists. split.
  - intros [y [Hy E]]. apply String.eqb_eq in E. congruence.
  - intros H. exists x. split; [assumption | apply String.eqb_refl].
Qed.

Lemma symmetricb_sound (adjacency : sdict (list string)) :
  symmetricb adjacency = true -> symmetric adjacency.
Proof.
  unfold symmetricb, symmetric. rewrite forallb_forall.
  intros H u v nu nv Hu Hv Hin.
  apply sget_Some_In in Hu. specialize (H _ Hu). simpl in H.
  rewrite forallb_forall in H. specialize (H _ Hin).
  rewrite Hv in H. apply str_in_In. assumption.
Qed.

(** C2.  For an adjacency dict of an undirected graph (symmetric lists;
    the keys are the vertices), [colorGraph] returns a list of groups that
    partitions the vertices: the groups together hold every vertex exactly
    once and none is empty.  No group holds two distinct vertices that are
    adjacent.  When no vertex has a neighbour all the vertices form one
    group (in sorted order), and when every two distinct vertices are
    adjacent there are as many groups as vertices. *)
Theorem colorGraph_partition_conflict_free (adjacency : sdict (list string)) :
  NoDup (Dict.keys adjacency) ->
  symmetric adjacency ->
  exists groups,
    colorGraph adjacency = Ok groups
    /\ Permutation (concat groups) (Dict.keys adjacency)
    /\ Forall (fun g => g <> []) groups
    /\ (forall g u v nu,
          In g groups -> In u g -> In v g -> u <> v ->
          sget adjacency u = Some nu -> ~ In v nu)
    /\ ((forall v nv, sget adjacency v = Some nv -> nv = []) ->
        groups = match sorted String.leb (Dict.keys adjacency) with
                 | [] => []
                 | vertices => [vertices]
                 end)
    /\ ((forall u v nu,
           sget adjacency u = Some nu -> In v (Dict.keys adjacency) ->
           u <> v -> In v nu) ->
        length groups = length adjacency).
Proof.
  intros Hnd Hsym.
  destruct (colorGraph_spec adjacency Hnd Hsym)
    as [colors [groups [Hrun [Hperm [Hne [Hprop Hcol]]]]]].
  exists groups. split; [assumption|]. split; [assumption|]. split; [assumption|].
  assert (Hconf : forall g u v nu,
             In g groups -> In u g -> In v g -> u <> v ->
             sget adjacency u = Some nu -> ~ In v nu).
  { intros g u v nu Hg Hu Hv Huv Hadj Hin.
    destruct (Hcol g Hg) as [c Hc].
    exact (Hprop u v c c nu (Hc u Hu) (Hc v Hv) Huv Hadj Hin eq_refl). }
  split; [exact Hconf|]. split.
  - intros Hnil. unfold colorGraph in Hrun.
    rewrite (colorGraph_colors_edgeless adjacency Hnil) in Hrun.
    + simpl in Hrun. injection Hrun as <-.
      destruct (sorted String.leb (Dict.keys adjacency)) as [|n nodes]; [reflexivity|].
      simpl. unfold groups_append. simpl.
      rewrite colorGraph_groups_one_colour. reflexivity.
    + eapply Permutation_NoDup; [symmetry; apply sorted_perm | assumption].
    + reflexivity.
    + intros n Hn. apply sorted_In in Hn. assumption.
  - intros Hcomplete.
    rewrite <- (length_concat_singletons groups).
    + rewrite (Permutation_length Hperm). unfold Dict.keys. apply length_map.
    + intros g Hg.
      assert (Hndg : NoDup g).
      { apply (NoDup_concat_In groups); [|assumption].
        eapply Permutation_NoDup; [symmetry; eassumption | assumption]. }
      rewrite Forall_forall in Hne. specialize (Hne g Hg).
      destruct g as [|u [|v g]]; [congruence | reflexivity | exfalso].
      assert (Huv : u <> v).
      { inversion Hndg as [|? ? Hni _]; subst. intros ->. apply Hni. simpl. auto. }
      assert (Hu : In u (Dict.keys adjacency)).
      { eapply Permutation_in; [eassumption|]. apply in_concat. exists (u :: v :: g). simpl. auto. }
      assert (Hv : In v (Dict.keys adjacency)).
      { eapply Permutation_in; [eassumption|]. apply in_concat. exists (u :: v :: g). simpl. auto. }
      destruct (sIn_keys_get adjacency u Hu) as [nu Hnu].
      apply (Hconf (u :: v :: g) u v nu); simpl; auto.
      eapply Hcomplete; eauto.
Qed.

Lemma colorGraph_partition_conflict_free_witness :
  exists groups,
    colorGraph [("b", ["a"; "c"]); ("a", ["b"]); ("c", ["b"]); ("d", [])]
    = Ok groups
    /\ Permutation (concat groups) ["b"; "a"; "c"; "d"]
    /\ Forall (fun g => g <> []) groups.
Proof.
  destruct (colorGraph_partition_conflict_free
              [("b", ["a"; "c"]); ("a", ["b"]); ("c", ["b"]); ("d", [])])
    as [groups [H1 [H2 [H3 _]]]].
  - simpl. repeat (constructor; [simpl; intuition discriminate|]). constructor.
  - apply symmetricb_sound. vm_compute. reflexivity.
  - exists groups. auto.
Defined.

(** ** The attachment contract and the skip signal *)

Lemma sset_not_nil {V : Type} (d : sdict V) k v : sset d k v <> [].
Proof. destruct d as [|[k' v'] d]; simpl; [|destruct (k =? k')%string]; discriminate. Qed.

Lemma anchorPairs_fold_nil (names : list string) (anchors : list NamedAnchor.t) :
  forall anchorPairs,
    fold_left
      (fun anchorPairs anchor =>
         if NamedAnchor.isMark anchor then anchorPairs
         else
           let markAnchorName := NamedAnchor.markAnchorName anchor in
           if str_in markAnchorName names
           then sset anchorPairs (NamedAnchor.name anchor) markAnchorName
           else anchorPairs)
      anchors anchorPairs = [] <->
    anchorPairs = []
    /\ forall anchor, In anchor anchors -> NamedAnchor.isMark anchor = false ->
                      ~ In (NamedAnchor.markAnchorName anchor) names.
Proof.
  induction anchors as [|a anchors IH]; intros anchorPairs; simpl.
  - split; [intros ->; split; [reflexivity | tauto] | tauto].
  - rewrite IH. clear IH.
    destruct (NamedAnchor.isMark a) eqn:Em.
    + split; intros [H1 H2]; (split; [assumption|]).
      * intros anchor [<-|Hin] Hm; [congruence | auto].
      * auto.
    + simpl. destruct (str_in (NamedAnchor.markAnchorName a) names) eqn:Ein.
      * split; intros [H1 H2].
        -- exfalso. exact (sset_not_nil _ _ _ H1).
        -- exfalso. apply (H2 a (or_introl eq_refl) Em).
           apply str_in_In. assumption.
      * split; intros [H1 H2]; (split; [assumption|]).
        -- intros anchor [<-|Hin] Hm; [|auto].
           intros Hc. apply str_in_In in Hc. congruence.
        -- auto.
Qed.

(** C7.  The contract [_getAnchorPairs] is empty exactly when no non-mark
    anchor has its mark-counterpart name (prefix and key) among the names
    of the mark anchors of the glyph set.  When it is empty
    [shouldContinue] answers false whatever the base class would answer,
    and the driver returns the "nothing generated" signal without a
    failure, without running the generation and with the document as it
    was. *)
Theorem empty_contract_skips_generation {Doc : Type}
    (anchorLists : sdict (list NamedAnchor.t)) (feaFile : Doc)
    (super_shouldContinue : bool) (_write : Doc -> result (bool * Doc)) :
  (_getAnchorPairs anchorLists = [] <->
   forall anchor,
     In anchor (concat (Dict.values anchorLists)) ->
     NamedAnchor.isMark anchor = false ->
     ~ In (NamedAnchor.markAnchorName anchor) (markAnchorNames_of anchorLists))
  /\ (_getAnchorPairs anchorLists = [] ->
      shouldContinue (_getAnchorPairs anchorLists) super_shouldContinue = false
      /\ write feaFile (_getAnchorPairs anchorLists) super_shouldContinue _write
         = Ok (false, feaFile)).
Proof.
  split.
  - unfold _getAnchorPairs. rewrite anchorPairs_fold_nil. tauto.
  - intros ->. split; reflexivity.
Qed.

Lemma empty_contract_skips_generation_witness :
  shouldContinue (_getAnchorPairs only_mark_anchors) true = false
  /\ write tt (_getAnchorPairs only_mark_anchors) true
           (fun doc => Ok (true, doc))
     = Ok (false, tt).
Proof.
  apply (empty_contract_skips_generation only_mark_anchors tt true
           (fun doc => Ok (true, doc))).
  reflexivity.
Defined.

(** ** Defining a mark class *)

Lemma _anchorsAreEqual_plain (x1 y1 x2 y2 : Z) :
  _anchorsAreEqual (Anchor.make x1 y1) (Anchor.make x2 y2) = true
  <-> x1 = x2 /\ y1 = y2.
Proof.
  unfold _anchorsAreEqual. simpl. rewrite !andb_true_r, andb_true_iff.
  rewrite !Z.eqb_eq. tauto.
Qed.





(** ** [sorted] sorts *)

Section SortedFacts.
Variable A : Type.
Variable leb : A -> A -> bool.
Hypothesis leb_total : forall a b, leb a b = true \/ leb b a = true.

Lemma insert_sorted_HdRel (a b : A) (l : list A) :
  leb b a = true -> HdRel (fun x y => leb x y = true) b l ->
  HdRel (fun x y => leb x y = true) b (insert_sorted leb a l).
Proof.
  intros Hba Hhd. destruct l as [|c l]; simpl.
  - constructor. assumption.
  - destruct (leb a c); constructor; [assumption|].
    inversion Hhd; assumption.
Qed.

Lemma insert_sorted_Sorted (a : A) (l : list A) :
  Sorted (fun x y => leb x y = true) l ->
  Sorted (fun x y => leb x y = true) (insert_sorted leb a l).
Proof.
  induction 1 as [|b l Hs IH Hhd]; simpl.
  - repeat constructor.
  - destruct (leb a b) eqn:E.
    + constructor; [constructor; assumption | constructor; assumption].
    + constructor; [assumption|].
      apply insert_sorted_HdRel; [|assumption].
      destruct (leb_total a b); congruence.
Qed.

Lemma sorted_Sorted (l : list A) : Sorted (fun x y => leb x y = true) (sorted leb l).
Proof.
  induction l as [|a l IH]; simpl; [constructor|].
  apply insert_sorted_Sorted. assumption.
Qed.
End SortedFacts.

(** The order on strings is transitive. *)
Lemma ascii_compare_spec (a b : ascii) :
  CompareSpec (a = b) (N_of_ascii a < N_of_ascii b)%N
              (N_of_ascii b < N_of_ascii a)%N (Ascii.compare a b).
Proof.
  unfold Ascii.compare. destruct (N.compare_spec (N_of_ascii a) (N_of_ascii b)) as [E|L|G];
    constructor; try assumption.
  rewrite <- (ascii_N_embedding a), <- (ascii_N_embedding b), E. reflexivity.
Qed.

Lemma string_compare_not_Gt_trans (s1 s2 s3 : string) :
  String.compare s1 s2 <> Gt -> String.compare s2 s3 <> Gt ->
  String.compare s1 s3 <> Gt.
Proof.
  revert s2 s3. induction s1 as [|c1 s1 IH]; intros [|c2 s2] [|c3 s3];
    simpl; try congruence.
  destruct (ascii_compare_spec c1 c2) as [E12|L12|G12]; [subst c2| |congruence].
  - destruct (ascii_compare_spec c1 c3) as [E13|L13|G13]; [apply IH|congruence|congruence].
  - destruct (ascii_compare_spec c2 c3) as [E23|L23|G23]; [subst c3| |congruence].
    + intros _ _. destruct (ascii_compare_spec c1 c2) as [E|L|G]; [|congruence|].
      * subst. apply N.lt_irrefl in L12. contradiction.
      * exfalso. apply (N.lt_irrefl (N_of_ascii c1)). eapply N.lt_trans; eassumption.
    + intros _ _. destruct (ascii_compare_spec c1 c3) as [E|L|G]; [|congruence|].
      * subst. exfalso. apply (N.lt_irrefl (N_of_ascii c3)). eapply N.lt_trans; eassumption.
      * exfalso. apply (N.lt_irrefl (N_of_ascii c1)).
        eapply N.lt_trans; [eassumption|]. eapply N.lt_trans; eassumption.
Qed.

Lemma string_leb_trans (s1 s2 s3 : string) :
  String.leb s1 s2 = true -> String.leb s2 s3 = true -> String.leb s1 s3 = true.
Proof.
  unfold String.leb. intros H12 H23.
  pose proof (string_compare_not_Gt_trans s1 s2 s3) as H.
  destruct (String.compare s1 s2); try discriminate;
    destruct (String.compare s2 s3); try discriminate;
    destruct (String.compare s1 s3); try reflexivity;
    exfalso; apply H; congruence.
Qed.

Lemma string_compare_app (p a b : string) :
  String.compare (p ++ a) (p ++ b) = String.compare a b.
Proof.
  induction p as [|c p IH]; simpl; [reflexivity|].
  destruct (ascii_compare_spec c c) as [_|L|L]; [assumption| |];
    exfalso; exact (N.lt_irrefl _ L).
Qed.

Lemma string_leb_app (p a b : string) :
  String.leb (p ++ a) (p ++ b) = String.leb a b.
Proof. unfold String.leb. rewrite string_compare_app. reflexivity. Qed.

(** The items of a dict, sorted: strongly sorted by key. *)
Lemma sorted_items_StronglySorted {V : Type} (d : sdict V) :
  StronglySorted (fun i j => String.leb (fst i) (fst j) = true)
                 (sorted (fun i j : string * V => String.leb (fst i) (fst j)) d).
Proof.
  apply Sorted_StronglySorted.
  - intros i j k. apply string_leb_trans.
  - apply sorted_Sorted. intros a b. apply String.leb_total.
Qed.

Lemma StronglySorted_map {A B : Type} (f : A -> B) (R : B -> B -> Prop) (l : list A) :
  StronglySorted (fun a b => R (f a) (f b)) l -> StronglySorted R (map f l).
Proof.
  induction 1 as [|a l Hs IH Hall]; simpl; constructor; [assumption|].
  rewrite Forall_forall in *. intros b Hb.
  apply in_map_iff in Hb. destruct Hb as [a' [<- Ha']]. auto.
Qed.

(** ** Filtering attachments *)

Lemma filter_anchors_In include l l' :
  filter_anchors include l = Ok l' ->
  forall a, In a l' <-> In a l /\ include a = Ok true.
Proof.
  revert l'. induction l as [|x l IH]; simpl; intros l' H a.
  - injection H as <-. simpl. tauto.
  - inv_bind H as b Hb. inv_bind H as l0 Hl0. injection H as <-.
    specialize (IH _ Hl0 a).
    destruct b; simpl; rewrite IH; split.
    + intros [<-|[H1 H2]]; auto.
    + intros [[<-|H1] H2]; auto.
    + intros [H1 H2]; auto.
    + intros [[<-|H1] H2]; [congruence | auto].
Qed.

Lemma filter_components_In include l l' :
  filter_components include l = Ok l' ->
  forall a, In a (concat l') <-> In a (concat l) /\ include a = Ok true.
Proof.
  revert l'. induction l as [|c l IH]; simpl; intros l' H a.
  - injection H as <-. simpl. tauto.
  - inv_bind H as c' Hc. inv_bind H as l0 Hl0. injection H as <-. simpl.
    rewrite !in_app_iff, (IH _ Hl0 a), (filter_anchors_In _ _ _ Hc a). tauto.
Qed.

Lemma nonempty_false {A : Type} (l : list A) : nonempty l = false -> l = [].
Proof. destruct l; [reflexivity | discriminate]. Qed.

Lemma existsb_nonempty_false {A : Type} (l : list (list A)) :
  existsb nonempty l = false -> concat l = [].
Proof.
  induction l as [|c l IH]; simpl; [reflexivity|].
  intros H. apply orb_false_iff in H. destruct H as [H1 H2].
  rewrite (nonempty_false _ H1), IH by assumption. reflexivity.
Qed.

Lemma Attachment_filter_anchors att include r :
  Attachment_filter att include = Ok r ->
  forall a,
    In a (match r with Some att' => attachment_anchors att' | None => [] end)
    <-> In a (attachment_anchors att) /\ include a = Ok true.
Proof.
  destruct att as [n marks|n marks|n marks]; simpl; intros H a;
    inv_bind H as marks' Hm; injection H as <-.
  - pose proof (filter_anchors_In _ _ _ Hm a) as Hin.
    destruct (nonempty marks') eqn:E; simpl; [assumption|].
    apply nonempty_false in E. subst marks'. assumption.
  - pose proof (filter_anchors_In _ _ _ Hm a) as Hin.
    destruct (nonempty marks') eqn:E; simpl; [assumption|].
    apply nonempty_false in E. subst marks'. assumption.
  - pose proof (filter_components_In _ _ _ Hm a) as Hin.
    destruct (existsb nonempty marks') eqn:E; simpl; [assumption|].
    apply existsb_nonempty_false in E. rewrite E in Hin. assumption.
Qed.

Lemma include_in_true markClasses a :
  include_in markClasses a = Ok true <->
  exists mc, NamedAnchor.markClass a = Some mc
             /\ In (MarkClass.name mc) markClasses.
Proof.
  unfold include_in, the_markClass.
  destruct (NamedAnchor.markClass a) as [mc|]; simpl.
  - split.
    + intros [= H]. apply str_in_In in H. eauto.
    + intros [mc' [[= <-] H]]. apply str_in_In in H. rewrite H. reflexivity.
  - split; [discriminate | intros [mc [H _]]; discriminate].
Qed.

Lemma make_lookup_anchors markClasses attachments lookup :
  make_lookup markClasses attachments = Ok lookup ->
  forall a,
    In a (lookup_anchors lookup) <->
    In a (lookup_anchors attachments)
    /\ exists mc, NamedAnchor.markClass a = Some mc
                  /\ In (MarkClass.name mc) markClasses.
Proof.
  revert lookup. induction attachments as [|att attachments IH]; simpl; intros lookup H a.
  - injection H as <-. simpl. tauto.
  - inv_bind H as r Hr. inv_bind H as lookup0 Hl0. injection H as <-.
    pose proof (Attachment_filter_anchors _ _ _ Hr a) as Hatt.
    rewrite include_in_true in Hatt.
    specialize (IH _ Hl0 a). unfold lookup_anchors in *.
    rewrite in_app_iff.
    destruct r as [att'|]; simpl in *; [rewrite in_app_iff|]; rewrite ?IH, ?Hatt.
    + tauto.
    + split; [tauto|]. intros [[H1|H1] H2]; [|tauto].
      exfalso. apply Hatt. auto.
Qed.

(** Filtering cannot fail when every anchor has a mark class. *)
Lemma filter_anchors_total markClasses l :
  (forall a, In a l -> NamedAnchor.markClass a <> None) ->
  exists l', filter_anchors (include_in markClasses) l = Ok l'.
Proof.
  induction l as [|x l IH]; simpl; intros H; [eauto|].
  unfold include_in at 1, the_markClass.
  destruct (NamedAnchor.markClass x) eqn:E; [|exfalso; apply (H x); auto].
  simpl. destruct IH as [l' ->]; [auto|]. simpl. eauto.
Qed.

Lemma filter_components_total markClasses l :
  (forall a, In a (concat l) -> NamedAnchor.markClass a <> None) ->
  exists l', filter_components (include_in markClasses) l = Ok l'.
Proof.
  induction l as [|c l IH]; simpl; intros H; [eauto|].
  destruct (filter_anchors_total markClasses c) as [c' ->].
  { intros a Ha. apply H. apply in_app_iff. auto. }
  simpl. destruct IH as [l' ->].
  { intros a Ha. apply H. apply in_app_iff. auto. }
  simpl. eauto.
Qed.

Lemma make_lookup_total markClasses attachments :
  all_have_markClass attachments ->
  exists lookup, make_lookup markClasses attachments = Ok lookup.
Proof.
  unfold all_have_markClass, lookup_anchors.
  induction attachments as [|att attachments IH]; simpl; intros H; [eauto|].
  assert (Hatt : exists r, Attachment_filter att (include_in markClasses) = Ok r).
  { destruct att as [n marks|n marks|n marks]; simpl.
    - destruct (filter_anchors_total markClasses marks) as [l' ->]; simpl; eauto.
      intros a Ha. apply H. apply in_app_iff. auto.
    - destruct (filter_anchors_total markClasses marks) as [l' ->]; simpl; eauto.
      intros a Ha. apply H. apply in_app_iff. auto.
    - destruct (filter_components_total markClasses marks) as [l' ->]; simpl; eauto.
      intros a Ha. apply H. apply in_app_iff. auto. }
  destruct Hatt as [r ->]. simpl.
  destruct IH as [lookup ->].
  { intros a Ha. apply H. apply in_app_iff. auto. }
  simpl. eauto.
Qed.

Lemma mapM_map_Forall2 {A B C : Type} (f : B -> result C) (g : A -> B)
    (l : list A) (cs : list C) :
  mapM f (map g l) = Ok cs -> Forall2 (fun a c => f (g a) = Ok c) l cs.
Proof.
  revert cs. induction l as [|a l IH]; simpl; intros cs H.
  - injection H as <-. constructor.
  - inv_bind H as c Hc. inv_bind H as cs' Hcs. injection H as <-.
    constructor; auto.
Qed.

Lemma StronglySorted_weaken {A : Type} (R R' : A -> A -> Prop) (l : list A) :
  (forall a b, In a l -> In b l -> R a b -> R' a b) ->
  StronglySorted R l -> StronglySorted R' l.
Proof.
  intros Himp Hs. induction Hs as [|a l Hs IH Hall].
  - constructor.
  - constructor.
    + apply IH. intros x y0 Hx Hy0. apply Himp; simpl; auto.
    + rewrite Forall_forall in *. intros b Hb. apply Himp; simpl; auto.
Qed.

(** ** One lookup per registered mark class *)

(** C5, as stated, fails: the lookups follow the order of the anchor keys
    ("top" before "top.alt"), here against the order of the class names
    ("MC_top_1" is greater than "MC_top.alt"). *)
Lemma _groupAttachments_not_sorted_by_class_name :
  exists lookups,
    _groupAttachments false split_registry split_attachments = Ok lookups
    /\ map lookup_classes lookups = [["MC_top_1"]; ["MC_top.alt"]]
    /\ String.leb "MC_top_1" "MC_top.alt" = false.
Proof. eexists. split; [reflexivity|]. split; reflexivity. Qed.

(** C5, amended.  With [groupMarkClasses] disabled and attachments whose
    anchors all have a mark class, [_groupAttachments] returns one lookup
    per entry of the registry [context.markClasses] (anchor key to mark
    class), in the lexicographic order of the anchor keys; the lookup of an
    entry holds exactly the anchors of the attachments whose mark class has
    the name of the entry's class.  When every class is named by a common
    prefix followed by its key, the lookups are also in the order of the
    class names. *)
Theorem _groupAttachments_one_lookup_per_key
    (markClasses : sdict MarkClass.t) (attachments : list Attachment) :
  all_have_markClass attachments ->
  exists lookups,
    _groupAttachments false markClasses attachments = Ok lookups
    /\ length lookups = length markClasses
    /\ Permutation (sorted item_leb markClasses) markClasses
    /\ StronglySorted (fun i j => String.leb (fst i) (fst j) = true)
                      (sorted item_leb markClasses)
    /\ Forall2
         (fun item lookup =>
            forall a,
              In a (lookup_anchors lookup) <->
              In a (lookup_anchors attachments)
              /\ exists mc, NamedAnchor.markClass a = Some mc
                            /\ MarkClass.name mc = MarkClass.name (snd item))
         (sorted item_leb markClasses) lookups
    /\ (forall prefix,
          (forall key mc, In (key, mc) markClasses ->
                          MarkClass.name mc = (prefix ++ key)%string) ->
          StronglySorted (fun n m => String.leb n m = true)
            (map (fun item => MarkClass.name (snd item))
                 (sorted item_leb markClasses))).
Proof.
  intros Hmc. unfold _groupAttachments. simpl.
  destruct (mapM_total (fun mcs => make_lookup mcs attachments)
              (map (fun item => [MarkClass.name (snd item)])
                   (sorted item_leb markClasses))) as [lookups Hrun].
  { intros mcs _. apply make_lookup_total. assumption. }
  exists lookups. split; [assumption|].
  split.
  { rewrite (mapM_Ok_length _ _ _ Hrun), length_map.
    apply Permutation_length, sorted_perm. }
  split; [apply sorted_perm|].
  split; [apply sorted_items_StronglySorted|].
  split.
  - apply mapM_map_Forall2 in Hrun.
    eapply Forall2_impl; [|exact Hrun].
    intros item lookup Hl a. simpl in Hl.
    rewrite (make_lookup_anchors _ _ _ Hl a). simpl.
    split; intros [H1 [mc [H2 H3]]]; (split; [assumption|]); exists mc;
      (split; [assumption|]).
    + destruct H3 as [H3|[]]. congruence.
    + left. congruence.
  - intros prefix Hname. apply StronglySorted_map.
    eapply StronglySorted_weaken; [|apply sorted_items_StronglySorted].
    intros [k1 mc1] [k2 mc2] H1 H2. simpl.
    apply sorted_In in H1. apply sorted_In in H2.
    rewrite (Hname _ _ H1), (Hname _ _ H2), string_leb_app. auto.
Qed.

Lemma all_have_markClass_checked (attachments : list Attachment) :
  forallb (fun a => negb (is_none (NamedAnchor.markClass a)))
          (lookup_anchors attachments) = true ->
  all_have_markClass attachments.
Proof.
  rewrite forallb_forall. intros H a Ha Hn. specialize (H a Ha).
  rewrite Hn in H. discriminate.
Qed.

Lemma _groupAttachments_one_lookup_per_key_witness :
  exists lookups,
    _groupAttachments false variant_registry variant_attachments = Ok lookups
    /\ length lookups = 2.
Proof.
  destruct (_groupAttachments_one_lookup_per_key variant_registry
              variant_attachments) as [lookups [H1 [H2 _]]].
  - apply all_have_markClass_checked. vm_compute. reflexivity.
  - exists lookups. split; assumption.
Defined.

(** The lookup of "top.alt" comes after the lookup of "top". *)
Example _groupAttachments_variant_last :
  exists lookups,
    _groupAttachments false variant_registry variant_attachments = Ok lookups
    /\ map lookup_classes lookups = [["MC_top"]; ["MC_top.alt"]].
Proof. eexists. split; reflexivity. Qed.

(** ** From attachments to the glyph-to-classes map *)

Lemma set_add_In (x : string) (s : list string) (c : string) :
  In c (set_add x s) <-> c = x \/ In c s.
Proof.
  unfold set_add. destruct (str_in x s) eqn:E.
  - apply str_in_In in E. split; [auto | intros [->|H]; assumption].
  - rewrite in_app_iff. simpl. intuition congruence.
Qed.

Lemma set_update_In (s xs : list string) (c : string) :
  In c (set_update s xs) <-> In c s \/ In c xs.
Proof.
  unfold set_update. revert s. induction xs as [|x xs IH]; intros s; simpl.
  - tauto.
  - rewrite IH, set_add_In. intuition congruence.
Qed.

Lemma covers_set_other d g cs g' c :
  g' <> g -> covers d g' c -> covers (sset d g cs) g' c.
Proof.
  intros Hne [cs' [H1 H2]]. exists cs'. rewrite sget_set_other; auto.
Qed.

Lemma classes_add_mono d markGlyph className g c :
  covers d g c -> covers (classes_add d markGlyph className) g c.
Proof.
  intros Hc. unfold classes_add.
  destruct (String.eqb_spec g markGlyph) as [->|Hne].
  - destruct Hc as [cs [H1 H2]]. rewrite H1.
    exists (set_add className cs). rewrite sget_set_same. split; [reflexivity|].
    apply set_add_In. auto.
  - destruct (sget d markGlyph); apply covers_set_other; assumption.
Qed.

Lemma classes_add_new d markGlyph className :
  covers (classes_add d markGlyph className) markGlyph className.
Proof.
  unfold classes_add. destruct (sget d markGlyph) as [cs|].
  - exists (set_add className cs). rewrite sget_set_same. split; [reflexivity|].
    apply set_add_In. auto.
  - exists [className]. rewrite sget_set_same. simpl. auto.
Qed.

Lemma classes_add_fold (className : string) (glyphs : list string) :
  forall d,
    let d' := fold_left (fun d markGlyph => classes_add d markGlyph className)
                        glyphs d in
    (forall g c, covers d g c -> covers d' g c)
    /\ (forall g, In g glyphs -> covers d' g className).
Proof.
  induction glyphs as [|g0 glyphs IH]; intros d; simpl.
  - split; [auto | tauto].
  - destruct (IH (classes_add d g0 className)) as [Hmono Hnew]. split.
    + intros g c Hc. apply Hmono, classes_add_mono. assumption.
    + intros g [<-|Hin]; [|auto]. apply Hmono, classes_add_new.
Qed.

Lemma anchors_classes_spec (l : list NamedAnchor.t) :
  forall d d',
    anchors_classes d l = Ok d' ->
    (forall g c, covers d g c -> covers d' g c)
    /\ (forall a mc g,
          In a l -> NamedAnchor.markClass a = Some mc ->
          In g (Dict.keys (MarkClass.glyphs mc)) ->
          covers d' g (MarkClass.name mc)).
Proof.
  induction l as [|x l IH]; intros d d' H; simpl in H.
  - injection H as <-. split; [auto | intros a mc g []].
  - inv_bind H as d1 Hd1. unfold anchor_classes, the_markClass in Hd1.
    destruct (NamedAnchor.markClass x) as [mcx|] eqn:Ex; [|discriminate].
    simpl in Hd1. injection Hd1 as <-.
    destruct (classes_add_fold (MarkClass.name mcx)
                (Dict.keys (MarkClass.glyphs mcx)) d) as [Hm1 Hn1].
    destruct (IH _ _ H) as [Hm Hn]. split.
    + intros g c Hc. apply Hm, Hm1. assumption.
    + intros a mc g [<-|Hin] Hmc Hg.
      * rewrite Ex in Hmc. injection Hmc as <-. apply Hm, Hn1. assumption.
      * eapply Hn; eassumption.
Qed.

Lemma components_classes_spec (l : list (list NamedAnchor.t)) :
  forall d d',
    components_classes d l = Ok d' ->
    (forall g c, covers d g c -> covers d' g c)
    /\ (forall a mc g,
          In a (concat l) -> NamedAnchor.markClass a = Some mc ->
          In g (Dict.keys (MarkClass.glyphs mc)) ->
          covers d' g (MarkClass.name mc)).
Proof.
  induction l as [|x l IH]; intros d d' H; simpl in H.
  - injection H as <-. split; [auto | intros a mc g []].
  - inv_bind H as d1 Hd1.
    destruct (anchors_classes_spec _ _ _ Hd1) as [Hm1 Hn1].
    destruct (IH _ _ H) as [Hm Hn]. split.
    + intros g c Hc. apply Hm, Hm1. assumption.
    + intros a mc g Hin Hmc Hg. simpl in Hin. apply in_app_iff in Hin.
      destruct Hin as [Hin|Hin].
      * apply Hm. eapply Hn1; eassumption.
      * eapply Hn; eassumption.
Qed.

Lemma getMarkGlyphToMarkClasses_spec att items :
  getMarkGlyphToMarkClasses att = Ok items ->
  forall a mc g,
    In a (attachment_anchors att) -> NamedAnchor.markClass a = Some mc ->
    In g (Dict.keys (MarkClass.glyphs mc)) ->
    covers items g (MarkClass.name mc).
Proof.
  destruct att as [n marks|n marks|n marks]; simpl; intros H.
  - apply (anchors_classes_spec _ _ _ H).
  - apply (anchors_classes_spec _ _ _ H).
  - apply (components_classes_spec _ _ _ H).
Qed.

Lemma classes_update_mono d markGlyph markClasses g c :
  covers d g c -> covers (classes_update d markGlyph markClasses) g c.
Proof.
  intros Hc. unfold classes_update.
  destruct (String.eqb_spec g markGlyph) as [->|Hne].
  - destruct Hc as [cs [H1 H2]]. rewrite H1.
    exists (set_update cs markClasses). rewrite sget_set_same.
    split; [reflexivity|]. apply set_update_In. auto.
  - destruct (sget d markGlyph); apply covers_set_other; assumption.
Qed.

Lemma classes_update_new d markGlyph markClasses c :
  In c markClasses -> covers (classes_update d markGlyph markClasses) markGlyph c.
Proof.
  intros Hin. unfold classes_update. destruct (sget d markGlyph) as [cs|].
  - exists (set_update cs markClasses). rewrite sget_set_same.
    split; [reflexivity|]. apply set_update_In. auto.
  - exists (set_update [] markClasses). rewrite sget_set_same.
    split; [reflexivity|]. apply set_update_In. auto.
Qed.

Lemma classes_update_fold (items : list (string * list string)) :
  forall d,
    let d' := fold_left (fun d item => classes_update d (fst item) (snd item))
                        items d in
    (forall g c, covers d g c -> covers d' g c)
    /\ (forall g cs c, In (g, cs) items -> In c cs -> covers d' g c).
Proof.
  induction items as [|[g0 cs0] items IH]; intros d; simpl.
  - split; [auto | intros g cs c []].
  - destruct (IH (classes_update d g0 cs0)) as [Hmono Hnew]. split.
    + intros g c Hc. apply Hmono, classes_update_mono. assumption.
    + intros g cs c [[= <- <-]|Hin] Hc; [|eauto].
      apply Hmono, classes_update_new. assumption.
Qed.

Lemma attachments_classes_spec (attachments : list Attachment) :
  forall d d',
    attachments_classes d attachments = Ok d' ->
    (forall g c, covers d g c -> covers d' g c)
    /\ (forall a mc g,
          In a (lookup_anchors attachments) ->
          NamedAnchor.markClass a = Some mc ->
          In g (Dict.keys (MarkClass.glyphs mc)) ->
          covers d' g (MarkClass.name mc)).
Proof.
  induction attachments as [|att attachments IH]; intros d d' H; simpl in H.
  - injection H as <-. split; [auto | intros a mc g []].
  - inv_bind H as items Hitems.
    pose proof (getMarkGlyphToMarkClasses_spec _ _ Hitems) as Hatt.
    destruct (classes_update_fold items d) as [Hm1 Hn1].
    destruct (IH _ _ H) as [Hm Hn]. split.
    + intros g c Hc. apply Hm, Hm1. assumption.
    + intros a mc g Hin Hmc Hg. unfold lookup_anchors in Hin. simpl in Hin.
      apply in_app_iff in Hin. destruct Hin as [Hin|Hin].
      * destruct (Hatt a mc g Hin Hmc Hg) as [cs [H1 H2]].
        apply Hm. apply (Hn1 g cs); [|assumption].
        apply sget_Some_In. assumption.
      * eapply Hn; eassumption.
Qed.

(** ** The conflict graph of the mark classes *)

Lemma sIn_keys_set {V : Type} (d : sdict V) k v k' :
  In k' (Dict.keys (sset d k v)) <-> k' = k \/ In k' (Dict.keys d).
Proof.
  destruct (sget d k) as [v0|] eqn:E.
  - rewrite (skeys_set_old d k v v0 E). split; [auto|].
    intros [->|H]; [|assumption].
    apply sget_Some_In in E. change k with (fst (k, v0)). apply in_map, E.
  - rewrite sset_new by assumption. unfold Dict.keys.
    rewrite map_app, in_app_iff. simpl. intuition congruence.
Qed.

Lemma adjacency_init_fold (l : list string) :
  forall adjacency,
    let adjacency' :=
      fold_left (fun adjacency markClass => sset adjacency markClass []) l
                adjacency in
    NoDup (Dict.keys adjacency) ->
    (forall u v, ~ edge adjacency u v) ->
    NoDup (Dict.keys adjacency')
    /\ (forall k, In k (Dict.keys adjacency') <->
                  In k (Dict.keys adjacency) \/ In k l)
    /\ (forall u v, ~ edge adjacency' u v).
Proof.
  induction l as [|c l IH]; intros adjacency; simpl; intros Hnd Hno.
  - split; [assumption|]. split; [tauto | assumption].
  - destruct (IH (sset adjacency c [])) as [H1 [H2 H3]].
    + apply sNoDup_keys_set. assumption.
    + intros u v [nu [Hu Hv]].
      destruct (String.eqb_spec u c) as [->|Hne].
      * rewrite sget_set_same in Hu. injection Hu as <-. destruct Hv.
      * rewrite sget_set_other in Hu by assumption. apply (Hno u v). exists nu. auto.
    + split; [assumption|]. split; [|assumption].
      intros k. rewrite H2, sIn_keys_set. intuition congruence.
Qed.

Lemma adjacency_add_spec adjacency k v :
  In k (Dict.keys adjacency) ->
  exists adjacency',
    adjacency_add adjacency k v = Ok adjacency'
    /\ Dict.keys adjacency' = Dict.keys adjacency
    /\ forall a b, edge adjacency' a b <-> edge adjacency a b \/ (a = k /\ b = v).
Proof.
  intros Hk. destruct (sIn_keys_get adjacency k Hk) as [s Hs].
  unfold adjacency_add, Dict.item. rewrite Hs. simpl.
  eexists. split; [reflexivity|]. split; [eapply skeys_set_old; eassumption|].
  intros a b. unfold edge. destruct (String.eqb_spec a k) as [->|Hne].
  - rewrite sget_set_same. split.
    + intros [nu [[= <-] Hin]]. apply set_add_In in Hin.
      destruct Hin as [->|Hin]; [auto | left; eauto].
    + intros [[nu [Hnu Hin]]|[_ ->]]; eexists; (split; [reflexivity|]);
        apply set_add_In; [|auto].
      right. congruence.
  - rewrite sget_set_other by assumption. split; [auto|].
    intros [H|[E _]]; [assumption | contradiction].
Qed.

Lemma adjacency_edges_spec (pairs : list (string * string)) :
  forall adjacency,
    (forall a b, In (a, b) pairs ->
                 In a (Dict.keys adjacency) /\ In b (Dict.keys adjacency)) ->
    exists adjacency',
      adjacency_edges pairs adjacency = Ok adjacency'
      /\ Dict.keys adjacency' = Dict.keys adjacency
      /\ forall a b, edge adjacency' a b <->
                     edge adjacency a b \/ In (a, b) pairs \/ In (b, a) pairs.
Proof.
  induction pairs as [|[k v] pairs IH]; intros adjacency Hkeys; simpl.
  - exists adjacency. split; [reflexivity|]. split; [reflexivity|]. tauto.
  - destruct (Hkeys k v (or_introl eq_refl)) as [Hk Hv].
    destruct (adjacency_add_spec adjacency k v Hk) as [adj1 [-> [K1 E1]]]. simpl.
    destruct (adjacency_add_spec adj1 v k) as [adj2 [-> [K2 E2]]]; [congruence|].
    simpl.
    destruct (IH adj2) as [adj3 [-> [K3 E3]]].
    + intros a b Hin. rewrite K2, K1. apply Hkeys. right. assumption.
    + exists adj3. split; [reflexivity|]. split; [congruence|].
      intros a b. rewrite E3, E2, E1. intuition congruence.
Qed.

Lemma combinations2_In (l : list string) a b :
  In (a, b) (combinations2 l) -> In a l /\ In b l.
Proof.
  induction l as [|x l IH]; simpl; [tauto|].
  rewrite in_app_iff, in_map_iff.
  intros [[y [[= <- <-] Hy]]|H]; [auto | tauto].
Qed.

Lemma combinations2_complete (l : list string) a b :
  In a l -> In b l -> a <> b ->
  In (a, b) (combinations2 l) \/ In (b, a) (combinations2 l).
Proof.
  induction l as [|x l IH]; simpl; [tauto|].
  rewrite !in_app_iff, !in_map_iff.
  intros [->|Ha] [->|Hb] Hne.
  - congruence.
  - left. left. eauto.
  - right. left. eauto.
  - destruct (IH Ha Hb Hne); auto.
Qed.

Lemma adjacency_loop_spec (items : list (string * list string)) :
  forall adjacency,
    (forall g cs c, In (g, cs) items -> In c cs -> In c (Dict.keys adjacency)) ->
    exists adjacency',
      adjacency_loop items adjacency = Ok adjacency'
      /\ Dict.keys adjacency' = Dict.keys adjacency
      /\ forall a b,
           edge adjacency' a b <->
           edge adjacency a b
           \/ exists g cs, In (g, cs) items
                           /\ (In (a, b) (combinations2 cs)
                               \/ In (b, a) (combinations2 cs)).
Proof.
  induction items as [|[g0 cs0] items IH]; intros adjacency Hkeys; simpl.
  - exists adjacency. split; [reflexivity|]. split; [reflexivity|].
    intros a b. split; [auto | intros [H|[g [cs [[] _]]]]; assumption].
  - destruct (adjacency_edges_spec (combinations2 cs0) adjacency)
      as [adj1 [-> [K1 E1]]].
    { intros a b Hin. apply combinations2_In in Hin. destruct Hin as [Ha Hb].
      split; apply (Hkeys g0 cs0); simpl; auto. }
    simpl. destruct (IH adj1) as [adj2 [-> [K2 E2]]].
    { intros g cs c Hin Hc. rewrite K1. apply (Hkeys g cs); simpl; auto. }
    exists adj2. split; [reflexivity|]. split; [congruence|].
    intros a b. rewrite E2, E1. split.
    + intros [[H|H]|[g [cs [Hin H]]]]; [auto | |].
      * right. exists g0, cs0. simpl. tauto.
      * right. exists g, cs. simpl. auto.
    + intros [H|[g [cs [[E|Hin] H]]]]; [auto | |].
      * injection E as <- <-. tauto.
      * right. exists g, cs. auto.
Qed.

(** The adjacency that [_groupMarkClasses] hands to [colorGraph]. *)
Lemma conflict_graph_spec (markGlyphToMarkClasses : sdict (list string)) :
  exists adjacency,
    adjacency_loop markGlyphToMarkClasses
                   (adjacency_init markGlyphToMarkClasses) = Ok adjacency
    /\ NoDup (Dict.keys adjacency)
    /\ symmetric adjacency
    /\ (forall c, In c (Dict.keys adjacency) <->
                  In c (concat (Dict.values markGlyphToMarkClasses)))
    /\ (forall g c1 c2,
          covers markGlyphToMarkClasses g c1 ->
          covers markGlyphToMarkClasses g c2 ->
          c1 <> c2 -> edge adjacency c1 c2).
Proof.
  destruct (adjacency_init_fold (concat (Dict.values markGlyphToMarkClasses)) [])
    as [Hnd [Hkeys Hno]].
  { constructor. }
  { intros u v [nu [H _]]. discriminate. }
  fold (adjacency_init markGlyphToMarkClasses) in Hnd, Hkeys, Hno.
  destruct (adjacency_loop_spec markGlyphToMarkClasses
              (adjacency_init markGlyphToMarkClasses)) as [adj [Hrun [K E]]].
  { intros g cs c Hin Hc. apply Hkeys. right. apply in_concat.
    exists cs. split; [|assumption].
    change cs with (snd (g, cs)). apply in_map. assumption. }
  exists adj. split; [assumption|]. split; [congruence|].
  assert (Hsym : forall a b, edge adj a b -> edge adj b a).
  { intros a b. rewrite !E. intros [H|[g [cs [Hin H]]]].
    - exfalso. exact (Hno _ _ H).
    - right. exists g, cs. tauto. }
  split; [|split].
  - intros u v nu nv Hu Hv Hin.
    destruct (Hsym u v) as [nv' [Hv' Hin']]; [exists nu; auto|].
    congruence.
  - intros c. rewrite K, Hkeys. simpl. tauto.
  - intros g c1 c2 [cs1 [H1 I1]] [cs2 [H2 I2]] Hne.
    assert (cs2 = cs1) by congruence. subst cs2.
    apply E. right. exists g, cs1. split; [apply sget_Some_In; assumption|].
    apply combinations2_complete; assumption.
Qed.

(** ** [_groupMarkClasses] separates the classes that share a glyph *)

Lemma group_sort_key_snd group k : group_sort_key group = Ok k -> snd k = group.
Proof.
  unfold group_sort_key. intros H. inv_bind H as ks Hks.
  destruct ks; [discriminate|]. injection H as <-. reflexivity.
Qed.

Lemma group_sort_key_total group :
  group <> [] -> (forall c, In c group -> prefixed c) ->
  exists k, group_sort_key group = Ok k.
Proof.
  intros Hne Hp. unfold group_sort_key.
  destruct (mapM_total
              (fun markClass =>
                 n <- _removeClassPrefix markClass ;;
                 Ok (match sget anchorSortKey n with
                     | Some k => k
                     | None => 0%Z
                     end)) group) as [ks Hks].
  { intros c Hc. unfold _removeClassPrefix. rewrite (Hp c Hc). simpl. eauto. }
  rewrite Hks. simpl. apply mapM_Ok_length in Hks.
  destruct ks; [destruct group; [congruence | discriminate] | eauto].
Qed.

Lemma mapM_group_sort_key_snd (groups : list (list string)) keyed :
  mapM group_sort_key groups = Ok keyed -> map snd keyed = groups.
Proof.
  revert keyed. induction groups as [|g groups IH]; simpl; intros keyed H.
  - injection H as <-. reflexivity.
  - inv_bind H as k Hk. inv_bind H as ks Hks. injection H as <-. simpl.
    rewrite (group_sort_key_snd _ _ Hk), (IH _ Hks). reflexivity.
Qed.

Lemma _groupMarkClasses_groups markGlyphToMarkClasses grouped :
  _groupMarkClasses markGlyphToMarkClasses = Ok grouped ->
  exists adjacency colorGroups,
    colorGraph adjacency = Ok colorGroups
    /\ NoDup (Dict.keys adjacency)
    /\ symmetric adjacency
    /\ (forall g c1 c2,
          covers markGlyphToMarkClasses g c1 ->
          covers markGlyphToMarkClasses g c2 ->
          c1 <> c2 -> edge adjacency c1 c2)
    /\ forall G, In G grouped ->
                 exists g0, In g0 colorGroups /\ forall c, In c G <-> In c g0.
Proof.
  unfold _groupMarkClasses. intros H.
  destruct (conflict_graph_spec markGlyphToMarkClasses)
    as [adj [Hadj [Hnd [Hsym [_ Hedge]]]]].
  rewrite Hadj in H. simpl in H.
  inv_bind H as colorGroups Hcg. inv_bind H as keyed Hkeyed. injection H as <-.
  exists adj, colorGroups. repeat (split; [assumption|]).
  intros G HG. apply mapM_group_sort_key_snd in Hkeyed.
  assert (HG' : In G (map (sorted String.leb) colorGroups)).
  { rewrite <- Hkeyed. apply in_map_iff in HG. destruct HG as [k [<- Hk]].
    apply in_map. apply sorted_In in Hk. assumption. }
  apply in_map_iff in HG'. destruct HG' as [g0 [<- Hg0]].
  exists g0. split; [assumption|]. intros c. apply sorted_In.
Qed.

Lemma _groupMarkClasses_conflict_free markGlyphToMarkClasses grouped :
  _groupMarkClasses markGlyphToMarkClasses = Ok grouped ->
  forall G g c1 c2,
    In G grouped -> In c1 G -> In c2 G ->
    covers markGlyphToMarkClasses g c1 ->
    covers markGlyphToMarkClasses g c2 ->
    c1 = c2.
Proof.
  intros H G g c1 c2 HG H1 H2 Hc1 Hc2.
  destruct (_groupMarkClasses_groups _ _ H)
    as [adj [colorGroups [Hrun [Hnd [Hsym [Hedge Hgroups]]]]]].
  destruct (colorGraph_spec adj Hnd Hsym)
    as [colors [groups' [Hrun' [_ [_ [Hprop Hcol]]]]]].
  assert (groups' = colorGroups) by congruence. subst groups'.
  destruct (Hgroups G HG) as [g0 [Hg0 Hiff]].
  destruct (string_dec c1 c2) as [|Hne]; [assumption | exfalso].
  destruct (Hedge g c1 c2 Hc1 Hc2 Hne) as [nu [Hnu Hin]].
  destruct (Hcol g0 Hg0) as [c Hc].
  apply (Hprop c1 c2 c c nu); auto; apply Hc, Hiff; assumption.
Qed.

Lemma _groupMarkClasses_total markGlyphToMarkClasses :
  all_classes prefixed markGlyphToMarkClasses ->
  exists grouped, _groupMarkClasses markGlyphToMarkClasses = Ok grouped.
Proof.
  intros Hp. unfold _groupMarkClasses.
  destruct (conflict_graph_spec markGlyphToMarkClasses)
    as [adj [Hadj [Hnd [Hsym [Hkeys _]]]]].
  rewrite Hadj. simpl.
  destruct (colorGraph_spec adj Hnd Hsym)
    as [colors [groups [Hrun [Hperm [Hne _]]]]].
  rewrite Hrun. simpl.
  destruct (mapM_total group_sort_key (map (sorted String.leb) groups))
    as [keyed ->]; [|simpl; eauto].
  intros G HG. apply in_map_iff in HG. destruct HG as [g0 [<- Hg0]].
  apply group_sort_key_total.
  - rewrite Forall_forall in Hne. specialize (Hne g0 Hg0).
    intros E. apply Hne. apply Permutation_nil.
    rewrite <- E. apply sorted_perm.
  - intros c Hc. apply sorted_In in Hc.
    assert (Hk : In c (Dict.keys adj)).
    { eapply Permutation_in; [eassumption|]. apply in_concat. eauto. }
    apply Hkeys in Hk. apply in_concat in Hk. destruct Hk as [cs [Hcs Hin]].
    apply in_map_iff in Hcs. destruct Hcs as [[g cs'] [<- Hitem]].
    eapply Hp; eassumption.
Qed.

(** ** The classes recorded come from the anchors *)

Lemma all_classes_set (P : string -> Prop) d g cs :
  all_classes P d -> (forall c, In c cs -> P c) -> all_classes P (sset d g cs).
Proof.
  intros Hd Hcs g' cs' c Hin Hc. apply sIn_set in Hin.
  destruct Hin as [[-> ->]|Hin]; [auto | eapply Hd; eassumption].
Qed.

Lemma classes_add_all (P : string -> Prop) d markGlyph className :
  all_classes P d -> P className ->
  all_classes P (classes_add d markGlyph className).
Proof.
  intros Hd Hp. unfold classes_add.
  destruct (sget d markGlyph) as [cs|] eqn:E; apply all_classes_set; try assumption.
  - intros c Hc. apply set_add_In in Hc. destruct Hc as [->|Hc]; [assumption|].
    apply sget_Some_In in E. eapply Hd; eassumption.
  - intros c [<-|[]]. assumption.
Qed.

Lemma classes_update_all (P : string -> Prop) d markGlyph markClasses :
  all_classes P d -> (forall c, In c markClasses -> P c) ->
  all_classes P (classes_update d markGlyph markClasses).
Proof.
  intros Hd Hp. unfold classes_update.
  destruct (sget d markGlyph) as [cs|] eqn:E; apply all_classes_set; try assumption;
    intros c Hc; apply set_update_In in Hc; destruct Hc as [Hc|Hc]; auto.
  - apply sget_Some_In in E. eapply Hd; eassumption.
  - destruct Hc.
Qed.

Lemma anchors_classes_total (P : string -> Prop) (l : list NamedAnchor.t) :
  (forall a, In a l -> exists mc, NamedAnchor.markClass a = Some mc
                                  /\ P (MarkClass.name mc)) ->
  forall d, all_classes P d ->
            exists d', anchors_classes d l = Ok d' /\ all_classes P d'.
Proof.
  induction l as [|x l IH]; intros Hl d Hd; simpl; [eauto|].
  destruct (Hl x (or_introl eq_refl)) as [mc [Hmc Hp]].
  unfold anchor_classes, the_markClass. rewrite Hmc. simpl.
  apply IH; [intros a Ha; apply Hl; simpl; auto|].
  generalize (Dict.keys (MarkClass.glyphs mc)). intros glyphs. revert d Hd.
  induction glyphs as [|g glyphs IHg]; intros d Hd; simpl; [assumption|].
  apply IHg. apply classes_add_all; assumption.
Qed.

Lemma components_classes_total (P : string -> Prop) (l : list (list NamedAnchor.t)) :
  (forall a, In a (concat l) -> exists mc, NamedAnchor.markClass a = Some mc
                                          /\ P (MarkClass.name mc)) ->
  forall d, all_classes P d ->
            exists d', components_classes d l = Ok d' /\ all_classes P d'.
Proof.
  induction l as [|c l IH]; intros Hl d Hd; simpl; [eauto|].
  destruct (anchors_classes_total P c) with (d := d) as [d1 [-> Hd1]];
    [intros a Ha; apply Hl; simpl; apply in_app_iff; auto | assumption |].
  simpl. apply IH; [|assumption].
  intros a Ha. apply Hl. simpl. apply in_app_iff. auto.
Qed.

Lemma attachments_classes_total (P : string -> Prop) (attachments : list Attachment) :
  (forall a, In a (lookup_anchors attachments) ->
             exists mc, NamedAnchor.markClass a = Some mc
                        /\ P (MarkClass.name mc)) ->
  forall d, all_classes P d ->
            exists d', attachments_classes d attachments = Ok d'
                       /\ all_classes P d'.
Proof.
  unfold lookup_anchors.
  induction attachments as [|att attachments IH]; intros Hl d Hd; simpl; [eauto|].
  assert (Hatt : exists items, getMarkGlyphToMarkClasses att = Ok items
                               /\ all_classes P items).
  { assert (Hnil : all_classes P []) by (intros g cs c []).
    destruct att as [n marks|n marks|n marks]; simpl.
    - apply anchors_classes_total; [|assumption].
      intros a Ha. apply Hl. simpl. apply in_app_iff. auto.
    - apply anchors_classes_total; [|assumption].
      intros a Ha. apply Hl. simpl. apply in_app_iff. auto.
    - apply components_classes_total; [|assumption].
      intros a Ha. apply Hl. simpl. apply in_app_iff. auto. }
  destruct Hatt as [items [-> Hitems]]. simpl.
  apply IH; [intros a Ha; apply Hl; simpl; apply in_app_iff; auto|].
  clear Hl IH. revert d Hd.
  induction items as [|[g cs] items IHi]; intros d Hd; simpl; [assumption|].
  apply IHi.
  - intros g' cs' c Hin Hc. apply (Hitems g' cs' c); simpl; auto.
  - apply classes_update_all; [assumption|].
    intros c Hc. apply (Hitems g cs c); simpl; auto.
Qed.

Lemma mapM_Ok_In {A B : Type} (f : A -> result B) (l : list A) (bs : list B) :
  mapM f l = Ok bs -> forall b, In b bs -> exists a, In a l /\ f a = Ok b.
Proof.
  revert bs. induction l as [|a l IH]; simpl; intros bs H b Hb.
  - injection H as <-. destruct Hb.
  - inv_bind H as b0 Hb0. inv_bind H as bs0 Hbs0. injection H as <-.
    destruct Hb as [<-|Hb]; [eauto|].
    destruct (IH _ Hbs0 b Hb) as [a' [Ha' Hf]]. eauto.
Qed.

Lemma all_prefixedb_sound (attachments : list Attachment) :
  all_prefixedb attachments = true ->
  forall a, In a (lookup_anchors attachments) ->
            exists mc, NamedAnchor.markClass a = Some mc
                       /\ prefixed (MarkClass.name mc).
Proof.
  unfold all_prefixedb. rewrite forallb_forall. intros H a Ha.
  specialize (H a Ha). destruct (NamedAnchor.markClass a) as [mc|]; [|discriminate].
  exists mc. split; [reflexivity | exact H].
Qed.

(** C3.  Whether [groupMarkClasses] is enabled or not, every lookup that
    [_groupAttachments] returns satisfies the LookupGroup invariant: no
    mark glyph belongs to the mark classes of two anchors of the lookup
    unless the two classes have the same name.  And [_groupAttachments]
    does return lookups when each anchor of the attachments has a mark class
    whose name starts with the writer's class prefix. *)
Theorem _groupAttachments_LookupGroup_invariant (groupMarkClasses : bool)
    (markClasses : sdict MarkClass.t) (attachments : list Attachment) :
  (forall lookups,
     _groupAttachments groupMarkClasses markClasses attachments = Ok lookups ->
     Forall LookupGroup_invariant lookups)
  /\ ((forall a, In a (lookup_anchors attachments) ->
                 exists mc, NamedAnchor.markClass a = Some mc
                            /\ prefixed (MarkClass.name mc)) ->
      exists lookups,
        _groupAttachments groupMarkClasses markClasses attachments = Ok lookups).
Proof.
  split.
  - intros lookups H. unfold _groupAttachments in H.
    inv_bind H as grouped Hgrouped.
    apply Forall_forall. intros lookup Hlookup.
    destruct (mapM_Ok_In _ _ _ H lookup Hlookup) as [mcs [Hmcs Hmake]].
    pose proof (make_lookup_anchors _ _ _ Hmake) as Hin.
    intros a1 a2 mc1 mc2 g Ha1 Ha2 Hmc1 Hmc2 Hg1 Hg2.
    apply Hin in Ha1. destruct Ha1 as [Ha1 [mc1' [E1 Hn1]]].
    apply Hin in Ha2. destruct Ha2 as [Ha2 [mc2' [E2 Hn2]]].
    assert (mc1' = mc1) by congruence. assert (mc2' = mc2) by congruence.
    subst mc1' mc2'.
    destruct groupMarkClasses.
    + inv_bind Hgrouped as mg Hmg.
      destruct (attachments_classes_spec _ _ _ Hmg) as [_ Hcov].
      apply (_groupMarkClasses_conflict_free _ _ Hgrouped mcs g); try assumption.
      * apply (Hcov a1 mc1 g); assumption.
      * apply (Hcov a2 mc2 g); assumption.
    + injection Hgrouped as <-. apply in_map_iff in Hmcs.
      destruct Hmcs as [item [<- _]]. simpl in Hn1, Hn2.
      destruct Hn1 as [<-|[]]. destruct Hn2 as [<-|[]]. reflexivity.
  - intros Hall. unfold _groupAttachments.
    assert (Hmc : all_have_markClass attachments).
    { intros a Ha. destruct (Hall a Ha) as [mc [-> _]]. discriminate. }
    assert (Hgrouped :
              exists grouped,
                (if groupMarkClasses
                 then
                   markGlyphToMarkClasses <- attachments_classes [] attachments ;;
                   _groupMarkClasses markGlyphToMarkClasses
                 else
                   Ok (map (fun item => [MarkClass.name (snd item)])
                           (sorted item_leb markClasses))) = Ok grouped).
    { destruct groupMarkClasses; [|eauto].
      destruct (attachments_classes_total prefixed attachments Hall [])
        as [mg [-> Hmg]]; [intros g cs c []|].
      simpl. apply _groupMarkClasses_total. assumption. }
    destruct Hgrouped as [grouped ->]. simpl.
    apply mapM_total. intros mcs _. apply make_lookup_total. assumption.
Qed.

Lemma _groupAttachments_LookupGroup_invariant_witness :
  exists lookups,
    _groupAttachments true [] overlapping_attachments = Ok lookups
    /\ Forall LookupGroup_invariant lookups.
Proof.
  destruct (_groupAttachments_LookupGroup_invariant true []
              overlapping_attachments) as [Hinv Hrun].
  destruct Hrun as [lookups Hlookups].
  - apply all_prefixedb_sound. vm_compute. reflexivity.
  - exists lookups. split; [assumption | apply Hinv; assumption].
Defined.

(** The overlapping classes [MC_top] and [MC_bottom] go to two lookups. *)
Example _groupAttachments_overlapping :
  exists lookups,
    _groupAttachments true [] overlapping_attachments = Ok lookups
    /\ map lookup_classes lookups
       = [["MC_top"; "MC_top"]; ["MC_bottom"; "MC_ring"; "MC_bottom"]].
Proof. eexists. split; reflexivity. Qed.

(** ** Mark-to-ligature components *)

Lemma componentAnchors_loop_get (anchors : list NamedAnchor.t) :
  forall componentAnchors componentAnchors',
    componentAnchors_loop anchors componentAnchors = Ok componentAnchors' ->
    forall i,
      Dict.get Nat.eqb componentAnchors' i
      = fold_left (component_step i) anchors (Dict.get Nat.eqb componentAnchors i).
Proof.
  induction anchors as [|a anchors IH]; intros ca ca' H i; simpl in H.
  - injection H as <-. reflexivity.
  - simpl. unfold component_step at 2. unfold null_for, keyed_for, collected.
    destruct (is_none (NamedAnchor.markClass a) && PyStr.truthy (NamedAnchor.key a))
      eqn:Eskip; simpl.
    { apply IH. assumption. }
    inv_bind H as u Hu.
    destruct (NamedAnchor.number a) as [n|] eqn:En; simpl.
    2:{ apply IH. assumption. }
    destruct (NamedAnchor.isContextual a) eqn:Ectx; simpl.
    { apply IH. assumption. }
    destruct (PyStr.truthy (NamedAnchor.key a)) eqn:Ekey; simpl in H |- *;
      rewrite (IH _ _ H i); destruct (Nat.eqb_spec n i) as [->|Hne]; simpl.
    + rewrite nget_set_same. reflexivity.
    + rewrite nget_set_other by congruence. reflexivity.
    + rewrite nget_set_same. reflexivity.
    + rewrite nget_set_other by congruence. reflexivity.
Qed.

Lemma componentAnchors_loop_total (anchors : list NamedAnchor.t) :
  (forall a, In a anchors -> NamedAnchor.isMark a = true ->
             NamedAnchor.markClass a = None /\ NamedAnchor.key a <> "") ->
  forall componentAnchors,
    exists componentAnchors',
      componentAnchors_loop anchors componentAnchors = Ok componentAnchors'.
Proof.
  induction anchors as [|a anchors IH]; intros Hmark ca; simpl; [eauto|].
  assert (IH' := IH (fun b Hb => Hmark b (or_intror Hb))).
  destruct (is_none (NamedAnchor.markClass a) && PyStr.truthy (NamedAnchor.key a))
    eqn:Eskip; [apply IH'|].
  destruct (NamedAnchor.isMark a) eqn:Em.
  - exfalso. destruct (Hmark a (or_introl eq_refl) Em) as [Hmc Hkey].
    rewrite Hmc in Eskip. simpl in Eskip.
    destruct (NamedAnchor.key a); [congruence | discriminate].
  - simpl. destruct (NamedAnchor.number a); [|apply IH'].
    destruct (NamedAnchor.isContextual a); [apply IH'|].
    destruct (negb (PyStr.truthy (NamedAnchor.key a))); apply IH'.
Qed.

(** The list held for a component, read off the anchors of the glyph. *)
Lemma component_step_keyed_only (i : nat) (anchors : list NamedAnchor.t) :
  (forall a, In a anchors -> null_for i a = false) ->
  forall held,
    fold_left (component_step i) anchors held
    = match held, filter (keyed_for i) anchors with
      | None, [] => None
      | None, l => Some l
      | Some h, l => Some (h ++ l)
      end.
Proof.
  induction anchors as [|a anchors IH]; intros Hnull held; simpl.
  - destruct held; [rewrite app_nil_r|]; reflexivity.
  - rewrite IH by (intros b Hb; apply Hnull; simpl; auto).
    unfold component_step. rewrite (Hnull a) by (simpl; auto).
    destruct (keyed_for i a); [|reflexivity].
    destruct held; simpl; [rewrite <- app_assoc|]; reflexivity.
Qed.

Lemma component_step_held (i : nat) (anchors : list NamedAnchor.t) :
  forall held a h,
    fold_left (component_step i) anchors held = Some h -> In a h ->
    (exists h0, held = Some h0 /\ In a h0)
    \/ (In a anchors /\ keyed_for i a = true).
Proof.
  induction anchors as [|b anchors IH]; intros held a h H Ha; simpl in H.
  - left. eauto.
  - destruct (IH _ _ _ H Ha) as [[h0 [Hh0 Hin]]|[Hin Hk]]; [|simpl; auto].
    unfold component_step in Hh0.
    destruct (null_for i b); [injection Hh0 as <-; destruct Hin|].
    destruct (keyed_for i b) eqn:Ek; [|left; eauto].
    injection Hh0 as <-. destruct held as [h1|].
    + apply in_app_iff in Hin. destruct Hin as [Hin|[<-|[]]];
        [left; eauto | right; simpl; auto].
    + destruct Hin as [<-|[]]. right. simpl. auto.
Qed.

Lemma component_step_after_null (i : nat) (l2 : list NamedAnchor.t) :
  (forall b, In b l2 -> keyed_for i b = false) ->
  fold_left (component_step i) l2 (Some []) = Some [].
Proof.
  induction l2 as [|b l2 IH]; intros Hk; simpl; [reflexivity|].
  unfold component_step at 2. rewrite (Hk b) by (simpl; auto).
  destruct (null_for i b); apply IH; intros c Hc; apply Hk; simpl; auto.
Qed.

Lemma component_step_observed (i : nat) (anchors : list NamedAnchor.t) :
  forall held,
    fold_left (component_step i) anchors held <> None <->
    held <> None \/ In i (numbers_of anchors).
Proof.
  induction anchors as [|a anchors IH]; intros held; simpl.
  - unfold numbers_of. simpl. tauto.
  - rewrite IH. unfold numbers_of, component_step, null_for, keyed_for. simpl.
    destruct (collected a) eqn:Ec; simpl.
    + destruct (NamedAnchor.number a) as [n|] eqn:En; simpl.
      * destruct (Nat.eqb_spec n i) as [->|Hne]; simpl.
        -- destruct (PyStr.truthy (NamedAnchor.key a)); simpl;
             (split; [auto | intros _; left; discriminate]).
        -- intuition congruence.
      * tauto.
    + tauto.
Qed.

Lemma list_max_ext (l l' : list nat) :
  (forall x, In x l <-> In x l') -> list_max l = list_max l'.
Proof.
  intros H. apply Nat.le_antisymm; apply list_max_le; apply Forall_forall;
    intros x Hx; apply H in Hx;
    [assert (Hle := proj1 (list_max_le l' (list_max l')) (Nat.le_refl _))
    |assert (Hle := proj1 (list_max_le l (list_max l)) (Nat.le_refl _))];
    rewrite Forall_forall in Hle; auto.
Qed.

Lemma nth_map_seq {B : Type} (f : nat -> B) (d : B) (m i : nat) :
  1 <= i <= m -> nth (i - 1) (map f (seq 1 m)) d = f i.
Proof.
  intros Hi. rewrite (nth_indep _ d (f 0)) by (rewrite length_map, length_seq; lia).
  rewrite map_nth, seq_nth by lia. f_equal. lia.
Qed.

Lemma no_element_nil {A : Type} (l : list A) : (forall x, ~ In x l) -> l = [].
Proof. destruct l as [|a l]; [reflexivity|]. intros H. destruct (H a). simpl. auto. Qed.

Lemma ligatureMarks_of_spec (anchors : list NamedAnchor.t) componentAnchors :
  componentAnchors_loop anchors [] = Ok componentAnchors ->
  (nonempty componentAnchors = true <-> numbers_of anchors <> [])
  /\ length (ligatureMarks_of componentAnchors) = list_max (numbers_of anchors)
  /\ forall i, 1 <= i <= list_max (numbers_of anchors) ->
               nth (i - 1) (ligatureMarks_of componentAnchors) []
               = component_of i anchors.
Proof.
  intros H. pose proof (componentAnchors_loop_get _ _ _ H) as Hget0.
  assert (Hkeys : forall i, In i (Dict.keys componentAnchors)
                            <-> In i (numbers_of anchors)).
  { intros i. pose proof (Hget0 i) as Hget.
    pose proof (nget_None componentAnchors i) as Hn.
    pose proof (component_step_observed i anchors None) as Ho.
    simpl in Hget. rewrite <- Hget in Ho. split.
    - intros Hin.
      destruct (proj1 Ho) as [Hf|Hnum]; [|congruence|assumption].
      intros E. apply Hn in E. contradiction.
    - intros Hin. destruct (in_dec Nat.eq_dec i (Dict.keys componentAnchors)) as [|Hni];
        [assumption|]. apply Hn in Hni. exfalso. apply (proj2 Ho); auto. }
  assert (Hmax : list_max (Dict.keys componentAnchors) = list_max (numbers_of anchors)).
  { apply list_max_ext. assumption. }
  split; [|split].
  - split.
    + intros Hne E. destruct componentAnchors as [|[k v] ca]; [discriminate|].
      assert (Hk : In k (numbers_of anchors)) by (apply Hkeys; simpl; auto).
      rewrite E in Hk. destruct Hk.
    + intros Hne. destruct componentAnchors as [|[k v] ca]; [|reflexivity].
      exfalso. apply Hne. apply no_element_nil. intros x Hx.
      apply Hkeys in Hx. destruct Hx.
  - unfold ligatureMarks_of. rewrite length_map, length_seq. assumption.
  - intros i Hi. unfold ligatureMarks_of, component_of. rewrite Hmax.
    rewrite nth_map_seq by assumption. rewrite (Hget0 i). reflexivity.
Qed.

(** What the list held for a component contains. *)
Lemma component_of_spec (i : nat) (anchors : list NamedAnchor.t) :
  (forall a, In a (component_of i anchors) ->
             In a anchors /\ keyed_for i a = true)
  /\ ((forall a, In a anchors -> null_for i a = false) ->
      component_of i anchors = filter (keyed_for i) anchors)
  /\ (~ In i (numbers_of anchors) -> component_of i anchors = [])
  /\ (forall l1 a l2,
        anchors = l1 ++ a :: l2 -> null_for i a = true ->
        (forall b, In b l2 -> keyed_for i b = false) ->
        component_of i anchors = []).
Proof.
  unfold component_of. split; [|split; [|split]].
  - intros a Ha.
    destruct (fold_left (component_step i) anchors None) as [h|] eqn:E; [|destruct Ha].
    destruct (component_step_held i anchors None a h E Ha) as [[h0 [H0 _]]|H];
      [discriminate | assumption].
  - intros Hnull. rewrite component_step_keyed_only by assumption.
    destruct (filter (keyed_for i) anchors); reflexivity.
  - intros Hni.
    destruct (fold_left (component_step i) anchors None) as [h|] eqn:E; [|reflexivity].
    exfalso. apply Hni.
    destruct (proj1 (component_step_observed i anchors None)) as [H|H];
      [rewrite E; discriminate | congruence | assumption].
  - intros l1 a l2 -> Hnull Hkeyed. rewrite fold_left_app. simpl.
    unfold component_step at 2. rewrite Hnull.
    rewrite component_step_after_null by assumption. reflexivity.
Qed.

Lemma ligatureMarks_of_components (anchors : list NamedAnchor.t) componentAnchors :
  componentAnchors_loop anchors [] = Ok componentAnchors ->
  ligatureMarks_of componentAnchors
  = map (fun i => component_of i anchors)
        (seq 1 (list_max (numbers_of anchors))).
Proof.
  intros H. destruct (ligatureMarks_of_spec _ _ H) as [_ [Hlen Hnth]].
  apply (nth_ext _ _ [] []).
  - rewrite Hlen, length_map, length_seq. reflexivity.
  - intros n Hn. rewrite Hlen in Hn.
    replace n with (S n - 1) by lia.
    rewrite Hnth, nth_map_seq by lia. reflexivity.
Qed.

Lemma marks_skippedb_sound (anchorLists : sdict (list NamedAnchor.t)) :
  marks_skippedb anchorLists = true ->
  forall a, In a (concat (Dict.values anchorLists)) ->
            NamedAnchor.isMark a = true ->
            NamedAnchor.markClass a = None /\ NamedAnchor.key a <> "".
Proof.
  unfold marks_skippedb. rewrite forallb_forall. intros H a Ha Hm.
  specialize (H a Ha). rewrite Hm in H. simpl in H.
  apply andb_true_iff in H. destruct H as [H1 H2]. split.
  - destruct (NamedAnchor.markClass a); [discriminate | reflexivity].
  - intros E. rewrite E in H2. discriminate.
Qed.

(** C6.  The comment of the code says that an anchor with only a number
    suffix means that the ligature component has a null anchor, and
    [componentAnchors[number] = []] empties the component; but an anchor
    with a key that comes after it is appended again.  On the ligature
    "f_i" with the anchors "_1" and "top_1", run from the glyphs through
    the steps of the writer, component 1 holds "top_1" when "_1" comes
    first and is the empty placeholder when "_1" comes last: the null
    anchor forces the placeholder in one order of the anchors only. *)
Theorem _makeMarkToLigaAttachments_null_anchor_order :
  ligature_attachments_of null_first_glyphSet tilde_markClasses
  = Ok [MarkToLigaPos "f_i"
          [[NamedAnchor.mk "top_1" 50%Q 500%Q false "top" (Some 1)
              (Some (MC_glyphs_example "MC_top" ["tildecomb"]))
              false false None]]]
  /\ ligature_attachments_of null_last_glyphSet tilde_markClasses
     = Ok [MarkToLigaPos "f_i" [[]]].
Proof. split; reflexivity. Qed.

(** The same on the anchor lists: after the null anchor "_1", "top_1" is
    what component 1 of the attachment holds. *)
Lemma null_anchor_then_keyed_anchor :
  exists null keyed,
    sget null_then_keyed "f_i" = Some [null; keyed]
    /\ NamedAnchor.key null = ""
    /\ NamedAnchor.number null = Some 1
    /\ _makeMarkToLigaAttachments [] None null_then_keyed
       = Ok [MarkToLigaPos "f_i" [[keyed]]].
Proof. do 2 eexists. repeat split; reflexivity. Qed.

(** What the component lists hold.  When no mark anchor reaches the
    writer's assertion (a mark anchor has a key and no mark class),
    [_makeMarkToLigaAttachments] returns, for every glyph that is not
    excluded and has a collected component-numbered anchor, one attachment
    whose component list spans the indices 1 to the greatest component
    number collected, and nothing else.  Component [i] holds only keyed
    anchors numbered [i]; it is all of them, in order, when the glyph has
    no null anchor for [i]; it is empty when no collected anchor is
    numbered [i]; and it is empty when a null anchor for [i] is followed by
    no keyed anchor for [i]. *)
Theorem _makeMarkToLigaAttachments_components
    (markGlyphNames : list string) (ligatureClass : option (list string))
    (anchorLists : sdict (list NamedAnchor.t)) :
  (forall a, In a (concat (Dict.values anchorLists)) ->
             NamedAnchor.isMark a = true ->
             NamedAnchor.markClass a = None /\ NamedAnchor.key a <> "") ->
  exists result_,
    _makeMarkToLigaAttachments markGlyphNames ligatureClass anchorLists
    = Ok result_
    /\ (forall glyphName anchors,
          In (glyphName, anchors) anchorLists ->
          liga_excluded markGlyphNames ligatureClass glyphName = false ->
          numbers_of anchors <> [] ->
          In (MarkToLigaPos glyphName
                (map (fun i => component_of i anchors)
                     (seq 1 (list_max (numbers_of anchors))))) result_)
    /\ (forall att, In att result_ ->
          exists glyphName anchors comps,
            att = MarkToLigaPos glyphName comps
            /\ In (glyphName, anchors) anchorLists
            /\ liga_excluded markGlyphNames ligatureClass glyphName = false
            /\ numbers_of anchors <> []
            /\ length comps = list_max (numbers_of anchors)
            /\ forall i, 1 <= i <= length comps ->
                 (forall a, In a (nth (i - 1) comps []) ->
                            In a anchors /\ keyed_for i a = true)
                 /\ ((forall a, In a anchors -> null_for i a = false) ->
                     nth (i - 1) comps [] = filter (keyed_for i) anchors)
                 /\ (~ In i (numbers_of anchors) -> nth (i - 1) comps [] = [])
                 /\ (forall l1 a l2,
                       anchors = l1 ++ a :: l2 -> null_for i a = true ->
                       (forall b, In b l2 -> keyed_for i b = false) ->
                       nth (i - 1) comps [] = [])).
Proof.
  induction anchorLists as [|[glyphName anchors] anchorLists IH]; intros Hmark.
  - exists []. simpl. split; [reflexivity|]. split; [intros g a [] | intros att []].
  - destruct IH as [rest [Hrest [Hall Honly]]].
    { intros a Ha. apply Hmark. simpl. apply in_app_iff. auto. }
    simpl. fold (liga_excluded markGlyphNames ligatureClass glyphName).
    destruct (liga_excluded markGlyphNames ligatureClass glyphName) eqn:Eex.
    + exists rest. split; [assumption|]. split.
      * intros g a [[= <- <-]|Hin] Hex Hnum; [congruence | auto].
      * intros att Hatt. destruct (Honly att Hatt) as [g [a [c [H1 [H2 H3]]]]].
        exists g, a, c. simpl. auto.
    + destruct (componentAnchors_loop_total anchors) with (componentAnchors := @nil (nat * list NamedAnchor.t))
        as [ca Hca].
      { intros a Ha. apply Hmark. simpl. apply in_app_iff. auto. }
      rewrite Hca, Hrest. simpl.
      destruct (ligatureMarks_of_spec _ _ Hca) as [Hne _].
      pose proof (ligatureMarks_of_components _ _ Hca) as Hcomps.
      eexists. split; [reflexivity|]. split.
      * intros g a [[= <- <-]|Hin] Hex Hnum.
        -- destruct (nonempty ca); [|exfalso; apply Hnum;
             destruct (numbers_of anchors); [reflexivity|];
             assert (false = true) by (apply Hne; discriminate); discriminate].
           simpl. left. rewrite Hcomps. reflexivity.
        -- destruct (nonempty ca); simpl; auto.
      * intros att Hatt.
        assert (Hcase : (nonempty ca = true
                         /\ att = MarkToLigaPos glyphName (ligatureMarks_of ca))
                        \/ In att rest).
        { destruct (nonempty ca); simpl in Hatt; [|auto].
          destruct Hatt as [<-|Hatt]; auto. }
        destruct Hcase as [[Hnon ->]|Hin].
        -- exists glyphName, anchors, (ligatureMarks_of ca).
           split; [reflexivity|]. split; [simpl; auto|]. split; [assumption|].
           split; [apply Hne; assumption|].
           rewrite Hcomps, length_map, length_seq. split; [reflexivity|].
           intros i Hi. rewrite nth_map_seq by assumption.
           apply component_of_spec.
        -- destruct (Honly att Hin) as [g [a [c [H1 [H2 H3]]]]].
           exists g, a, c. simpl. auto.
Qed.

Lemma _makeMarkToLigaAttachments_components_witness :
  exists result_,
    _makeMarkToLigaAttachments ["tildecomb"] None scenario_B = Ok result_
    /\ forall att, In att result_ ->
         exists glyphName anchors comps,
           att = MarkToLigaPos glyphName comps
           /\ In (glyphName, anchors) scenario_B
           /\ length comps = list_max (numbers_of anchors).
Proof.
  destruct (_makeMarkToLigaAttachments_components ["tildecomb"] None scenario_B)
    as [result_ [Hrun [_ Honly]]].
  - apply marks_skippedb_sound. vm_compute. reflexivity.
  - exists result_. split; [assumption|].
    intros att Hatt. destruct (Honly att Hatt) as [g [a [c [H1 [H2 [_ [_ [H3 _]]]]]]]].
    exists g, a, c. auto.
Defined.

(** Scenario B: one attachment for "f_f" with two components, each holding
    the anchor that refers to the class of "top". *)
Example _makeMarkToLigaAttachments_scenario_B :
  exists top_1 top_2,
    sget scenario_B "f_f" = Some [top_1; top_2]
    /\ _makeMarkToLigaAttachments ["tildecomb"] None scenario_B
       = Ok [MarkToLigaPos "f_f" [[top_1]; [top_2]]].
Proof. do 2 eexists. split; reflexivity. Qed.

(** The anchors of the examples are those that [NamedAnchor] builds. *)
Example NamedAnchor_null_anchor :
  NamedAnchor.__init__ "_1" 0%Q 0%Q None None
  = Ok (NamedAnchor.mk "_1" 0%Q 0%Q false "" (Some 1) None false false None).
Proof. reflexivity. Qed.

(** ** The anchor collector *)

Section CollectorFacts.
Variable _getAnchor : string -> string -> UFOAnchor.t -> Coord * Coord.
Variable glyphName : string.
Variable objectLibs : option (sdict LibData).

Local Abbreviation collect := (collect_anchor _getAnchor glyphName).
Local Abbreviation loop := (anchorDict_loop _getAnchor glyphName objectLibs).
Local Abbreviation step := (retained_step _getAnchor glyphName objectLibs).

Lemma collect_anchor_name n r a :
  collect n objectLibs r = Ok a -> NamedAnchor.name a = n.
Proof.
  unfold collect_anchor. destruct (_getAnchor glyphName n r) as [x y].
  unfold NamedAnchor.__init__. intros H.
  inv_bind H as p Hp. destruct p as [[[[isMark key] number] ctx] ign].
  inv_bind H as u Hu. injection H as <-. reflexivity.
Qed.

Lemma anchorDict_loop_get (raws : list UFOAnchor.t) :
  forall d log d' log',
    loop raws d log = Ok (d', log') ->
    forall n, sget d' n = fold_left (step n) raws (sget d n).
Proof.
  induction raws as [|r raws IH]; intros d log d' log' H n; simpl in H.
  - injection H as <- _. reflexivity.
  - simpl. unfold retained_step at 2.
    destruct (UFOAnchor.name r) as [m|]; [|eapply IH; eassumption].
    destruct (PyStr.truthy m) eqn:Et; simpl in H.
    2:{ rewrite andb_false_r. eapply IH; eassumption. }
    rewrite andb_true_r. inv_bind H as a Ha. rewrite Ha.
    destruct (NamedAnchor.isIgnorable a).
    + rewrite (IH _ _ _ _ H n). destruct (m =? n)%string; reflexivity.
    + rewrite (IH _ _ _ _ H n). destruct (String.eqb_spec m n) as [->|Hne].
      * rewrite sget_set_same. reflexivity.
      * rewrite sget_set_other by congruence. reflexivity.
Qed.

Lemma collect_anchor_nonempty n r a : collect n objectLibs r = Ok a -> n <> "".
Proof.
  intros H ->. unfold collect_anchor in H.
  destruct (_getAnchor glyphName "" r) as [x y]. discriminate.
Qed.

Lemma builds_or_keeps n r :
  (exists a, builds _getAnchor glyphName objectLibs n r a)
  \/ keeps _getAnchor glyphName objectLibs n r.
Proof.
  unfold builds, keeps.
  destruct (UFOAnchor.name r) as [m|] eqn:En; [|right; intros a E; discriminate].
  destruct (String.eqb_spec m n) as [->|Hne];
    [|right; intros a E; congruence].
  destruct (collect n objectLibs r) as [a|e] eqn:Ec;
    [|right; intros a _ E; congruence].
  destruct (NamedAnchor.isIgnorable a) eqn:Ei.
  - right. intros a' _ E. congruence.
  - left. exists a. repeat split; try assumption.
    eapply collect_anchor_nonempty. eassumption.
Qed.

Lemma retained_step_builds n held r a :
  builds _getAnchor glyphName objectLibs n r a -> step n held r = Some a.
Proof.
  unfold retained_step. intros [Hn [Hne [Hc Hi]]]. rewrite Hn, String.eqb_refl.
  destruct n; [congruence|]. simpl. rewrite Hc, Hi. reflexivity.
Qed.

Lemma retained_step_keeps n held r :
  keeps _getAnchor glyphName objectLibs n r -> step n held r = held.
Proof.
  unfold retained_step, keeps. intros Hk.
  destruct (UFOAnchor.name r) as [m|]; [|reflexivity].
  destruct (String.eqb_spec m n) as [->|Hne]; simpl; [|reflexivity].
  destruct (PyStr.truthy n); [|reflexivity].
  destruct (collect n objectLibs r) as [a0|e]; [|reflexivity].
  rewrite (Hk a0 eq_refl eq_refl). reflexivity.
Qed.

Lemma fold_keeps n (raws : list UFOAnchor.t) held :
  (forall r, In r raws -> keeps _getAnchor glyphName objectLibs n r) ->
  fold_left (step n) raws held = held.
Proof.
  revert held. induction raws as [|r raws IH]; intros held Hk; simpl; [reflexivity|].
  rewrite retained_step_keeps by (apply Hk; simpl; auto).
  apply IH. intros r' Hr'. apply Hk. simpl. auto.
Qed.

Lemma fold_retained (raws : list UFOAnchor.t) :
  forall n held a,
    fold_left (step n) raws held = Some a ->
    (held = Some a
     /\ forall r, In r raws -> keeps _getAnchor glyphName objectLibs n r)
    \/ exists l1 r l2,
         raws = l1 ++ r :: l2
         /\ builds _getAnchor glyphName objectLibs n r a
         /\ forall r', In r' l2 -> keeps _getAnchor glyphName objectLibs n r'.
Proof.
  induction raws as [|r0 raws IH]; intros n held a H; simpl in H.
  - left. split; [assumption | intros r []].
  - destruct (IH _ _ _ H) as [[Hheld Hlater]|[l1 [r [l2 [-> [Hb Hl]]]]]].
    + destruct (builds_or_keeps n r0) as [[a0 Hb]|Hk].
      * right. exists [], r0, raws. split; [reflexivity|].
        rewrite (retained_step_builds n held r0 a0 Hb) in Hheld.
        injection Hheld as ->. auto.
      * left. rewrite (retained_step_keeps n held r0 Hk) in Hheld.
        split; [assumption|]. intros r [<-|Hr]; auto.
    + right. exists (r0 :: l1), r, l2. auto.
Qed.

Lemma fold_retained_conv n (l1 l2 : list UFOAnchor.t) r a held :
  builds _getAnchor glyphName objectLibs n r a ->
  (forall r', In r' l2 -> keeps _getAnchor glyphName objectLibs n r') ->
  fold_left (step n) (l1 ++ r :: l2) held = Some a.
Proof.
  intros Hb Hk. rewrite fold_left_app. simpl.
  rewrite (retained_step_builds _ _ _ _ Hb). apply fold_keeps. assumption.
Qed.


Lemma smem_set {V : Type} (d : sdict V) k v k' :
  smem (sset d k v) k' = true <-> k' = k \/ smem d k' = true.
Proof.
  unfold Dict.mem. destruct (String.eqb_spec k' k) as [->|Hne].
  - rewrite sget_set_same. tauto.
  - rewrite sget_set_other by assumption. tauto.
Qed.

(** One round of the loop over the anchors of a glyph. *)
Lemma anchorDict_loop_round r raws d log d' log' :
  loop (r :: raws) d log = Ok (d', log') ->
  exists d1 log1,
    loop raws d1 log1 = Ok (d', log')
    /\ (forall w, In w log -> In w log1)
    /\ (forall k, smem d k = true -> smem d1 k = true)
    /\ (NoDup (Dict.keys d) -> NoDup (Dict.keys d1))
    /\ (truthy_opt (UFOAnchor.name r) = false ->
        In (unnamed_anchor_discarded glyphName) log1)
    /\ (forall n a, builds _getAnchor glyphName objectLibs n r a ->
                    smem d1 n = true)
    /\ (forall n, UFOAnchor.name r = Some n -> n <> "" -> smem d n = true ->
                  In (duplicate_anchor n glyphName) log1).
Proof.
  simpl. unfold builds. destruct (UFOAnchor.name r) as [m|] eqn:En.
  - destruct (PyStr.truthy m) eqn:Et; simpl.
    + intros H. inv_bind H as a Ha.
      assert (Hlog : forall w, In w log ->
                In w (if smem d m
                      then log ++ [duplicate_anchor m glyphName] else log)).
      { intros w Hw. destruct (smem d m); [apply in_app_iff|]; auto. }
      assert (Hdup : forall n, Some m = Some n -> n <> "" -> smem d n = true ->
                In (duplicate_anchor n glyphName)
                   (if smem d m
                    then log ++ [duplicate_anchor m glyphName] else log)).
      { intros n [= ->] _ Hm. rewrite Hm. apply in_app_iff. simpl. auto. }
      destruct (NamedAnchor.isIgnorable a) eqn:Ei.
      * eexists _, _. split; [exact H|].
        split; [exact Hlog|]. split; [auto|]. split; [auto|].
        split; [intros E; rewrite E in Et; discriminate|].
        split; [|exact Hdup].
        intros n a0 [[= ->] [_ [Hc Hi]]]. congruence.
      * eexists _, _. split; [exact H|].
        split; [exact Hlog|].
        split; [intros k Hk; apply smem_set; auto|].
        split; [apply sNoDup_keys_set|].
        split; [intros E; rewrite E in Et; discriminate|].
        split; [|exact Hdup].
        intros n a0 [[= ->] _]. apply smem_set. auto.
    + intros H. eexists _, _. split; [exact H|].
      split; [intros w Hw; apply in_app_iff; auto|].
      split; [auto|]. split; [auto|].
      split; [intros _; apply in_app_iff; simpl; auto|].
      split.
      * intros n a [[= ->] [Hne _]]. destruct n; [congruence | discriminate].
      * intros n [= ->] Hne. destruct n; [congruence | discriminate].
  - intros H. eexists _, _. split; [exact H|].
    split; [intros w Hw; apply in_app_iff; auto|].
    split; [auto|]. split; [auto|].
    split; [intros _; apply in_app_iff; simpl; auto|].
    split.
    + intros n a [Hn _]. discriminate.
    + intros n Hn. discriminate.
Qed.

Lemma anchorDict_loop_log (raws : list UFOAnchor.t) :
  forall d log d' log',
    loop raws d log = Ok (d', log') ->
    (forall w, In w log -> In w log')
    /\ (forall k, smem d k = true -> smem d' k = true)
    /\ (NoDup (Dict.keys d) -> NoDup (Dict.keys d'))
    /\ (forall r, In r raws -> truthy_opt (UFOAnchor.name r) = false ->
                  In (unnamed_anchor_discarded glyphName) log')
    /\ (forall l1 r l2 n,
          raws = l1 ++ r :: l2 -> UFOAnchor.name r = Some n -> n <> "" ->
          (smem d n = true
           \/ exists r1 a1, In r1 l1
                            /\ builds _getAnchor glyphName objectLibs n r1 a1) ->
          In (duplicate_anchor n glyphName) log').
Proof.
  induction raws as [|r0 raws IH]; intros d log d' log' H.
  - simpl in H. injection H as <- <-. repeat split; auto.
    + intros r [].
    + intros l1 r l2 n E. destruct l1; discriminate.
  - destruct (anchorDict_loop_round _ _ _ _ _ _ H)
      as [d1 [log1 [H1 [Hlog [Hmem [Hnd [Hun [Hb Hdup]]]]]]]].
    destruct (IH _ _ _ _ H1) as [Ilog [Imem [Ind [Iun Idup]]]].
    repeat split; auto.
    + intros r [<-|Hr] Hn; [auto | eauto].
    + intros l1 r l2 n E Hn Hne Hprev.
      destruct l1 as [|r1 l1]; simpl in E; injection E as <- ->.
      * destruct Hprev as [Hm|[r1 [a1 [[] _]]]]. auto.
      * apply (Idup l1 r l2 n eq_refl Hn Hne).
        destruct Hprev as [Hm|[r' [a' [[<-|Hin] Hbuild]]]]; [left; auto | left; eauto |].
        right. eauto.
Qed.

(** The anchors of a glyph after the loop: the last kept anchor of each
    name. *)
Lemma anchorDict_loop_retained raws log d' log' :
  loop raws [] log = Ok (d', log') ->
  NoDup (map NamedAnchor.name (Dict.values d'))
  /\ forall a, In a (Dict.values d')
               <-> retained_from _getAnchor glyphName objectLibs raws a.
Proof.
  intros H. pose proof (anchorDict_loop_get _ _ _ _ _ H) as Hget.
  destruct (anchorDict_loop_log _ _ _ _ _ H) as [_ [_ [Hnd _]]].
  specialize (Hnd (NoDup_nil _)).
  assert (Hentry : forall n a, In (n, a) d' ->
                     NamedAnchor.name a = n
                     /\ retained_from _getAnchor glyphName objectLibs raws a).
  { intros n a Hin. apply sIn_get in Hin; [|assumption].
    rewrite Hget in Hin. simpl in Hin.
    destruct (fold_retained _ _ _ _ Hin) as [[E _]|[l1 [r [l2 [E [Hb Hk]]]]]];
      [discriminate|].
    assert (Hname : NamedAnchor.name a = n).
    { destruct Hb as [_ [_ [Hc _]]]. eapply collect_anchor_name. eassumption. }
    split; [assumption|]. rewrite <- Hname in Hb, Hk. exists l1, r, l2. auto. }
  split.
  - assert (E : map NamedAnchor.name (Dict.values d') = Dict.keys d').
    { unfold Dict.values, Dict.keys. rewrite map_map. apply map_ext_in.
      intros [n a] Hin. simpl. apply (Hentry n a Hin). }
    rewrite E. assumption.
  - intros a. split.
    + intros Hin. apply in_map_iff in Hin. destruct Hin as [[n a'] [<- Hin]].
      simpl. apply (Hentry n a' Hin).
    + intros [l1 [r [l2 [-> [Hb Hk]]]]].
      pose proof (fold_retained_conv (NamedAnchor.name a) l1 l2 r a None Hb Hk) as Hf.
      specialize (Hget (NamedAnchor.name a)). simpl in Hget. rewrite Hf in Hget.
      apply sget_Some_In in Hget. apply in_map_iff. exists (NamedAnchor.name a, a). auto.
Qed.

End CollectorFacts.

Lemma anchorLists_loop_spec _getAnchor include (glyphSet : list (string * Glyph.t)) :
  forall res log res' log',
    NoDup (Dict.keys glyphSet) ->
    (forall g, In g (Dict.keys glyphSet) -> sget res g = None) ->
    anchorLists_loop _getAnchor include glyphSet res log = Ok (res', log') ->
    (forall w, In w log -> In w log')
    /\ (forall g, ~ In g (Dict.keys glyphSet) -> sget res' g = sget res g)
    /\ forall g glyph,
         In (g, glyph) glyphSet ->
         match include with Some inc => str_in g inc | None => true end = true ->
         exists d logA logB,
           anchorDict_loop _getAnchor g (Glyph.objectLibs glyph)
                           (Glyph.anchors glyph) [] logA = Ok (d, logB)
           /\ (forall w, In w logB -> In w log')
           /\ sget res' g = if nonempty d then Some (Dict.values d) else None.
Proof.
  induction glyphSet as [|[g0 glyph0] glyphSet IH];
    intros res log res' log' Hnd Hfresh H; simpl in H.
  - injection H as <- <-. split; [auto|]. split; [auto|]. intros g glyph [].
  - simpl in Hnd. inversion Hnd as [|? ? Hni Hnd']; subst.
    destruct (match include with
              | Some include0 => negb (str_in g0 include0)
              | None => false
              end) eqn:Eex.
    + destruct (IH _ _ _ _ Hnd' (fun g Hg => Hfresh g (or_intror Hg)) H)
        as [Hlog [Hkeep Hglyph]].
      split; [assumption|]. split.
      * intros g Hg. apply Hkeep. intros Hin. apply Hg. simpl. auto.
      * intros g glyph [[= <- <-]|Hin] Hinc; [|auto].
        destruct include as [inc|]; [|discriminate].
        rewrite Hinc in Eex. discriminate.
    + inv_bind H as p Hp. destruct p as [d0 log0].
      set (res0 := if nonempty d0 then sset res g0 (Dict.values d0) else res) in H.
      assert (Hfresh0 : forall g, In g (Dict.keys glyphSet) -> sget res0 g = None).
      { intros g Hg. unfold res0. destruct (nonempty d0); [|apply Hfresh; simpl; auto].
        rewrite sget_set_other; [apply Hfresh; simpl; auto|].
        intros ->. contradiction. }
      destruct (IH _ _ _ _ Hnd' Hfresh0 H) as [Hlog [Hkeep Hglyph]].
      destruct (anchorDict_loop_log _ _ _ _ _ _ _ _ Hp) as [Hlog0 _].
      split; [auto|]. split.
      * intros g Hg. rewrite Hkeep by (intros Hin; apply Hg; simpl; auto).
        unfold res0. destruct (nonempty d0); [|reflexivity].
        apply sget_set_other. intros ->. apply Hg. simpl. auto.
      * intros g glyph [[= <- <-]|Hin] Hinc; [|auto].
        exists d0, log, log0. split; [assumption|]. split; [assumption|].
        rewrite Hkeep by assumption. unfold res0.
        destruct (nonempty d0); [apply sget_set_same|].
        apply Hfresh. simpl. auto.
Qed.

Lemma str_in_app x (s1 s2 : list string) :
  str_in x (s1 ++ s2) = str_in x s1 || str_in x s2.
Proof. unfold str_in. apply existsb_app. Qed.

(** C8, as stated, fails: of the two anchors named "top" the later one,
    at (120, 520), is the one in the anchor list of the glyph. *)
Lemma duplicate_anchor_later_wins :
  _getAnchorLists plain_getAnchor (GDEFClasses.mk None None None) duplicate_top
  = Ok ([("a", [NamedAnchor.mk "top" 120%Q 520%Q false "top" None None
                               false false None])],
        [unnamed_anchor_discarded "a"; duplicate_anchor "top" "a"]).
Proof. reflexivity. Qed.

(** C8, amended.  For a glyph that [_getAnchorLists] considers, the anchor
    list of the glyph has one anchor per name and holds exactly the
    anchors built from the last UFO anchor of each name that is kept,
    that is, not followed by an anchor of the same name that is not
    ignorable: the later occurrence of a duplicate replaces the earlier
    one.  No anchor of the list is unnamed; every unnamed UFO anchor is
    reported with a warning, and so is every UFO anchor whose name is that
    of an earlier kept anchor of the glyph. *)
Theorem _getAnchorLists_duplicates
    (_getAnchor : string -> string -> UFOAnchor.t -> Coord * Coord)
    (gdefClasses : GDEFClasses.t) (glyphSet : list (string * Glyph.t))
    (anchorLists : sdict (list NamedAnchor.t)) (log : list warning) :
  NoDup (Dict.keys glyphSet) ->
  _getAnchorLists _getAnchor gdefClasses glyphSet = Ok (anchorLists, log) ->
  forall glyphName glyph,
    In (glyphName, glyph) glyphSet ->
    gdef_included gdefClasses glyphName = true ->
    let anchors := match sget anchorLists glyphName with
                   | Some l => l
                   | None => []
                   end in
    NoDup (map NamedAnchor.name anchors)
    /\ (forall a, In a anchors <->
                  retained_from _getAnchor glyphName (Glyph.objectLibs glyph)
                                (Glyph.anchors glyph) a)
    /\ (forall a, In a anchors -> NamedAnchor.name a <> "")
    /\ (forall r, In r (Glyph.anchors glyph) ->
                  truthy_opt (UFOAnchor.name r) = false ->
                  In (unnamed_anchor_discarded glyphName) log)
    /\ (forall l1 r1 l2 r2 l3 n a1,
          Glyph.anchors glyph = l1 ++ r1 :: l2 ++ r2 :: l3 ->
          builds _getAnchor glyphName (Glyph.objectLibs glyph) n r1 a1 ->
          UFOAnchor.name r2 = Some n ->
          In (duplicate_anchor n glyphName) log).
Proof.
  intros Hnd H glyphName glyph Hin Hinc. unfold _getAnchorLists in H.
  inv_bind H as include Hinclude.
  destruct (anchorLists_loop_spec _getAnchor include glyphSet [] [] anchorLists
              log Hnd (fun g _ => eq_refl) H) as [_ [_ Hglyph]].
  destruct (Hglyph glyphName glyph Hin) as [d [logA [logB [Hloop [Hlog Hget]]]]].
  { unfold gdef_included in Hinc.
    destruct (GDEFClasses.base gdefClasses) as [b|]; [|injection Hinclude as <-; reflexivity].
    destruct (GDEFClasses.ligature gdefClasses) as [l|]; [|discriminate].
    destruct (GDEFClasses.mark gdefClasses) as [m|]; [|discriminate].
    simpl in Hinclude. injection Hinclude as <-.
    rewrite !str_in_app. assumption. }
  destruct (anchorDict_loop_retained _ _ _ _ _ _ _ Hloop) as [Hnames Hret].
  destruct (anchorDict_loop_log _ _ _ _ _ _ _ _ Hloop) as [_ [_ [_ [Hun Hdup]]]].
  assert (Hanchors : match sget anchorLists glyphName with
                     | Some l => l
                     | None => []
                     end = Dict.values d).
  { rewrite Hget. destruct d; reflexivity. }
  simpl. rewrite Hanchors.
  split; [assumption|]. split; [assumption|]. split; [|split].
  - intros a Ha. apply Hret in Ha. destruct Ha as [l1 [r [l2 [_ [[_ [Hne _]] _]]]]].
    assumption.
  - intros r Hr Hn. apply Hlog. eapply Hun; eassumption.
  - intros l1 r1 l2 r2 l3 n a1 E Hb Hn. apply Hlog.
    apply (Hdup (l1 ++ r1 :: l2) r2 l3 n).
    + rewrite E, <- app_assoc. reflexivity.
    + assumption.
    + destruct Hb as [_ [Hne _]]. assumption.
    + right. exists r1, a1. split; [apply in_app_iff; simpl; auto | assumption].
Qed.

Lemma _getAnchorLists_duplicates_witness :
  let anchors := [NamedAnchor.mk "top" 120%Q 520%Q false "top" None None
                                 false false None] in
  NoDup (map NamedAnchor.name anchors)
  /\ (forall a, In a anchors <->
                retained_from plain_getAnchor "a" None
                  [UFOAnchor.mk (Some "top") 100%Q 500%Q None;
                   UFOAnchor.mk None 0%Q 0%Q None;
                   UFOAnchor.mk (Some "top") 120%Q 520%Q None] a).
Proof.
  assert (Hnd : NoDup (Dict.keys duplicate_top))
    by (constructor; [simpl; tauto | constructor]).
  destruct (_getAnchorLists_duplicates plain_getAnchor
              (GDEFClasses.mk None None None) duplicate_top
              [("a", [NamedAnchor.mk "top" 120%Q 520%Q false "top" None None
                                     false false None])]
              [unnamed_anchor_discarded "a"; duplicate_anchor "top" "a"]
              Hnd eq_refl "a" _ (or_introl eq_refl) eq_refl) as [H1 [H2 _]].
  split; assumption.
Defined.

(** * Further properties of the code *)

(** ** Graph colouring *)

Lemma below_all_in_bound (colorSet : list nat) (c : nat) :
  (forall c', c' < c -> In c' colorSet) -> c <= length colorSet.
Proof.
  intros H.
  assert (Hincl : incl (seq 0 c) colorSet).
  { intros x Hx. apply in_seq in Hx. apply H. lia. }
  apply NoDup_incl_length in Hincl; [|apply seq_NoDup].
  rewrite length_seq in Hincl. assumption.
Qed.

(** X1.  [firstAvailable] returns for every set of colours (its loop stops
    within one round more than the set has elements); what it returns is
    the smallest natural number that is not in the set, and it is at most
    the number of elements of the set. *)
Theorem firstAvailable_smallest_free (colorSet : list nat) :
  exists c,
    firstAvailable colorSet = Ok c
    /\ ~ In c colorSet
    /\ (forall c', ~ In c' colorSet -> c <= c')
    /\ c <= length colorSet.
Proof.
  destruct (firstAvailable_spec colorSet) as [c [Hrun [Hfree Hbelow]]].
  exists c. split; [assumption|]. split; [assumption|]. split.
  - intros c' Hc'. destruct (Nat.le_gt_cases c c') as [|Hlt]; [assumption|].
    exfalso. apply Hc'. apply Hbelow. assumption.
  - apply below_all_in_bound. assumption.
Qed.

Lemma firstAvailable_ext (s s' : list nat) :
  (forall c, In c s <-> In c s') -> firstAvailable s = firstAvailable s'.
Proof.
  intros H.
  destruct (firstAvailable_spec s) as [c [-> [Hfree Hbelow]]].
  destruct (firstAvailable_spec s') as [c' [-> [Hfree' Hbelow']]].
  f_equal. apply Nat.le_antisymm.
  - destruct (Nat.le_gt_cases c c') as [|Hlt]; [assumption|].
    exfalso. apply Hfree'. apply H. apply Hbelow. assumption.
  - destruct (Nat.le_gt_cases c' c) as [|Hlt]; [assumption|].
    exfalso. apply Hfree. apply H. apply Hbelow'. assumption.
Qed.

Lemma usedNeighbourColors_length (colors : sdict nat) (neighbours : list string) :
  length (usedNeighbourColors colors neighbours) <= length neighbours.
Proof.
  unfold usedNeighbourColors. induction neighbours as [|v l IH]; simpl; [lia|].
  rewrite length_app. destruct (sget colors v); simpl; lia.
Qed.

Lemma degree_le_max (adjacency : sdict (list string)) v nv :
  sget adjacency v = Some nv -> length nv <= max_degree adjacency.
Proof.
  intros H. apply sget_Some_In in H. unfold max_degree.
  assert (Hle := proj1 (list_max_le (map (fun item => length (snd item)) adjacency)
                          (list_max (map (fun item => length (snd item)) adjacency)))
                       (Nat.le_refl _)).
  rewrite Forall_forall in Hle. apply Hle.
  apply in_map_iff. exists (v, nv). auto.
Qed.

(** The colouring loop returns when the nodes are keys, and no colour
    exceeds the greatest number of neighbours. *)
Lemma colorGraph_colors_bound (adjacency : sdict (list string)) :
  forall nodes colors,
    (forall n, In n nodes -> In n (Dict.keys adjacency)) ->
    (forall v c, In (v, c) colors -> c <= max_degree adjacency) ->
    exists colors',
      colorGraph_colors adjacency nodes colors = Ok colors'
      /\ forall v c, In (v, c) colors' -> c <= max_degree adjacency.
Proof.
  intros nodes. induction nodes as [|node nodes IH]; intros colors Hkey Hb; simpl.
  - eauto.
  - destruct (sIn_keys_get adjacency node) as [nb Hnb]; [apply Hkey; simpl; auto|].
    unfold Dict.item. rewrite Hnb. simpl.
    destruct (firstAvailable_spec (usedNeighbourColors colors nb))
      as [c [-> [_ Hbelow]]].
    apply below_all_in_bound in Hbelow. rename Hbelow into Hle.
    simpl. apply IH.
    + intros n Hn. apply Hkey. simpl. auto.
    + intros v c' Hin. apply sIn_set in Hin. destruct Hin as [[-> ->]|Hin]; [|eauto].
      pose proof (usedNeighbourColors_length colors nb).
      pose proof (degree_le_max adjacency node nb Hnb). lia.
Qed.

(** X2.  [colorGraph] returns for every adjacency dict, symmetric or not,
    and uses at most one group more than the greatest number of neighbours
    listed for a vertex. *)
Theorem colorGraph_groups_bound (adjacency : sdict (list string)) :
  exists groups,
    colorGraph adjacency = Ok groups
    /\ length groups <= S (max_degree adjacency).
Proof.
  unfold colorGraph.
  destruct (colorGraph_colors_bound adjacency
              (sorted String.leb (Dict.keys adjacency)) [])
    as [colors [-> Hb]].
  - intros n Hn. apply sorted_In in Hn. assumption.
  - intros v c [].
  - simpl. eexists. split; [reflexivity|].
    destruct (colorGraph_groups_spec colors [] (NoDup_nil _) (Forall_nil _))
      as [Hnd [Hne [_ Hfrom]]].
    unfold Dict.values. rewrite length_map.
    rewrite <- (length_map fst). fold (Dict.keys (colorGraph_groups colors [])).
    replace (S (max_degree adjacency))
      with (length (seq 0 (S (max_degree adjacency)))) by apply length_seq.
    apply NoDup_incl_length; [assumption|].
    intros c Hc. apply in_map_iff in Hc. destruct Hc as [[c' g] [<- Hin]].
    apply in_seq. split; [lia|]. cbn [fst Nat.add].
    rewrite Forall_forall in Hne.
    assert (Hg : g <> []).
    { apply Hne. apply in_map_iff. exists (c', g). auto. }
    destruct g as [|v g]; [congruence|].
    destruct (Hfrom c' (v :: g) v Hin (or_introl eq_refl)) as [Hi|[g0 [[] _]]].
    apply Hb in Hi. lia.
Qed.

(** Sorting is canonical: two lists with the same elements sort alike. *)
Lemma StronglySorted_unique (l l' : list string) :
  StronglySorted (fun a b => String.leb a b = true) l ->
  StronglySorted (fun a b => String.leb a b = true) l' ->
  Permutation l l' -> l = l'.
Proof.
  revert l'. induction l as [|a l IH]; intros l' Hs Hs' Hp.
  - apply Permutation_nil in Hp. congruence.
  - destruct l' as [|b l'].
    { symmetry in Hp. apply Permutation_nil in Hp. discriminate. }
    apply StronglySorted_inv in Hs. destruct Hs as [Hs Ha].
    apply StronglySorted_inv in Hs'. destruct Hs' as [Hs' Hb].
    rewrite Forall_forall in Ha, Hb.
    assert (Eab : a = b).
    { assert (Hina : In a (b :: l')) by (eapply Permutation_in; [exact Hp | simpl; auto]).
      assert (Hinb : In b (a :: l))
        by (eapply Permutation_in; [symmetry; exact Hp | simpl; auto]).
      destruct Hina as [->|Hina]; [reflexivity|].
      destruct Hinb as [->|Hinb]; [reflexivity|].
      apply String.leb_antisym; auto. }
    subst b. f_equal. apply IH; try assumption.
    eapply Permutation_cons_inv. eassumption.
Qed.

Lemma sorted_strings_StronglySorted (l : list string) :
  StronglySorted (fun a b => String.leb a b = true) (sorted String.leb l).
Proof.
  apply Sorted_StronglySorted.
  - intros a b c. apply string_leb_trans.
  - apply sorted_Sorted. apply String.leb_total.
Qed.

Lemma sorted_strings_perm (l l' : list string) :
  Permutation l l' -> sorted String.leb l = sorted String.leb l'.
Proof.
  intros Hp. apply StronglySorted_unique; try apply sorted_strings_StronglySorted.
  rewrite !sorted_perm. assumption.
Qed.

Lemma usedNeighbourColors_ext (colors : sdict nat) (nv nv' : list string) :
  (forall u, In u nv <-> In u nv') ->
  forall c, In c (usedNeighbourColors colors nv)
            <-> In c (usedNeighbourColors colors nv').
Proof.
  intros H c. rewrite !usedNeighbourColors_In.
  split; intros [v [Hv Hc]]; exists v; (split; [apply H; assumption | assumption]).
Qed.

Lemma colorGraph_colors_same_graph (adjacency adjacency' : sdict (list string)) :
  same_graph adjacency adjacency' ->
  forall nodes colors,
    colorGraph_colors adjacency nodes colors
    = colorGraph_colors adjacency' nodes colors.
Proof.
  intros Hsame nodes. induction nodes as [|node nodes IH]; intros colors; simpl.
  - reflexivity.
  - specialize (Hsame node). unfold Dict.item.
    destruct (sget adjacency node) as [nv|], (sget adjacency' node) as [nv'|];
      try contradiction; simpl; [|reflexivity].
    rewrite (firstAvailable_ext _ _ (usedNeighbourColors_ext colors nv nv' Hsame)).
    destruct (firstAvailable (usedNeighbourColors colors nv')); simpl; [apply IH | reflexivity].
Qed.

Lemma same_graph_keys (adjacency adjacency' : sdict (list string)) :
  same_graph adjacency adjacency' ->
  forall v, In v (Dict.keys adjacency) <-> In v (Dict.keys adjacency').
Proof.
  intros Hsame v. specialize (Hsame v).
  pose proof (sget_None adjacency v) as H1. pose proof (sget_None adjacency' v) as H2.
  destruct (sget adjacency v), (sget adjacency' v); try contradiction.
  - split; intros _.
    + destruct (in_dec string_dec v (Dict.keys adjacency')) as [|Hn]; [assumption|].
      apply H2 in Hn. discriminate.
    + destruct (in_dec string_dec v (Dict.keys adjacency)) as [|Hn]; [assumption|].
      apply H1 in Hn. discriminate.
  - split; intros Hin; exfalso; [apply (proj1 H1) | apply (proj1 H2)]; auto.
Qed.

(** X3.  The result of [colorGraph] does not depend on the order in which
    the vertices were inserted in the adjacency dict nor on the order (or
    repetition) of the neighbours: two dicts that describe the same graph
    give the same groups, in the same order. *)
Theorem colorGraph_reproducible (adjacency adjacency' : sdict (list string)) :
  NoDup (Dict.keys adjacency) -> NoDup (Dict.keys adjacency') ->
  same_graph adjacency adjacency' ->
  colorGraph adjacency = colorGraph adjacency'.
Proof.
  intros Hnd Hnd' Hsame. unfold colorGraph.
  rewrite (sorted_strings_perm (Dict.keys adjacency) (Dict.keys adjacency')).
  - rewrite (colorGraph_colors_same_graph _ _ Hsame). reflexivity.
  - apply NoDup_Permutation; try assumption. apply same_graph_keys. assumption.
Qed.

Lemma same_graph_checked (adjacency adjacency' : sdict (list string)) :
  forallb (fun v =>
             match sget adjacency v, sget adjacency' v with
             | Some nv, Some nv' =>
                 forallb (fun u => str_in u nv') nv
                 && forallb (fun u => str_in u nv) nv'
             | None, None => true
             | _, _ => false
             end) (Dict.keys adjacency ++ Dict.keys adjacency') = true ->
  same_graph adjacency adjacency'.
Proof.
  rewrite forallb_forall. intros H v.
  destruct (in_dec string_dec v (Dict.keys adjacency ++ Dict.keys adjacency'))
    as [Hin|Hni].
  - specialize (H v Hin).
    destruct (sget adjacency v) as [nv|], (sget adjacency' v) as [nv'|];
      try discriminate; [|exact I].
    apply andb_true_iff in H. destruct H as [H1 H2].
    rewrite forallb_forall in H1, H2.
    intros u. split; intros Hu; apply str_in_In; auto.
  - assert (H1 : sget adjacency v = None)
      by (apply sget_None; intros Hk; apply Hni, in_app_iff; auto).
    assert (H2 : sget adjacency' v = None)
      by (apply sget_None; intros Hk; apply Hni, in_app_iff; auto).
    rewrite H1, H2. exact I.
Qed.

Lemma colorGraph_reproducible_witness :
  colorGraph [("b", ["a"; "c"]); ("a", ["b"]); ("c", ["b"])]
  = colorGraph [("c", ["b"; "b"]); ("a", ["b"]); ("b", ["c"; "a"])].
Proof.
  apply colorGraph_reproducible.
  - simpl. repeat (constructor; [simpl; intuition discriminate|]). constructor.
  - simpl. repeat (constructor; [simpl; intuition discriminate|]). constructor.
  - apply same_graph_checked. vm_compute. reflexivity.
Defined.

(** ** Anchor names *)

Lemma string_app_assoc (a b c : string) :
  ((a ++ b) ++ c)%string = (a ++ (b ++ c))%string.
Proof. induction a as [|x a IH]; simpl; [reflexivity | f_equal; exact IH]. Qed.

Lemma string_app_nil_r (a : string) : (a ++ "")%string = a.
Proof. induction a as [|x a IH]; simpl; [reflexivity | f_equal; exact IH]. Qed.

Lemma rev_onto_app (s acc : string) :
  PyStr.rev_onto s acc = (PyStr.rev s ++ acc)%string.
Proof.
  revert acc. induction s as [|c s IH]; intros acc; simpl; [reflexivity|].
  unfold PyStr.rev. simpl. rewrite IH, (IH (String c EmptyString)).
  rewrite string_app_assoc. reflexivity.
Qed.

Lemma rev_cons (c : ascii) (s : string) :
  PyStr.rev (String c s) = (PyStr.rev s ++ String c EmptyString)%string.
Proof. unfold PyStr.rev at 1. simpl. apply rev_onto_app. Qed.

Lemma rev_app (a b : string) :
  PyStr.rev (a ++ b) = (PyStr.rev b ++ PyStr.rev a)%string.
Proof.
  induction a as [|c a IH]; simpl.
  - rewrite string_app_nil_r. reflexivity.
  - rewrite !rev_cons, IH, string_app_assoc. reflexivity.
Qed.

Lemma rev_involutive (s : string) : PyStr.rev (PyStr.rev s) = s.
Proof.
  induction s as [|c s IH]; [reflexivity|].
  rewrite rev_cons, rev_app, IH. reflexivity.
Qed.

Lemma string_forallb_app f (a b : string) :
  string_forallb f (a ++ b) = string_forallb f a && string_forallb f b.
Proof.
  induction a as [|c a IH]; simpl; [reflexivity|].
  rewrite IH, andb_assoc. reflexivity.
Qed.

Lemma string_forallb_rev f (s : string) :
  string_forallb f (PyStr.rev s) = string_forallb f s.
Proof.
  induction s as [|c s IH]; [reflexivity|].
  rewrite rev_cons, string_forallb_app, IH. simpl.
  rewrite andb_true_r. apply andb_comm.
Qed.

Lemma string_forallb_impl (f g : ascii -> bool) (s : string) :
  (forall c, PyStr.contains c s = true -> f c = true -> g c = true) ->
  string_forallb f s = true -> string_forallb g s = true.
Proof.
  induction s as [|c s IH]; simpl; [reflexivity|].
  intros H Hf. apply andb_true_iff in Hf. destruct Hf as [Hc Hs].
  apply andb_true_iff. split.
  - apply H; [|assumption]. rewrite Ascii.eqb_refl. reflexivity.
  - apply IH; [|assumption]. intros c' Hin. apply H. rewrite Hin.
    apply orb_true_r.
Qed.

Lemma span_digits_all (ds : string) :
  string_forallb PyStr.isdigit ds = true ->
  PyStr.span_digits ds = (ds, EmptyString).
Proof.
  induction ds as [|c ds IH]; simpl; [reflexivity|].
  intros H. apply andb_true_iff in H. destruct H as [Hc Hs].
  rewrite Hc, (IH Hs). reflexivity.
Qed.

Lemma match_digits_eos_digits (ds : string) :
  digits ds = true -> PyStr.match_digits_eos ds = Some ds.
Proof.
  unfold digits, PyStr.match_digits_eos. intros H.
  apply andb_true_iff in H. destruct H as [Ht Hd].
  rewrite (span_digits_all ds Hd), Ht. reflexivity.
Qed.

Lemma span_digits_before_separator (q tail : string) :
  exists q1 q2,
    PyStr.span_digits (q ++ String "_" tail)
    = (q1, (q2 ++ String "_" tail)%string).
Proof.
  induction q as [|c q IH]; simpl.
  - exists EmptyString, EmptyString. reflexivity.
  - destruct (PyStr.isdigit c).
    + destruct IH as [q1 [q2 ->]]. exists (String c q1), q2. reflexivity.
    + exists EmptyString, (String c q). reflexivity.
Qed.

Lemma match_digits_eos_before_separator (q ds : string) :
  PyStr.truthy ds = true ->
  PyStr.match_digits_eos (q ++ String "_" ds) = None.
Proof.
  intros Hds. unfold PyStr.match_digits_eos.
  destruct (span_digits_before_separator q ds) as [q1 [q2 ->]].
  assert (E1 : String.eqb (q2 ++ String "_" ds) EmptyString = false).
  { apply String.eqb_neq. destruct q2; discriminate. }
  assert (E2 : String.eqb (q2 ++ String "_" ds)
                          (String PyStr.newline EmptyString) = false).
  { apply String.eqb_neq. destruct q2 as [|c q2]; simpl.
    - discriminate.
    - intros [= _ E]. destruct q2; discriminate. }
  rewrite E1, E2, andb_false_r. reflexivity.
Qed.

Lemma LIGA_NUM_RE_match_eq (s : string) :
  PyStr.LIGA_NUM_RE_match s
  = match PyStr.match_digits_eos s with
    | Some ds => Some ds
    | None =>
        match s with
        | EmptyString => None
        | String c s' =>
            if Ascii.eqb c PyStr.newline then None
            else PyStr.LIGA_NUM_RE_match s'
        end
    end.
Proof. destruct s; reflexivity. Qed.

Lemma LIGA_NUM_RE_match_numbered (p ds : string) :
  no_newline p = true -> digits ds = true ->
  PyStr.LIGA_NUM_RE_match (p ++ String "_" ds) = Some ds.
Proof.
  intros Hp Hds.
  assert (Ht : PyStr.truthy ds = true)
    by (unfold digits in Hds; apply andb_true_iff in Hds; tauto).
  induction p as [|c p IH].
  - pose proof (match_digits_eos_before_separator EmptyString ds Ht) as E.
    change (EmptyString ++ String "_" ds)%string with (String "_" ds) in E |- *.
    rewrite LIGA_NUM_RE_match_eq, E.
    change (Ascii.eqb "_" PyStr.newline) with false. cbv iota.
    rewrite LIGA_NUM_RE_match_eq, (match_digits_eos_digits ds Hds).
    reflexivity.
  - unfold no_newline in Hp. simpl in Hp. apply andb_true_iff in Hp.
    destruct Hp as [Hc Hp].
    pose proof (match_digits_eos_before_separator (String c p) ds Ht) as E.
    change (String c p ++ String "_" ds)%string
      with (String c (p ++ String "_" ds)) in E |- *.
    rewrite LIGA_NUM_RE_match_eq, E.
    destruct (Ascii.eqb c PyStr.newline); [discriminate|].
    apply IH. exact Hp.
Qed.

Lemma contains_forallb (s : string) :
  string_forallb (fun c => PyStr.contains c s) s = true.
Proof.
  apply (string_forallb_impl (fun _ => true)); [auto|].
  induction s; simpl; auto.
Qed.

Lemma contains_false_forallb (f : ascii -> bool) (c : ascii) (s : string) :
  string_forallb f s = true -> f c = false -> PyStr.contains c s = false.
Proof.
  induction s as [|d s IH]; simpl; [reflexivity|].
  intros H Hc. apply andb_true_iff in H. destruct H as [Hd Hs].
  rewrite (IH Hs Hc), orb_false_r.
  destruct (Ascii.eqb_spec c d) as [->|]; [congruence | reflexivity].
Qed.

Lemma lstrip_stops (s1 s2 chars : string) (c0 : ascii) :
  string_forallb (fun c => PyStr.contains c chars) s1 = true ->
  PyStr.contains c0 chars = false ->
  PyStr.lstrip (s1 ++ String c0 s2) chars = String c0 s2.
Proof.
  intros H1 H0. induction s1 as [|c s1 IH]; simpl.
  - rewrite H0. reflexivity.
  - simpl in H1. apply andb_true_iff in H1. destruct H1 as [Hc H1].
    rewrite Hc. apply IH. assumption.
Qed.

Lemma rstrip_numbered (p ds : string) :
  string_forallb PyStr.isdigit ds = true ->
  PyStr.rstrip (p ++ String "_" ds) ds = (p ++ "_")%string.
Proof.
  intros Hd. unfold PyStr.rstrip.
  replace (p ++ String "_" ds)%string with ((p ++ "_") ++ ds)%string
    by (rewrite string_app_assoc; reflexivity).
  rewrite rev_app, (rev_app p "_"). simpl.
  change (PyStr.rev "_") with "_".
  rewrite lstrip_stops.
  - rewrite rev_cons, rev_involutive. reflexivity.
  - rewrite string_forallb_rev. apply contains_forallb.
  - apply (contains_false_forallb PyStr.isdigit); [assumption | reflexivity].
Qed.

Lemma startswith_app_separator (p tail : string) :
  PyStr.startswith (p ++ String "_" tail) "_" && PyStr.truthy p
  = PyStr.startswith p "_".
Proof.
  unfold PyStr.startswith.
  destruct p as [|c p]; cbn [append PyStr.truthy String.prefix].
  - apply andb_false_r.
  - rewrite andb_true_r. destruct (ascii_dec "_" c); [|reflexivity].
    destruct p; reflexivity.
Qed.

(** X4.  With the default prefix, separator and number pattern and an
    anchor that is not contextual, a name made of a key, the separator "_"
    and a non-empty run of digits parses to the key and the component
    number the digits spell, as a non-mark anchor; the key may be empty
    (the null anchor).  When the key starts with the mark prefix the name
    is rejected as a numbered mark anchor. *)
Theorem parseAnchorName_numbered (key ds : string) (libData : option LibData) :
  no_newline key = true -> digits ds = true -> hasContext libData = false ->
  parseAnchorName (key ++ String "_" ds) MARK_PREFIX LIGA_SEPARATOR
                  PyStr.LIGA_NUM_RE_match None libData
  = if PyStr.startswith key MARK_PREFIX
    then Raise (ValueError_mark_numbered (key ++ String "_" ds))
    else Ok (false, key, Some (PyStr.int ds), false, isIgnorable_of key).
Proof.
  intros Hkey Hds Hctx. unfold parseAnchorName.
  assert (Hd : string_forallb PyStr.isdigit ds = true)
    by (unfold digits in Hds; apply andb_true_iff in Hds; tauto).
  destruct (key ++ String "_" ds)%string as [|c0 rest0] eqn:Ename.
  { destruct key; discriminate. }
  rewrite Hctx, andb_false_r. rewrite <- Ename.
  rewrite (LIGA_NUM_RE_match_numbered key ds Hkey Hds).
  rewrite (rstrip_numbered key ds Hd).
  assert (Hend : PyStr.endswith (key ++ "_") LIGA_SEPARATOR = true).
  { unfold PyStr.endswith. rewrite rev_app.
    destruct (PyStr.rev key); reflexivity. }
  rewrite Hend. simpl bind.
  assert (Hdrop : PyStr.drop_last 1 (key ++ "_") = key).
  { unfold PyStr.drop_last. rewrite rev_app. simpl. apply rev_involutive. }
  rewrite Hdrop. unfold MARK_PREFIX.
  rewrite startswith_app_separator.
  destruct (PyStr.startswith key "_"); reflexivity.
Qed.

Lemma parseAnchorName_numbered_witness :
  parseAnchorName "bottom_12" MARK_PREFIX LIGA_SEPARATOR
                  PyStr.LIGA_NUM_RE_match None None
  = Ok (false, "bottom", Some 12, false, false).
Proof.
  apply (parseAnchorName_numbered "bottom" "12" None); reflexivity.
Defined.

Lemma startswith_drop (s p : string) :
  PyStr.startswith s p = true -> s = (p ++ PyStr.drop (String.length p) s)%string.
Proof.
  unfold PyStr.startswith. revert s.
  induction p as [|c p IH]; intros s H; [reflexivity|].
  destruct s as [|d s]; [discriminate|].
  cbn [String.prefix] in H. destruct (ascii_dec c d) as [->|]; [|discriminate].
  simpl. f_equal. apply IH. exact H.
Qed.

(** X5.  An anchor that [NamedAnchor.__init__] builds and that is not
    contextual keeps a name its key gives back: a mark anchor is named by
    the mark prefix followed by its key, so that its name is the
    [markAnchorName] of every anchor with the same key; and an anchor that
    is neither a mark nor numbered has its whole name as key. *)
Theorem NamedAnchor_name_of_key name x y markClass libData a :
  NamedAnchor.__init__ name x y markClass libData = Ok a ->
  NamedAnchor.isContextual a = false ->
  NamedAnchor.name a = name
  /\ (NamedAnchor.isMark a = true ->
      forall b, NamedAnchor.key b = NamedAnchor.key a ->
                NamedAnchor.markAnchorName b = name)
  /\ (NamedAnchor.isMark a = false -> NamedAnchor.number a = None ->
      NamedAnchor.key a = name).
Proof.
  unfold NamedAnchor.__init__. intros H.
  inv_bind H as [[[[isMark key] number] ctx] ign] Hp.
  inv_bind H as [] Hchk. injection H as <-. simpl. intros ->.
  split; [reflexivity|].
  unfold parseAnchorName, NamedAnchor.ignoreRE in Hp.
  destruct name as [|c0 rest0]; [discriminate|].
  destruct ((c0 =? "*")%char && hasContext libData).
  { inv_bind Hp as [key1 number1] H1. inv_bind Hp as [isMark2 key2] H2.
    discriminate. }
  inv_bind Hp as [key1 number1] H1. inv_bind Hp as [isMark2 key2] H2.
  injection Hp as -> -> -> _.
  set (nm := String c0 rest0) in *.
  destruct (NamedAnchor.ligaNumRE nm) as [num|].
  - destruct (PyStr.endswith _ _).
    + inv_bind H1 as [] Ha. injection H1 as <- <-.
      destruct (PyStr.startswith nm NamedAnchor.markPrefix && PyStr.truthy _);
        [discriminate|].
      injection H2 as <- <-. split; [discriminate|]. intros _ [=].
    + injection H1 as <- <-.
      destruct (PyStr.startswith nm NamedAnchor.markPrefix) eqn:Es;
        [destruct (PyStr.truthy nm) eqn:Et|]; cbn [andb] in H2.
      * destruct (PyStr.truthy (PyStr.drop _ nm)); [|discriminate].
        injection H2 as <- <-. split; [|discriminate].
        intros _ b Hb. unfold NamedAnchor.markAnchorName. rewrite Hb.
        symmetry. apply startswith_drop. exact Es.
      * discriminate.
      * injection H2 as <- <-. split; [discriminate | reflexivity].
  - injection H1 as <- <-.
    destruct (PyStr.startswith nm NamedAnchor.markPrefix) eqn:Es;
      [destruct (PyStr.truthy nm) eqn:Et|]; cbn [andb] in H2.
    * destruct (PyStr.truthy (PyStr.drop _ nm)); [|discriminate].
      injection H2 as <- <-. split; [|discriminate].
      intros _ b Hb. unfold NamedAnchor.markAnchorName. rewrite Hb.
      symmetry. apply startswith_drop. exact Es.
    * discriminate.
    * injection H2 as <- <-. split; [discriminate | reflexivity].
Qed.

Lemma NamedAnchor_name_of_key_witness :
  exists a b,
    NamedAnchor.__init__ "_top" 0%Q 0%Q None None = Ok a
    /\ NamedAnchor.__init__ "top" 0%Q 0%Q None None = Ok b
    /\ NamedAnchor.markAnchorName b = "_top"
    /\ NamedAnchor.key b = "top".
Proof.
  eexists. eexists. split; [reflexivity|]. split; [reflexivity|].
  split.
  - apply (NamedAnchor_name_of_key "_top" 0%Q 0%Q None None _ eq_refl eq_refl);
      reflexivity.
  - apply (NamedAnchor_name_of_key "top" 0%Q 0%Q None None _ eq_refl eq_refl);
      reflexivity.
Defined.

(** X20.  For an anchor whose lib data carries a GPOS context, a name that
    starts with "*" is parsed as the rest of the name with everything from
    a dot on removed: when that stripped name is not empty, the result (or
    the error) is the one of parsing the stripped name without context,
    with the contextual flag set.  When the stripped name is empty, as for
    "*" or "*.alt", [NamedAnchor.__init__] fails its assertion that the key
    is not empty. *)
Theorem parseAnchorName_contextual (rest markPrefix ligaSeparator : string)
    (ligaNumRE : string -> option string) (libData : option LibData) :
  hasContext libData = true ->
  (PyStr.sub_dot_rest false rest <> "" ->
   parseAnchorName (String "*" rest) markPrefix ligaSeparator ligaNumRE
                   None libData
   = as_contextual
       (parseAnchorName (PyStr.sub_dot_rest false rest) markPrefix
                        ligaSeparator ligaNumRE None None))
  /\ (PyStr.sub_dot_rest false rest = "" ->
      forall x y markClass,
        NamedAnchor.__init__ (String "*" rest) x y markClass libData
        = Raise AssertionError).
Proof.
  intros Hctx. split.
  - intros Hne. unfold parseAnchorName. rewrite Hctx.
    change (Ascii.eqb "*" "*" && true) with true. cbv iota.
    destruct (PyStr.sub_dot_rest false rest) as [|c0 r0] eqn:Es; [congruence|].
    change (hasContext None) with false. rewrite andb_false_r. cbv iota.
    set (nm := String c0 r0).
    destruct (match ligaNumRE nm with
              | Some number =>
                  if PyStr.endswith (PyStr.rstrip nm number) ligaSeparator
                  then
                    _ <- assert (PyStr.truthy ligaSeparator) ;;
                    Ok (PyStr.drop_last (String.length ligaSeparator)
                          (PyStr.rstrip nm number),
                        Some (PyStr.int number))
                  else Ok (nm, None)
              | None => Ok (nm, None)
              end) as [[key number]|e]; [|reflexivity].
    cbn [bind].
    destruct (if PyStr.startswith nm markPrefix && PyStr.truthy key
              then
                match number with
                | Some _ => Raise (ValueError_mark_numbered nm)
                | None =>
                    if PyStr.truthy (PyStr.drop (String.length markPrefix) key)
                    then Ok (true, PyStr.drop (String.length markPrefix) key)
                    else Raise (ValueError_mark_key_nil nm)
                end
              else Ok (false, key)) as [[isMark key']|e]; reflexivity.
  - intros Hs x y markClass. unfold NamedAnchor.__init__, parseAnchorName.
    unfold NamedAnchor.ignoreRE. rewrite Hctx, Hs. reflexivity.
Qed.

Lemma parseAnchorName_contextual_witness :
  parseAnchorName "*top_2.alt" MARK_PREFIX LIGA_SEPARATOR
                  PyStr.LIGA_NUM_RE_match None
                  (Some (mkLibData (Some "a b")))
  = Ok (false, "top", Some 2, true, false)
  /\ NamedAnchor.__init__ "*.alt" 0%Q 0%Q None (Some (mkLibData (Some "a b")))
     = Raise AssertionError.
Proof.
  split.
  - rewrite (proj1 (parseAnchorName_contextual "top_2.alt" MARK_PREFIX
                      LIGA_SEPARATOR PyStr.LIGA_NUM_RE_match
                      (Some (mkLibData (Some "a b"))) eq_refl));
      [reflexivity | discriminate].
  - apply (proj2 (parseAnchorName_contextual ".alt" MARK_PREFIX
                    LIGA_SEPARATOR PyStr.LIGA_NUM_RE_match
                    (Some (mkLibData (Some "a b"))) eq_refl)).
    reflexivity.
Defined.

(** ** The anchor pairs and the pruning *)

Local Abbreviation pair_step names :=
  (fun (anchorPairs : sdict string) anchor =>
     if NamedAnchor.isMark anchor then anchorPairs
     else
       if str_in (NamedAnchor.markAnchorName anchor) names
       then sset anchorPairs (NamedAnchor.name anchor)
                 (NamedAnchor.markAnchorName anchor)
       else anchorPairs).

Local Abbreviation keep_anchor att :=
  (fun anchor =>
     negb (negb (str_in (NamedAnchor.name anchor) att)
           && PyStr.truthy (NamedAnchor.key anchor))).

Lemma smem_sset {V : Type} (d : sdict V) k v k' :
  smem (sset d k v) k' = true <-> k' = k \/ smem d k' = true.
Proof.
  unfold Dict.mem. destruct (String.eqb_spec k' k) as [->|Hne].
  - rewrite sget_set_same. tauto.
  - rewrite sget_set_other by assumption. tauto.
Qed.

Lemma markAnchorNames_of_In (anchorLists : sdict (list NamedAnchor.t)) m :
  In m (markAnchorNames_of anchorLists) <->
  exists b, In b (all_anchors anchorLists)
            /\ NamedAnchor.isMark b = true /\ NamedAnchor.name b = m.
Proof.
  unfold markAnchorNames_of, all_anchors. rewrite in_map_iff. split.
  - intros [b [E Hb]]. apply filter_In in Hb. destruct Hb. eauto.
  - intros [b [Hb [Hm E]]]. exists b. split; [assumption|].
    apply filter_In. auto.
Qed.

Lemma pairs_fold_get names l (acc : sdict string) n m :
  sget (fold_left (pair_step names) l acc) n = Some m ->
  sget acc n = Some m
  \/ exists a, In a l /\ NamedAnchor.isMark a = false
               /\ NamedAnchor.name a = n /\ NamedAnchor.markAnchorName a = m
               /\ str_in m names = true.
Proof.
  revert acc. induction l as [|x l IH]; intros acc H; simpl in H; [auto|].
  apply IH in H. destruct H as [H|[a [Ha H]]].
  - destruct (NamedAnchor.isMark x) eqn:Em; [auto|].
    destruct (str_in (NamedAnchor.markAnchorName x) names) eqn:Es; [|auto].
    destruct (String.eqb_spec n (NamedAnchor.name x)) as [->|Hne].
    + rewrite sget_set_same in H. injection H as <-.
      right. exists x. simpl. auto 10.
    + rewrite sget_set_other in H by assumption. auto.
  - right. exists a. simpl. tauto.
Qed.

Lemma pairs_fold_mem_mono names l (acc : sdict string) n :
  smem acc n = true -> smem (fold_left (pair_step names) l acc) n = true.
Proof.
  revert acc. induction l as [|x l IH]; intros acc H; simpl; [assumption|].
  apply IH. destruct (NamedAnchor.isMark x); [assumption|].
  destruct (str_in _ names); [|assumption]. apply smem_sset. auto.
Qed.

Lemma pairs_fold_mem names l (acc : sdict string) a :
  In a l -> NamedAnchor.isMark a = false ->
  str_in (NamedAnchor.markAnchorName a) names = true ->
  smem (fold_left (pair_step names) l acc) (NamedAnchor.name a) = true.
Proof.
  revert acc. induction l as [|x l IH]; intros acc Ha Hm Hs; [destruct Ha|].
  destruct Ha as [->|Ha]; simpl.
  - rewrite Hm, Hs. apply pairs_fold_mem_mono. apply smem_sset. auto.
  - apply IH; assumption.
Qed.

Lemma pairs_fold_NoDup names l (acc : sdict string) :
  NoDup (Dict.keys acc) -> NoDup (Dict.keys (fold_left (pair_step names) l acc)).
Proof.
  revert acc. induction l as [|x l IH]; intros acc H; simpl; [assumption|].
  apply IH. destruct (NamedAnchor.isMark x); [assumption|].
  destruct (str_in _ names); [|assumption]. apply sNoDup_keys_set. assumption.
Qed.

Lemma smem_In_keys {V : Type} (d : sdict V) k :
  smem d k = true <-> In k (Dict.keys d).
Proof.
  unfold Dict.mem. destruct (sget d k) eqn:E.
  - split; [|reflexivity]. intros _. apply sget_Some_In in E.
    apply (in_map fst) in E. exact E.
  - apply sget_None in E. split; [discriminate | tauto].
Qed.

(** X6.  The anchor pairs are exactly the attaching names: every entry
    pairs the name of an anchor that is not a mark with its mark anchor
    name, and that name is the name of a mark anchor of some glyph;
    conversely every anchor that is not a mark and whose mark anchor name
    names a mark anchor has an entry; and no name has two entries. *)
Theorem _getAnchorPairs_sound_complete (anchorLists : sdict (list NamedAnchor.t)) :
  (forall n m, sget (_getAnchorPairs anchorLists) n = Some m ->
     exists a b,
       In a (all_anchors anchorLists) /\ In b (all_anchors anchorLists)
       /\ NamedAnchor.isMark a = false /\ NamedAnchor.name a = n
       /\ NamedAnchor.markAnchorName a = m
       /\ NamedAnchor.isMark b = true /\ NamedAnchor.name b = m)
  /\ (forall a b,
        In a (all_anchors anchorLists) -> In b (all_anchors anchorLists) ->
        NamedAnchor.isMark a = false -> NamedAnchor.isMark b = true ->
        NamedAnchor.markAnchorName a = NamedAnchor.name b ->
        In (NamedAnchor.name a) (Dict.keys (_getAnchorPairs anchorLists)))
  /\ NoDup (Dict.keys (_getAnchorPairs anchorLists)).
Proof.
  unfold _getAnchorPairs. split; [|split].
  - intros n m H. apply pairs_fold_get in H.
    destruct H as [H|[a [Ha [Hm [Hn [Hk Hs]]]]]]; [discriminate|].
    apply str_in_In, markAnchorNames_of_In in Hs.
    destruct Hs as [b [Hb [Hbm Hbn]]]. exists a, b. auto 10.
  - intros a b Ha Hb Hma Hmb E. apply smem_In_keys.
    apply pairs_fold_mem; [exact Ha | exact Hma |].
    apply str_in_In, markAnchorNames_of_In. exists b. auto.
  - apply pairs_fold_NoDup. constructor.
Qed.

Lemma filter_idempotent {A : Type} (f : A -> bool) (l : list A) :
  filter f (filter f l) = filter f l.
Proof.
  induction l as [|a l IH]; simpl; [reflexivity|].
  destruct (f a) eqn:E; simpl; [rewrite E, IH|]; auto.
Qed.

Lemma nonempty_In {A : Type} (l : list A) (a : A) : In a l -> nonempty l = true.
Proof. destruct l; [intros [] | reflexivity]. Qed.

Lemma prune_glyphs_In att items g l :
  In (g, l) (prune_glyphs att items) <->
  exists l0, In (g, l0) items /\ l = prune_anchors att l0 /\ l <> [].
Proof.
  induction items as [|[g0 l0] items IH]; simpl.
  - split; [tauto | intros [? [[] _]]].
  - destruct (prune_anchors att l0) as [|a0 l1] eqn:E; simpl.
    + rewrite IH. split.
      * intros [l' [Hin H]]. exists l'. auto.
      * intros [l' [[[= <- <-]|Hin] [-> Hne]]]; [congruence|]. eauto.
    + split.
      * intros [[= <- <-]|H].
        -- exists l0. split; [auto|]. split; [auto | discriminate].
        -- apply IH in H. destruct H as [l' [Hin H]]. exists l'. auto.
      * intros [l' [[[= <- <-]|Hin] [-> Hne]]]; [left; congruence|].
        right. apply IH. eauto.
Qed.

Lemma prune_glyphs_idempotent att items :
  prune_glyphs att (prune_glyphs att items) = prune_glyphs att items.
Proof.
  induction items as [|[g0 l0] items IH]; [reflexivity|].
  cbn [prune_glyphs].
  assert (Hi : prune_anchors att (prune_anchors att l0) = prune_anchors att l0)
    by apply filter_idempotent.
  destruct (prune_anchors att l0) as [|a0 l1] eqn:E;
    cbn [nonempty negb prune_glyphs]; [exact IH|].
  rewrite Hi. cbn [nonempty negb]. f_equal. exact IH.
Qed.

Lemma keep_anchor_attaches (anchorPairs : sdict string) a :
  keep_anchor (attachingAnchorNames anchorPairs) a = true <->
  attaches anchorPairs a \/ NamedAnchor.key a = "".
Proof.
  unfold attaches, attachingAnchorNames.
  rewrite <- in_app_iff, <- str_in_In.
  destruct (str_in _ _); simpl.
  - tauto.
  - destruct (NamedAnchor.key a); simpl.
    + tauto.
    + split; [discriminate | intros [?|?]; discriminate].
Qed.

(** X7.  After [_pruneUnusedAnchors] every anchor left either attaches
    (its name is one side of an anchor pair) or has the empty key, and no
    glyph is left with an empty anchor list; no such anchor is lost: an
    anchor of a glyph that attaches or has the empty key is still an anchor
    of that glyph; and pruning a second time changes nothing. *)
Theorem _pruneUnusedAnchors_keeps_attaching (anchorPairs : sdict string)
    (anchorLists : sdict (list NamedAnchor.t)) :
  (forall g l, In (g, l) (_pruneUnusedAnchors anchorPairs anchorLists) ->
     l <> []
     /\ forall a, In a l -> attaches anchorPairs a \/ NamedAnchor.key a = "")
  /\ (forall g l0 a, In (g, l0) anchorLists -> In a l0 ->
        attaches anchorPairs a \/ NamedAnchor.key a = "" ->
        exists l, In (g, l) (_pruneUnusedAnchors anchorPairs anchorLists)
                  /\ In a l)
  /\ _pruneUnusedAnchors anchorPairs
       (_pruneUnusedAnchors anchorPairs anchorLists)
     = _pruneUnusedAnchors anchorPairs anchorLists.
Proof.
  unfold _pruneUnusedAnchors. split; [|split].
  - intros g l H. apply prune_glyphs_In in H.
    destruct H as [l0 [_ [-> Hne]]]. split; [assumption|].
    intros a Ha. apply filter_In in Ha. destruct Ha as [_ Ha].
    apply keep_anchor_attaches. exact Ha.
  - intros g l0 a Hg Ha Hk.
    assert (Hin : In a (prune_anchors (attachingAnchorNames anchorPairs) l0)).
    { apply filter_In. split; [assumption|].
      apply keep_anchor_attaches. exact Hk. }
    eexists. split; [|exact Hin]. apply prune_glyphs_In.
    exists l0. split; [assumption|]. split; [reflexivity|].
    intros E. rewrite E in Hin. destruct Hin.
  - apply prune_glyphs_idempotent.
Qed.

Lemma concat_values_prune_glyphs att items :
  concat (Dict.values (prune_glyphs att items))
  = filter (keep_anchor att) (concat (Dict.values items)).
Proof.
  induction items as [|[g0 l0] items IH]; simpl; [reflexivity|].
  rewrite filter_app. fold (prune_anchors att l0).
  destruct (prune_anchors att l0) as [|a0 l1] eqn:E; simpl.
  - exact IH.
  - do 2 f_equal. exact IH.
Qed.

Lemma pairs_fold_filter names names' (keep : NamedAnchor.t -> bool) l
    (acc : sdict string) :
  (forall a, In a l -> keep a = false -> NamedAnchor.isMark a = false ->
     str_in (NamedAnchor.markAnchorName a) names = false) ->
  (forall a, In a l -> keep a = true -> NamedAnchor.isMark a = false ->
     str_in (NamedAnchor.markAnchorName a) names'
     = str_in (NamedAnchor.markAnchorName a) names) ->
  fold_left (pair_step names') (filter keep l) acc
  = fold_left (pair_step names) l acc.
Proof.
  revert acc. induction l as [|x l IH]; intros acc H1 H2; simpl; [reflexivity|].
  assert (IH' : forall acc, fold_left (pair_step names') (filter keep l) acc
                            = fold_left (pair_step names) l acc).
  { intros acc'. apply IH; intros a Ha; [apply H1 | apply H2]; simpl; auto. }
  destruct (keep x) eqn:Ek; simpl.
  - destruct (NamedAnchor.isMark x) eqn:Em; [apply IH'|].
    rewrite (H2 x (or_introl eq_refl) Ek Em). apply IH'.
  - destruct (NamedAnchor.isMark x) eqn:Em; [apply IH'|].
    rewrite (H1 x (or_introl eq_refl) Ek Em). apply IH'.
Qed.

Lemma pairs_fold_preserved names l (acc : sdict string) n m :
  (forall b, In b l -> NamedAnchor.name b = n ->
     NamedAnchor.markAnchorName b = m) ->
  sget acc n = Some m -> sget (fold_left (pair_step names) l acc) n = Some m.
Proof.
  revert acc. induction l as [|x l IH]; intros acc Hl H; simpl; [assumption|].
  apply IH; [intros b Hb; apply Hl; simpl; auto|].
  destruct (NamedAnchor.isMark x); [assumption|].
  destruct (str_in _ names); [|assumption].
  destruct (String.eqb_spec n (NamedAnchor.name x)) as [->|Hne].
  - rewrite sget_set_same. f_equal. apply Hl; simpl; auto.
  - rewrite sget_set_other by assumption. assumption.
Qed.

Lemma pairs_fold_get_last names l (acc : sdict string) a :
  name_determines_key l ->
  In a l -> NamedAnchor.isMark a = false ->
  str_in (NamedAnchor.markAnchorName a) names = true ->
  sget (fold_left (pair_step names) l acc) (NamedAnchor.name a)
  = Some (NamedAnchor.markAnchorName a).
Proof.
  revert acc. induction l as [|x l IH]; intros acc Hk Ha Hm Hs; [destruct Ha|].
  assert (Hk' : name_determines_key l).
  { intros b c Hb Hc. apply Hk; simpl; auto. }
  simpl. destruct Ha as [->|Ha].
  - rewrite Hm, Hs. apply pairs_fold_preserved; [|apply sget_set_same].
    intros b Hb E. unfold NamedAnchor.markAnchorName. f_equal.
    apply Hk; simpl; auto.
  - apply IH; assumption.
Qed.

(** X8.  Pruning keeps the anchor pairs: when anchors of one name have one
    key, the pairs computed from the pruned anchor lists are the pairs the
    pruning was done with, entry for entry and in the same order. *)
Theorem _getAnchorPairs_after_pruning (anchorLists : sdict (list NamedAnchor.t)) :
  name_determines_key (all_anchors anchorLists) ->
  _getAnchorPairs
    (_pruneUnusedAnchors (_getAnchorPairs anchorLists) anchorLists)
  = _getAnchorPairs anchorLists.
Proof.
  intros Hk.
  set (pairs := _getAnchorPairs anchorLists).
  set (att := attachingAnchorNames pairs).
  assert (Hatt : forall a, keep_anchor att a = false ->
                           ~ In (NamedAnchor.name a) att).
  { intros a H Hin. apply str_in_In in Hin. rewrite Hin in H. discriminate. }
  unfold _getAnchorPairs at 1. unfold _pruneUnusedAnchors. fold att.
  rewrite concat_values_prune_glyphs.
  apply pairs_fold_filter.
  - intros a Ha Hkeep Hm.
    destruct (str_in (NamedAnchor.markAnchorName a)
                     (markAnchorNames_of anchorLists)) eqn:Es; [|reflexivity].
    exfalso. apply (Hatt a Hkeep). apply in_app_iff. left.
    apply smem_In_keys. apply pairs_fold_mem; assumption.
  - intros a Ha Hkeep Hm.
    destruct (str_in (NamedAnchor.markAnchorName a)
                     (markAnchorNames_of anchorLists)) eqn:Es.
    + apply str_in_In, markAnchorNames_of_In.
      pose proof Es as Hb. apply str_in_In, markAnchorNames_of_In in Hb.
      destruct Hb as [b [Hb [Hbm Hbn]]].
      exists b. split; [|auto].
      unfold all_anchors. rewrite concat_values_prune_glyphs.
      apply filter_In. split; [exact Hb|].
      assert (Hv : In (NamedAnchor.name b) att).
      { apply in_app_iff. right. rewrite Hbn.
        assert (Hg : sget pairs (NamedAnchor.name a)
                     = Some (NamedAnchor.markAnchorName a))
          by (apply pairs_fold_get_last; assumption).
        apply sget_Some_In in Hg. apply (in_map snd) in Hg. exact Hg. }
      apply str_in_In in Hv. rewrite Hv. reflexivity.
    + destruct (str_in _ (markAnchorNames_of (prune_glyphs att anchorLists)))
        eqn:Es'; [|reflexivity].
      apply str_in_In, markAnchorNames_of_In in Es'.
      destruct Es' as [b [Hb [Hbm Hbn]]].
      unfold all_anchors in Hb. rewrite concat_values_prune_glyphs in Hb.
      apply filter_In in Hb. destruct Hb as [Hb _].
      assert (Hin : In (NamedAnchor.markAnchorName a)
                       (markAnchorNames_of anchorLists))
        by (apply markAnchorNames_of_In; eauto).
      apply str_in_In in Hin. congruence.
Qed.

Lemma _getAnchorPairs_after_pruning_witness :
  _getAnchorPairs
    (_pruneUnusedAnchors (_getAnchorPairs stray_anchorLists) stray_anchorLists)
  = _getAnchorPairs stray_anchorLists.
Proof.
  apply (_getAnchorPairs_after_pruning stray_anchorLists).
  intros a b Ha Hb.
  simpl in Ha, Hb.
  repeat (destruct Ha as [<-|Ha]; [|]); try contradiction;
    repeat (destruct Hb as [<-|Hb]; [|]); try contradiction;
    simpl; intros E; try reflexivity; discriminate E.
Defined.

(** ** Mark class definitions *)

Lemma _anchorsAreEqual_make_refl (x y : Z) :
  _anchorsAreEqual (Anchor.make x y) (Anchor.make x y) = true.
Proof. apply _anchorsAreEqual_plain. auto. Qed.

Lemma add_mcdef_defines (markClasses : sdict MarkClass.t) (handle : string)
    (markClass : MarkClass.t) (anchor : Anchor.t) (glyphName : string) :
  sget (MarkClass.glyphs markClass) glyphName = None ->
  exists markClass',
    add_mcdef markClasses handle markClass anchor glyphName
    = Ok (Some (MarkClassDefinition.mk handle anchor glyphName),
          sset markClasses handle markClass')
    /\ sget (MarkClass.glyphs markClass') glyphName
       = Some (MarkClassDefinition.mk handle anchor glyphName).
Proof.
  intros Hg. unfold add_mcdef, MarkClass.addDefinition, Dict.mem. simpl.
  rewrite Hg. simpl. eexists. split; [reflexivity|]. simpl.
  apply sget_set_same.
Qed.

(** X9.  [_defineMarkClass] never raises, whatever names
    [makeFeaClassName] allocates.  After the call the glyph has a
    definition whose anchor equals the rounded one, in the class registered
    under the name [h]: the class of the returned definition, or
    [className] when nothing is returned.  Asking again for that class is
    answered with [None] and changes nothing; when nothing is returned the
    registry is the one before the call; and no class registered under
    another name than [h] is touched. *)
Theorem _defineMarkClass_defines
    (otRoundIgnoringVariable : Coord -> Z)
    (makeFeaClassName : string -> list string -> string)
    (glyphName : string) (x y : Coord) (className : string)
    (markClasses : sdict MarkClass.t) :
  exists r markClasses',
    _defineMarkClass otRoundIgnoringVariable makeFeaClassName
                     glyphName x y className markClasses
    = Ok (r, markClasses')
    /\ let h := match r with
                | Some mcdef => MarkClassDefinition.markClass mcdef
                | None => className
                end in
       (exists markClass mcdef,
          sget markClasses' h = Some markClass
          /\ sget (MarkClass.glyphs markClass) glyphName = Some mcdef
          /\ _anchorsAreEqual
               (Anchor.make (otRoundIgnoringVariable x)
                            (otRoundIgnoringVariable y))
               (MarkClassDefinition.anchor mcdef) = true)
       /\ _defineMarkClass otRoundIgnoringVariable makeFeaClassName
                           glyphName x y h markClasses'
          = Ok (None, markClasses')
       /\ (r = None -> markClasses' = markClasses)
       /\ (forall k, k <> h -> sget markClasses' k = sget markClasses k).
Proof.
  set (anchor := Anchor.make (otRoundIgnoringVariable x)
                             (otRoundIgnoringVariable y)).
  assert (Hagain : forall h mcs mc mcdef,
             sget mcs h = Some mc ->
             sget (MarkClass.glyphs mc) glyphName = Some mcdef ->
             _anchorsAreEqual anchor (MarkClassDefinition.anchor mcdef) = true ->
             _defineMarkClass otRoundIgnoringVariable makeFeaClassName
                              glyphName x y h mcs = Ok (None, mcs)).
  { intros h mcs mc mcdef H1 H2 H3. unfold _defineMarkClass.
    rewrite H1, H2. fold anchor. rewrite H3. reflexivity. }
  assert (Hnew : forall h mcs mc,
             sget (MarkClass.glyphs mc) glyphName = None ->
             exists mcs',
               add_mcdef mcs h mc anchor glyphName
               = Ok (Some (MarkClassDefinition.mk h anchor glyphName), mcs')
               /\ (exists markClass mcdef,
                     sget mcs' h = Some markClass
                     /\ sget (MarkClass.glyphs markClass) glyphName = Some mcdef
                     /\ _anchorsAreEqual anchor
                          (MarkClassDefinition.anchor mcdef) = true)
               /\ _defineMarkClass otRoundIgnoringVariable makeFeaClassName
                                   glyphName x y h mcs' = Ok (None, mcs')
               /\ (forall k, k <> h -> sget mcs' k = sget mcs k)).
  { intros h mcs mc Hg.
    destruct (add_mcdef_defines mcs h mc anchor glyphName Hg)
      as [mc' [Hadd Hmc']].
    eexists. split; [exact Hadd|].
    assert (Hh : sget (sset mcs h mc') h = Some mc') by apply sget_set_same.
    split; [|split].
    - exists mc', (MarkClassDefinition.mk h anchor glyphName).
      split; [exact Hh|]. split; [exact Hmc'|].
      apply _anchorsAreEqual_make_refl.
    - apply (Hagain h _ mc' _ Hh Hmc'). apply _anchorsAreEqual_make_refl.
    - intros k Hk. apply sget_set_other. exact Hk. }
  unfold _defineMarkClass. fold anchor.
  destruct (sget markClasses className) as [mc|] eqn:E.
  - destruct (sget (MarkClass.glyphs mc) glyphName) as [d0|] eqn:Eg.
    + destruct (_anchorsAreEqual anchor (MarkClassDefinition.anchor d0)) eqn:Ea.
      * exists None, markClasses. split; [reflexivity|]. simpl.
        split; [exists mc, d0; auto|].
        split; [exact (Hagain className markClasses mc d0 E Eg Ea)|]. auto.
      * set (n := makeFeaClassName className (Dict.keys markClasses)).
        destruct (Hnew n (sset markClasses n (MarkClass.new n))
                       (MarkClass.new n) eq_refl)
          as [mcs' [Hadd [Hdef [Hrep Hframe]]]].
        eexists _, mcs'. split; [exact Hadd|]. simpl.
        split; [exact Hdef|]. split; [exact Hrep|].
        split; [discriminate|].
        intros k Hk. rewrite (Hframe k Hk). apply sget_set_other. exact Hk.
    + destruct (Hnew className markClasses mc Eg)
        as [mcs' [Hadd [Hdef [Hrep Hframe]]]].
      eexists _, mcs'. split; [exact Hadd|]. simpl.
      split; [exact Hdef|]. split; [exact Hrep|].
      split; [discriminate | exact Hframe].
  - destruct (Hnew className
                   (sset markClasses className (MarkClass.new className))
                   (MarkClass.new className) eq_refl)
      as [mcs' [Hadd [Hdef [Hrep Hframe]]]].
    eexists _, mcs'. split; [exact Hadd|]. simpl.
    split; [exact Hdef|]. split; [exact Hrep|].
    split; [discriminate|].
    intros k Hk. rewrite (Hframe k Hk). apply sget_set_other. exact Hk.
Qed.

(** ** Filtering attachments; above and below marks *)

Lemma filter_anchors_pure (f : NamedAnchor.t -> bool) l :
  filter_anchors (fun a => Ok (f a)) l = Ok (filter f l).
Proof.
  induction l as [|a l IH]; simpl; [reflexivity|].
  rewrite IH. simpl. destruct (f a); reflexivity.
Qed.

Lemma filter_components_pure (f : NamedAnchor.t -> bool) l :
  filter_components (fun a => Ok (f a)) l = Ok (map (filter f) l).
Proof.
  induction l as [|c l IH]; simpl; [reflexivity|].
  rewrite filter_anchors_pure, IH. reflexivity.
Qed.

Lemma concat_map_filter {A : Type} (f : A -> bool) (l : list (list A)) :
  concat (map (filter f) l) = filter f (concat l).
Proof.
  induction l as [|c l IH]; simpl; [reflexivity|].
  rewrite filter_app, IH. reflexivity.
Qed.

Lemma some_component_has_anchor (components : list (list NamedAnchor.t)) :
  existsb nonempty components = nonempty (concat components).
Proof.
  induction components as [|c components IH]; simpl; [reflexivity|].
  rewrite IH. destruct c; reflexivity.
Qed.

Lemma Attachment_filter_pure (f : NamedAnchor.t -> bool) pos :
  Attachment_filter pos (fun a => Ok (f a))
  = Ok (if has_anchors (restrict f pos) then Some (restrict f pos) else None).
Proof.
  unfold has_anchors. destruct pos as [n marks|n marks|n marks]; simpl.
  - rewrite filter_anchors_pure. reflexivity.
  - rewrite filter_anchors_pure. reflexivity.
  - rewrite filter_components_pure. simpl.
    rewrite some_component_has_anchor. reflexivity.
Qed.

Lemma _iterAttachments_unfiltered attachments include :
  _iterAttachments attachments include None
  = Ok (filter (included include) attachments).
Proof.
  induction attachments as [|pos attachments IH]; [reflexivity|].
  cbn [_iterAttachments filter]. fold (attachment_name pos). rewrite IH.
  unfold included. destruct include as [inc|]; [|reflexivity].
  destruct (inc (attachment_name pos)); reflexivity.
Qed.

Lemma _iterAttachments_filtered attachments include (f : NamedAnchor.t -> bool) :
  _iterAttachments attachments include (Some f)
  = Ok (filter has_anchors
          (map (restrict f) (filter (included include) attachments))).
Proof.
  induction attachments as [|pos attachments IH]; [reflexivity|].
  cbn [_iterAttachments filter]. fold (attachment_name pos).
  rewrite IH, Attachment_filter_pure.
  unfold included. destruct include as [inc|].
  - destruct (inc (attachment_name pos)); cbn [negb bind map filter];
      [|reflexivity].
    destruct (has_anchors (restrict f pos)); reflexivity.
  - cbn [bind map filter].
    destruct (has_anchors (restrict f pos)); reflexivity.
Qed.

Lemma restrict_anchors (f : NamedAnchor.t -> bool) pos :
  attachment_anchors (restrict f pos) = filter f (attachment_anchors pos).
Proof.
  destruct pos as [n marks|n marks|n marks]; simpl; try reflexivity.
  apply concat_map_filter.
Qed.

Lemma lookup_anchors_restricted (f : NamedAnchor.t -> bool) attachments :
  lookup_anchors (filter has_anchors (map (restrict f) attachments))
  = filter f (lookup_anchors attachments).
Proof.
  unfold lookup_anchors.
  induction attachments as [|pos attachments IH]; simpl; [reflexivity|].
  rewrite filter_app, <- IH, <- restrict_anchors. unfold has_anchors.
  destruct (attachment_anchors (restrict f pos)) eqn:E; simpl.
  - reflexivity.
  - rewrite E. reflexivity.
Qed.

Lemma kept_and_dropped_rearrange {A : Type} (keep : A -> bool) (xs : list A) :
  Permutation (filter keep xs ++ filter (fun x => negb (keep x)) xs) xs.
Proof.
  induction xs as [|x xs IHxs]; [apply perm_nil|].
  simpl. destruct (keep x); simpl.
  - apply perm_skip. exact IHxs.
  - apply Permutation_sym, Permutation_cons_app, Permutation_sym. exact IHxs.
Qed.

(** X10.  [_iterAttachments] never raises.  Without an anchor filter it
    yields the given attachments whose glyph passes [include], in their
    order.  With an anchor filter it yields these same attachments, each
    restricted to the anchors that pass the filter (a ligature keeps its
    components), without those left with no anchor.  With [_isAboveMark]
    and [_isBelowMark] as filters, as the abvm and blwm features use them,
    every anchor of the attachments that pass [include] goes to exactly one
    of the two results: the anchors of the two results together are a
    rearrangement of those anchors. *)
Theorem _iterAttachments_above_below attachments include :
  let yielded := filter (included include) attachments in
  let above := filter has_anchors (map (restrict _isAboveMark) yielded) in
  let below := filter has_anchors (map (restrict _isBelowMark) yielded) in
  _iterAttachments attachments include None = Ok yielded
  /\ _iterAttachments attachments include (Some _isAboveMark) = Ok above
  /\ _iterAttachments attachments include (Some _isBelowMark) = Ok below
  /\ lookup_anchors above = filter _isAboveMark (lookup_anchors yielded)
  /\ lookup_anchors below = filter _isBelowMark (lookup_anchors yielded)
  /\ Permutation (lookup_anchors yielded)
                 (lookup_anchors above ++ lookup_anchors below).
Proof.
  intros yielded above below.
  split; [apply _iterAttachments_unfiltered|].
  split; [apply _iterAttachments_filtered|].
  split; [apply _iterAttachments_filtered|].
  assert (Ha : lookup_anchors above = filter _isAboveMark (lookup_anchors yielded))
    by apply lookup_anchors_restricted.
  assert (Hb : lookup_anchors below = filter _isBelowMark (lookup_anchors yielded))
    by apply lookup_anchors_restricted.
  split; [exact Ha|]. split; [exact Hb|].
  rewrite Ha, Hb. apply Permutation_sym, kept_and_dropped_rearrange.
Qed.

(** X11.  Whether an anchor is a below mark is decided by its name's
    prefix alone: [_isBelowMark] holds exactly when the name starts with
    "bottom" or with "nukta"; the two name sets [abvmAnchorNames] and
    [blwmAnchorNames] never change the answer. *)
Theorem _isBelowMark_by_prefix (anchor : NamedAnchor.t) :
  _isBelowMark anchor
  = PyStr.startswith (NamedAnchor.name anchor) "bottom"
    || PyStr.startswith (NamedAnchor.name anchor) "nukta".
Proof.
  unfold _isBelowMark, _isAboveMark.
  destruct (str_in (NamedAnchor.name anchor) abvmAnchorNames) eqn:Ea.
  - apply str_in_In in Ea. simpl in Ea.
    repeat (destruct Ea as [<-|Ea]; [reflexivity|]). destruct Ea.
  - destruct (str_in (NamedAnchor.name anchor) blwmAnchorNames) eqn:Eb.
    + apply str_in_In in Eb. simpl in Eb.
      repeat (destruct Eb as [<-|Eb]; [reflexivity|]). destruct Eb.
    + simpl. destruct (_ || _); reflexivity.
Qed.

(** ** Base anchors and the mark-to-base attachments *)

Local Abbreviation base_eligible :=
  (fun a => negb (is_none (NamedAnchor.markClass a)
                  || negb (is_none (NamedAnchor.number a)))
            && negb (NamedAnchor.isContextual a)).

Local Abbreviation gdef_skip markGlyphNames class glyphName :=
  (str_in glyphName markGlyphNames
   || match class with
      | Some glyphs => negb (str_in glyphName glyphs)
      | None => false
      end).

Lemma gdef_skip_false markGlyphNames class glyphName :
  gdef_skip markGlyphNames class glyphName = false <->
  str_in glyphName markGlyphNames = false /\ in_gdef_class class glyphName.
Proof.
  unfold in_gdef_class. rewrite orb_false_iff. split.
  - intros [H1 H2]. split; [assumption|]. intros glyphs ->.
    apply str_in_In. destruct (str_in glyphName glyphs); [reflexivity|discriminate].
  - intros [H1 H2]. split; [assumption|]. destruct class as [glyphs|]; [|reflexivity].
    specialize (H2 glyphs eq_refl). apply str_in_In in H2. rewrite H2. reflexivity.
Qed.

Lemma baseMarks_loop_spec anchors :
  (forall a, In a anchors -> base_eligible a = true ->
             NamedAnchor.isMark a = false) ->
  baseMarks_loop anchors = Ok (filter base_eligible anchors).
Proof.
  induction anchors as [|a anchors IH]; intros H; simpl; [reflexivity|].
  assert (IH' : baseMarks_loop anchors = Ok (filter base_eligible anchors))
    by (apply IH; intros b Hb; apply H; simpl; auto).
  pose proof (H a (or_introl eq_refl)) as Ha.
  destruct (is_none (NamedAnchor.markClass a)
            || negb (is_none (NamedAnchor.number a))); simpl in *; [exact IH'|].
  destruct (NamedAnchor.isContextual a); simpl in *; [exact IH'|].
  rewrite (Ha eq_refl), IH'. reflexivity.
Qed.

Lemma _makeMarkToBaseAttachments_spec markGlyphNames baseClass anchorLists :
  (forall g l a, In (g, l) anchorLists -> In a l -> base_eligible a = true ->
                 NamedAnchor.isMark a = false) ->
  _makeMarkToBaseAttachments markGlyphNames baseClass anchorLists
  = Ok (flat_map
          (fun item =>
             if gdef_skip markGlyphNames baseClass (fst item) then []
             else if nonempty (filter base_eligible (snd item))
             then [MarkToBasePos (fst item) (filter base_eligible (snd item))]
             else [])
          anchorLists).
Proof.
  induction anchorLists as [|[g l] anchorLists IH]; intros H; [reflexivity|].
  cbn [_makeMarkToBaseAttachments flat_map fst snd].
  rewrite IH by (intros g' l' a Hin; apply (H g' l' a); simpl; auto).
  destruct (gdef_skip markGlyphNames baseClass g); [reflexivity|].
  rewrite baseMarks_loop_spec by (intros a; apply (H g l); simpl; auto).
  cbn [bind]. destruct (nonempty (filter base_eligible l)); reflexivity.
Qed.

Lemma setBaseAnchorMarkClass_fields markClasses a :
  NamedAnchor.markClass a = None ->
  let a' := setBaseAnchorMarkClass markClasses a in
  NamedAnchor.name a' = NamedAnchor.name a
  /\ NamedAnchor.key a' = NamedAnchor.key a
  /\ NamedAnchor.isMark a' = NamedAnchor.isMark a
  /\ NamedAnchor.number a' = NamedAnchor.number a
  /\ NamedAnchor.isContextual a' = NamedAnchor.isContextual a
  /\ NamedAnchor.markClass a'
     = (if NamedAnchor.isMark a || negb (PyStr.truthy (NamedAnchor.key a))
        then None else sget markClasses (NamedAnchor.key a))
  /\ a' = set_markClass a (NamedAnchor.markClass a').
Proof.
  intros Hn. unfold setBaseAnchorMarkClass, Dict.mem.
  destruct (NamedAnchor.isMark a || negb (PyStr.truthy (NamedAnchor.key a)))
    eqn:E; cbn [orb].
  - repeat (split; [reflexivity|]). split; [assumption|].
    rewrite Hn. destruct a; simpl in *. subst. reflexivity.
  - destruct (sget markClasses (NamedAnchor.key a)) as [mc|] eqn:Eg; simpl.
    + repeat (split; [reflexivity|]). reflexivity.
    + repeat (split; [reflexivity|]). split; [assumption|].
      rewrite Hn. destruct a; simpl in *. subst. reflexivity.
Qed.

Lemma _setBaseAnchorMarkClasses_In markClasses anchorLists g l' :
  In (g, l') (_setBaseAnchorMarkClasses markClasses anchorLists) <->
  exists l, In (g, l) anchorLists
            /\ l' = map (setBaseAnchorMarkClass markClasses) l.
Proof.
  unfold _setBaseAnchorMarkClasses. rewrite in_map_iff. split.
  - intros [[g0 l] [[= <- <-] H]]. eauto.
  - intros [l [H ->]]. exists (g, l). auto.
Qed.

Lemma _groupAttachments_ungrouped_total markClasses attachments :
  all_have_markClass attachments ->
  exists lookups, _groupAttachments false markClasses attachments = Ok lookups.
Proof.
  intros H. unfold _groupAttachments. cbn [bind].
  apply mapM_total. intros mcs _. apply make_lookup_total. exact H.
Qed.

Lemma base_attachments_In markGlyphNames baseClass anchorLists pos :
  In pos (flat_map
            (fun item =>
               if gdef_skip markGlyphNames baseClass (fst item) then []
               else if nonempty (filter base_eligible (snd item))
               then [MarkToBasePos (fst item) (filter base_eligible (snd item))]
               else [])
            anchorLists) <->
  exists g l, In (g, l) anchorLists
              /\ str_in g markGlyphNames = false /\ in_gdef_class baseClass g
              /\ filter base_eligible l <> []
              /\ pos = MarkToBasePos g (filter base_eligible l).
Proof.
  rewrite in_flat_map. split.
  - intros [[g l] [Hin H]]. cbn [fst snd] in H.
    destruct (gdef_skip markGlyphNames baseClass g) eqn:Es; [destruct H|].
    apply gdef_skip_false in Es. destruct Es as [Hm Hb].
    destruct (filter base_eligible l) eqn:Ef; [destruct H|].
    destruct H as [<-|[]]. exists g, l. rewrite Ef.
    split; [assumption|]. split; [assumption|]. split; [assumption|].
    split; [discriminate | reflexivity].
  - intros [g [l [Hin [Hm [Hb [Hne ->]]]]]]. exists (g, l).
    split; [assumption|]. cbn [fst snd].
    assert (Es : gdef_skip markGlyphNames baseClass g = false)
      by (apply gdef_skip_false; auto).
    rewrite Es. destruct (filter base_eligible l); [congruence|]. simpl. auto.
Qed.

(** X12.  Take anchor lists whose anchors have no mark class yet, as
    [_getAnchorLists] builds them, give the base anchors their classes with
    [_setBaseAnchorMarkClasses] and build the mark-to-base attachments.
    Then [_makeMarkToBaseAttachments] returns: its assertion that no mark
    anchor is attached never fails.  Every attachment is a mark-to-base one
    with at least one anchor, for a glyph that is no mark glyph and passes
    the GDEF base class; each of its anchors is an anchor of that glyph
    that is no mark, has no component number, is not contextual, has a
    non-empty key and now carries the class registered under its key.
    Conversely every such anchor whose key has a class is attached.  And
    [_groupAttachments], without mark class grouping, returns lookups for
    these attachments. *)
Theorem _makeMarkToBaseAttachments_after_classes
    (markClasses : sdict MarkClass.t) (markGlyphNames : list string)
    (baseClass : option (list string))
    (anchorLists : sdict (list NamedAnchor.t)) :
  no_markClass anchorLists ->
  exists r,
    _makeMarkToBaseAttachments markGlyphNames baseClass
      (_setBaseAnchorMarkClasses markClasses anchorLists) = Ok r
    /\ (forall pos, In pos r ->
          exists g marks,
            pos = MarkToBasePos g marks /\ marks <> []
            /\ str_in g markGlyphNames = false /\ in_gdef_class baseClass g)
    /\ (forall pos a, In pos r -> In a (attachment_anchors pos) ->
          NamedAnchor.isMark a = false /\ NamedAnchor.number a = None
          /\ NamedAnchor.isContextual a = false /\ NamedAnchor.key a <> ""
          /\ (exists mc, NamedAnchor.markClass a = Some mc
                         /\ sget markClasses (NamedAnchor.key a) = Some mc)
          /\ exists l a0, In (attachment_name pos, l) anchorLists /\ In a0 l
                          /\ a = set_markClass a0 (NamedAnchor.markClass a))
    /\ (forall g l a0 mc,
          In (g, l) anchorLists -> In a0 l ->
          str_in g markGlyphNames = false -> in_gdef_class baseClass g ->
          NamedAnchor.isMark a0 = false -> NamedAnchor.number a0 = None ->
          NamedAnchor.isContextual a0 = false -> NamedAnchor.key a0 <> "" ->
          sget markClasses (NamedAnchor.key a0) = Some mc ->
          exists marks, In (MarkToBasePos g marks) r
                        /\ In (set_markClass a0 (Some mc)) marks)
    /\ exists lookups, _groupAttachments false markClasses r = Ok lookups.
Proof.
  intros Hnone.
  assert (Hset : forall g l' a',
             In (g, l') (_setBaseAnchorMarkClasses markClasses anchorLists) ->
             In a' l' ->
             exists l a0, In (g, l) anchorLists /\ In a0 l
                          /\ a' = setBaseAnchorMarkClass markClasses a0
                          /\ NamedAnchor.markClass a0 = None).
  { intros g l' a' Hin Ha. apply _setBaseAnchorMarkClasses_In in Hin.
    destruct Hin as [l [Hin ->]]. apply in_map_iff in Ha.
    destruct Ha as [a0 [<- Ha0]]. exists l, a0. eauto 6. }
  assert (Helig : forall g l' a',
             In (g, l') (_setBaseAnchorMarkClasses markClasses anchorLists) ->
             In a' l' -> base_eligible a' = true ->
             NamedAnchor.isMark a' = false /\ NamedAnchor.number a' = None
             /\ NamedAnchor.isContextual a' = false /\ NamedAnchor.key a' <> ""
             /\ (exists mc, NamedAnchor.markClass a' = Some mc
                            /\ sget markClasses (NamedAnchor.key a') = Some mc)
             /\ exists l a0, In (g, l) anchorLists /\ In a0 l
                             /\ a' = set_markClass a0 (NamedAnchor.markClass a')).
  { intros g l' a' Hin Ha He.
    destruct (Hset g l' a' Hin Ha) as [l [a0 [Hl [Ha0 [-> Hn]]]]].
    destruct (setBaseAnchorMarkClass_fields markClasses a0 Hn)
      as [_ [Hk [Hm [Hnum [Hctx [Hmc Heq]]]]]].
    rewrite Hk, Hm, Hnum, Hctx. rewrite Hnum, Hctx in He.
    destruct (NamedAnchor.markClass (setBaseAnchorMarkClass markClasses a0))
      as [mc|] eqn:Emc; [|discriminate].
    destruct (NamedAnchor.number a0); [discriminate|].
    destruct (NamedAnchor.isContextual a0); [discriminate|].
    destruct (NamedAnchor.isMark a0); [discriminate|].
    destruct (NamedAnchor.key a0) eqn:Ek; [discriminate|].
    simpl in Hmc.
    split; [reflexivity|]. split; [reflexivity|]. split; [reflexivity|].
    split; [discriminate|]. split; [exists mc; auto|].
    exists l, a0. auto. }
  rewrite _makeMarkToBaseAttachments_spec
    by (intros g l a Hin Ha He; apply (Helig g l a Hin Ha He)).
  eexists. split; [reflexivity|].
  assert (Hanchors : forall pos a,
             In pos (flat_map
                       (fun item =>
                          if gdef_skip markGlyphNames baseClass (fst item) then []
                          else if nonempty (filter base_eligible (snd item))
                          then [MarkToBasePos (fst item)
                                  (filter base_eligible (snd item))]
                          else [])
                       (_setBaseAnchorMarkClasses markClasses anchorLists)) ->
             In a (attachment_anchors pos) ->
             NamedAnchor.isMark a = false /\ NamedAnchor.number a = None
             /\ NamedAnchor.isContextual a = false /\ NamedAnchor.key a <> ""
             /\ (exists mc, NamedAnchor.markClass a = Some mc
                            /\ sget markClasses (NamedAnchor.key a) = Some mc)
             /\ exists l a0, In (attachment_name pos, l) anchorLists /\ In a0 l
                             /\ a = set_markClass a0 (NamedAnchor.markClass a)).
  { intros pos a Hpos Ha. apply base_attachments_In in Hpos.
    destruct Hpos as [g [l' [Hin [_ [_ [_ ->]]]]]]. simpl in Ha |- *.
    apply filter_In in Ha. destruct Ha as [Ha He].
    exact (Helig g l' a Hin Ha He). }
  split; [|split; [exact Hanchors|split]].
  - intros pos Hpos. apply base_attachments_In in Hpos.
    destruct Hpos as [g [l' [_ [Hm [Hb [Hne ->]]]]]]. eauto 8.
  - intros g l a0 mc Hin Ha0 Hm Hb Hmark Hnum Hctx Hkey Hmc.
    pose proof (setBaseAnchorMarkClass_fields markClasses a0
                  (Hnone g l a0 Hin Ha0))
      as [_ [_ [_ [Hnum' [Hctx' [Hmc' Heq]]]]]].
    rewrite Hmark in Hmc'. destruct (NamedAnchor.key a0) eqn:Ek; [congruence|].
    simpl in Hmc'. rewrite Hmc in Hmc'. rewrite Hmc' in Heq.
    assert (Hin' : In (set_markClass a0 (Some mc))
                      (filter base_eligible
                         (map (setBaseAnchorMarkClass markClasses) l))).
    { apply filter_In. split.
      - rewrite <- Heq. apply in_map. exact Ha0.
      - simpl. rewrite Hnum, Hctx. reflexivity. }
    eexists. split; [|exact Hin']. apply base_attachments_In.
    exists g, (map (setBaseAnchorMarkClass markClasses) l).
    split; [apply _setBaseAnchorMarkClasses_In; eauto|].
    split; [assumption|]. split; [assumption|]. split; [|reflexivity].
    intros E. rewrite E in Hin'. destruct Hin'.
  - apply _groupAttachments_ungrouped_total.
    intros a Ha. unfold lookup_anchors in Ha. apply in_flat_map in Ha.
    destruct Ha as [pos [Hpos Ha]].
    destruct (Hanchors pos a Hpos Ha) as [_ [_ [_ [_ [[mc [-> _]] _]]]]].
    discriminate.
Qed.

Lemma _makeMarkToBaseAttachments_after_classes_witness :
  exists r,
    _makeMarkToBaseAttachments ["acutecomb"] None
      (_setBaseAnchorMarkClasses top_bottom_markClasses stray_anchorLists)
    = Ok r
    /\ exists marks, In (MarkToBasePos "a" marks) r.
Proof.
  destruct (_makeMarkToBaseAttachments_after_classes top_bottom_markClasses
              ["acutecomb"] None stray_anchorLists)
    as [r [Hr [_ [_ [Hall _]]]]].
  - intros g l a Hin Ha. simpl in Hin.
    repeat (destruct Hin as [[= <- <-]|Hin];
            [simpl in Ha;
             repeat (destruct Ha as [<-|Ha]; [reflexivity|]); destruct Ha|]).
    destruct Hin.
  - exists r. split; [exact Hr|].
    destruct (Hall "a" _ (plain_anchor "top" false "top")
                   (MC_glyphs_example "MC_top" ["acutecomb"])
                   (or_introl eq_refl) (or_introl eq_refl))
      as [marks [Hm _]]; try reflexivity; try discriminate.
    exists marks. exact Hm.
Defined.

(** ** From the collected anchors to the attachments *)

Lemma built_facts (a : NamedAnchor.t) :
  built a ->
  NamedAnchor.markClass a = None
  /\ (NamedAnchor.isMark a = true ->
      NamedAnchor.number a = None /\ NamedAnchor.key a <> "")
  /\ (forall n, NamedAnchor.number a = Some n -> 1 <= n)
  /\ NamedAnchor.isIgnorable a = isIgnorable_of (NamedAnchor.key a).
Proof.
  intros [x [y [libData H]]]. unfold NamedAnchor.__init__ in H.
  inv_bind H as [[[[isMark key] number] ctx] ign] Hp.
  apply parseAnchorName_inv in Hp. destruct Hp as [Hmark ->].
  inv_bind H as [] Hchk. injection H as <-. simpl.
  split; [reflexivity|]. split; [exact Hmark|]. split; [|reflexivity].
  intros n ->. destruct (Nat.ltb_spec n 1); [discriminate | assumption].
Qed.

Lemma collect_anchor_built _getAnchor glyphName n objectLibs r a :
  collect_anchor _getAnchor glyphName n objectLibs r = Ok a -> built a.
Proof.
  intros H.
  pose proof (collect_anchor_name _getAnchor glyphName objectLibs n r a H) as En.
  unfold collect_anchor in H. destruct (_getAnchor glyphName n r) as [x y].
  unfold built. rewrite En. eauto.
Qed.

Lemma anchorDict_loop_invariant _getAnchor glyphName objectLibs raws log d' log' :
  anchorDict_loop _getAnchor glyphName objectLibs raws [] log = Ok (d', log') ->
  NoDup (map NamedAnchor.name (Dict.values d'))
  /\ forall a, In a (Dict.values d') ->
               built a /\ NamedAnchor.isIgnorable a = false.
Proof.
  intros H.
  destruct (anchorDict_loop_retained _getAnchor glyphName objectLibs
              raws log d' log' H) as [Hnd Hret].
  split; [exact Hnd|]. intros a Ha. apply Hret in Ha.
  destruct Ha as [l1 [r [l2 [_ [[_ [_ [Hc Hi]]] _]]]]].
  split; [|exact Hi]. eapply collect_anchor_built. exact Hc.
Qed.

Lemma anchorLists_loop_invariant _getAnchor include glyphSet :
  forall res log res' log',
    anchorLists_invariant res ->
    anchorLists_loop _getAnchor include glyphSet res log = Ok (res', log') ->
    anchorLists_invariant res'.
Proof.
  induction glyphSet as [|[g glyph] glyphSet IH];
    intros res log res' log' Hinv H; simpl in H.
  - injection H as <- _. exact Hinv.
  - destruct (match include with
              | Some include0 => negb (str_in g include0)
              | None => false
              end); [eapply IH; eassumption|].
    inv_bind H as [d logA] Hd.
    apply (IH _ _ _ _) in H; [exact H|].
    destruct (nonempty d) eqn:Ene; [|exact Hinv].
    destruct Hinv as [Hnd Hl]. split; [apply sNoDup_keys_set; exact Hnd|].
    intros g' l Hin. apply sIn_set in Hin.
    destruct Hin as [[-> ->]|Hin]; [|apply (Hl g' l Hin)].
    destruct (anchorDict_loop_invariant _ _ _ _ _ _ _ Hd) as [Hnames Hbuilt].
    split; [|split; assumption].
    destruct d; [discriminate | discriminate].
Qed.

(** X13.  The anchor lists that [_getAnchorLists] returns have one entry
    per glyph, no entry with an empty list, and in every list one anchor
    per name; each anchor is what [NamedAnchor.__init__] builds for its
    name, without a mark class, and is not ignorable. *)
Theorem _getAnchorLists_invariant
    (_getAnchor : string -> string -> UFOAnchor.t -> Coord * Coord)
    (gdefClasses : GDEFClasses.t) (glyphSet : list (string * Glyph.t))
    (anchorLists : sdict (list NamedAnchor.t)) (log : list warning) :
  _getAnchorLists _getAnchor gdefClasses glyphSet = Ok (anchorLists, log) ->
  anchorLists_invariant anchorLists.
Proof.
  unfold _getAnchorLists. intros H. inv_bind H as include Hinc.
  apply (anchorLists_loop_invariant _ _ _ _ _ _ _) in H; [exact H|].
  split; [constructor | intros g l []].
Qed.

Lemma _getAnchorLists_invariant_witness :
  exists anchorLists log,
    _getAnchorLists plain_getAnchor (GDEFClasses.mk None None None)
                    ligature_glyphSet = Ok (anchorLists, log)
    /\ anchorLists_invariant anchorLists.
Proof.
  eexists. eexists. split; [reflexivity|].
  apply (_getAnchorLists_invariant plain_getAnchor (GDEFClasses.mk None None None)
           ligature_glyphSet _ _ eq_refl).
Defined.

Lemma _makeMarkToLigaAttachments_anchors markGlyphNames ligatureClass anchorLists :
  (forall g l a, In (g, l) anchorLists -> In a l ->
     NamedAnchor.isMark a = true ->
     NamedAnchor.markClass a = None /\ NamedAnchor.key a <> "") ->
  exists r,
    _makeMarkToLigaAttachments markGlyphNames ligatureClass anchorLists = Ok r
    /\ forall pos a, In pos r -> In a (attachment_anchors pos) ->
         exists l i, In (attachment_name pos, l) anchorLists /\ In a l
                     /\ keyed_for i a = true.
Proof.
  induction anchorLists as [|[g l] anchorLists IH]; intros H.
  - exists []. split; [reflexivity | intros pos a []].
  - destruct IH as [r [Hr Hin]].
    { intros g' l' a Hl. apply (H g' l' a). simpl. auto. }
    assert (Hweak : forall pos a, In pos r -> In a (attachment_anchors pos) ->
              exists l0 i, In (attachment_name pos, l0) ((g, l) :: anchorLists)
                           /\ In a l0 /\ keyed_for i a = true).
    { intros pos a Hp Ha. destruct (Hin pos a Hp Ha) as [l0 [i [H1 H2]]].
      exists l0, i. simpl. auto. }
    cbn [_makeMarkToLigaAttachments]. rewrite Hr.
    destruct (str_in g markGlyphNames
              || match ligatureClass with
                 | Some ligatureClass0 => negb (str_in g ligatureClass0)
                 | None => false
                 end); [exists r; auto|].
    destruct (componentAnchors_loop_total l) with (componentAnchors := @nil (nat * list NamedAnchor.t))
      as [ca Hca].
    { intros a Ha. apply (H g l a); simpl; auto. }
    rewrite Hca. cbn [bind].
    destruct (negb (nonempty ca)); [exists r; auto|].
    eexists. split; [reflexivity|].
    intros pos a [<-|Hp] Ha; [|apply Hweak; assumption].
    simpl in Ha. rewrite (ligatureMarks_of_components l ca Hca) in Ha.
    apply in_concat in Ha. destruct Ha as [c [Hc Ha]].
    apply in_map_iff in Hc. destruct Hc as [i [<- _]].
    apply (proj1 (component_of_spec i l)) in Ha.
    exists l, i. simpl. tauto.
Qed.

(** X14.  Take anchors that [NamedAnchor.__init__] built, prune them with
    any anchor pairs and give the base anchors their classes.  Then
    [_makeMarkToLigaAttachments] returns: its assertion that no mark anchor
    is attached never fails.  Every anchor it attaches is no mark, has a
    component number of at least 1, is not contextual and carries the class
    registered under its key; and [_groupAttachments], without mark class
    grouping, returns lookups for these attachments. *)
Theorem _makeMarkToLigaAttachments_after_classes
    (markClasses : sdict MarkClass.t) (anchorPairs : sdict string)
    (markGlyphNames : list string) (ligatureClass : option (list string))
    (anchorLists : sdict (list NamedAnchor.t)) :
  (forall g l a, In (g, l) anchorLists -> In a l -> built a) ->
  exists r,
    _makeMarkToLigaAttachments markGlyphNames ligatureClass
      (_setBaseAnchorMarkClasses markClasses
         (_pruneUnusedAnchors anchorPairs anchorLists)) = Ok r
    /\ (forall pos a, In pos r -> In a (attachment_anchors pos) ->
          NamedAnchor.isMark a = false
          /\ (exists n, NamedAnchor.number a = Some n /\ 1 <= n)
          /\ NamedAnchor.isContextual a = false
          /\ exists mc, NamedAnchor.markClass a = Some mc
                        /\ sget markClasses (NamedAnchor.key a) = Some mc)
    /\ exists lookups, _groupAttachments false markClasses r = Ok lookups.
Proof.
  intros Hbuilt.
  set (L2 := _setBaseAnchorMarkClasses markClasses
               (_pruneUnusedAnchors anchorPairs anchorLists)).
  assert (Horigin : forall g l' a', In (g, l') L2 -> In a' l' ->
            exists a0, built a0 /\ a' = setBaseAnchorMarkClass markClasses a0).
  { intros g l' a' Hin Ha. apply _setBaseAnchorMarkClasses_In in Hin.
    destruct Hin as [l1 [Hin ->]]. apply in_map_iff in Ha.
    destruct Ha as [a0 [<- Ha0]]. exists a0. split; [|reflexivity].
    apply prune_glyphs_In in Hin. destruct Hin as [l0 [Hin [-> _]]].
    apply filter_In in Ha0. destruct Ha0 as [Ha0 _].
    exact (Hbuilt g l0 a0 Hin Ha0). }
  destruct (_makeMarkToLigaAttachments_anchors markGlyphNames ligatureClass L2)
    as [r [Hr Hanch]].
  { intros g l' a' Hin Ha Hm.
    destruct (Horigin g l' a' Hin Ha) as [a0 [Hb ->]].
    destruct (built_facts a0 Hb) as [Hmc [Hmark _]].
    destruct (setBaseAnchorMarkClass_fields markClasses a0 Hmc)
      as [_ [Hk [Hm' [_ [_ [Hmc' _]]]]]].
    rewrite Hm' in Hm. rewrite Hm in Hmc'. rewrite Hk.
    split; [exact Hmc' | apply (Hmark Hm)]. }
  assert (Hfacts : forall pos a, In pos r -> In a (attachment_anchors pos) ->
            NamedAnchor.isMark a = false
            /\ (exists n, NamedAnchor.number a = Some n /\ 1 <= n)
            /\ NamedAnchor.isContextual a = false
            /\ exists mc, NamedAnchor.markClass a = Some mc
                          /\ sget markClasses (NamedAnchor.key a) = Some mc).
  { intros pos a Hp Ha.
    destruct (Hanch pos a Hp Ha) as [l' [i [Hin [Hal Hkeyed]]]].
    destruct (Horigin _ l' a Hin Hal) as [a0 [Hb ->]].
    destruct (built_facts a0 Hb) as [Hmc [_ [Hnum _]]].
    destruct (setBaseAnchorMarkClass_fields markClasses a0 Hmc)
      as [_ [Hk [Hm' [Hn' [Hc' [Hmc' _]]]]]].
    unfold keyed_for, collected in Hkeyed.
    rewrite Hk, Hn', Hc' in Hkeyed. rewrite Hk, Hm', Hn', Hc'.
    destruct (NamedAnchor.markClass (setBaseAnchorMarkClass markClasses a0))
      as [mc|] eqn:Emc.
    - destruct (NamedAnchor.isMark a0); [discriminate|].
      destruct (NamedAnchor.key a0) eqn:Ek; [discriminate|]. simpl in Hmc'.
      destruct (NamedAnchor.number a0) as [n|] eqn:En; [|discriminate].
      destruct (NamedAnchor.isContextual a0); [discriminate|].
      split; [reflexivity|]. split; [exists n; auto|].
      split; [reflexivity|]. exists mc. auto.
    - destruct (PyStr.truthy (NamedAnchor.key a0)); simpl in Hkeyed;
        rewrite ?andb_false_r in Hkeyed; discriminate Hkeyed. }
  exists r. split; [exact Hr|]. split; [exact Hfacts|].
  apply _groupAttachments_ungrouped_total.
  intros a Ha. unfold lookup_anchors in Ha. apply in_flat_map in Ha.
  destruct Ha as [pos [Hpos Ha]].
  destruct (Hfacts pos a Hpos Ha) as [_ [_ [_ [mc [-> _]]]]]. discriminate.
Qed.

Lemma _makeMarkToLigaAttachments_after_classes_witness :
  exists r,
    _makeMarkToLigaAttachments ["acutecomb"] None
      (_setBaseAnchorMarkClasses top_bottom_markClasses
         (_pruneUnusedAnchors [("top_1", "_top"); ("top_2", "_top")]
            ligature_anchorLists)) = Ok r
    /\ r <> [].
Proof.
  destruct (_makeMarkToLigaAttachments_after_classes top_bottom_markClasses
              [("top_1", "_top"); ("top_2", "_top")] ["acutecomb"] None
              ligature_anchorLists) as [r [Hr _]].
  - intros g l a Hin Ha. simpl in Hin.
    repeat (destruct Hin as [[= <- <-]|Hin];
            [simpl in Ha;
             repeat (destruct Ha as [<-|Ha];
                     [exists 0%Q, 0%Q, None; reflexivity|]);
             destruct Ha|]).
    destruct Hin.
  - exists r. split; [exact Hr|].
    intros ->. discriminate Hr.
Defined.

(** ** Mark-to-mark attachments *)

Lemma mkmk_holds_append (results : sdict (list Attachment)) k0 pos0 k pos :
  mkmk_holds (sset results k0
                (match sget results k0 with
                 | Some l => l ++ [pos0]
                 | None => [pos0]
                 end)) k pos
  <-> mkmk_holds results k pos \/ (k = k0 /\ pos = pos0).
Proof.
  unfold mkmk_holds. destruct (String.eqb_spec k k0) as [->|Hne].
  - rewrite sget_set_same. destruct (sget results k0) as [l0|]; split.
    + intros [l [[= <-] Hin]]. apply in_app_iff in Hin.
      destruct Hin as [Hin|[<-|[]]]; eauto.
    + intros [[l [[= <-] Hin]]|[_ ->]]; eexists; split; try reflexivity;
        apply in_app_iff; simpl; auto.
    + intros [l [[= <-] [<-|[]]]]. auto.
    + intros [[l [[=] _]]|[_ ->]]. eexists. split; [reflexivity|]. simpl. auto.
  - rewrite sget_set_other by assumption. split; [auto|].
    intros [H|[E _]]; [assumption | contradiction].
Qed.

Lemma markToMark_anchors_spec g anchors :
  forall results log results' log',
    markToMark_anchors g anchors results log = (results', log') ->
    (NoDup (Dict.keys results) -> NoDup (Dict.keys results'))
    /\ ((forall k, sget results k <> Some []) ->
        forall k, sget results' k <> Some [])
    /\ (forall k pos,
          mkmk_holds results' k pos <->
          mkmk_holds results k pos
          \/ exists a, In a anchors /\ mkmk_attached a = true
                       /\ NamedAnchor.key a = k /\ pos = MarkToMarkPos g [a])
    /\ (forall w,
          In w log' <->
          In w log
          \/ exists a, In a anchors /\ mkmk_warned a = true
                       /\ w = invalid_ligature_anchor (NamedAnchor.name a) g).
Proof.
  induction anchors as [|a anchors IH]; intros results log results' log' H;
    simpl in H.
  - injection H as <- <-. split; [auto|]. split; [auto|]. split.
    + intros k pos. split; [auto | intros [?|[a [[] _]]]; assumption].
    + intros w. split; [auto | intros [?|[a [[] _]]]; assumption].
  - assert (Hskip : forall results0 log0,
              markToMark_anchors g anchors results0 log0 = (results', log') ->
              mkmk_attached a = false ->
              (forall k pos, mkmk_holds results0 k pos <-> mkmk_holds results k pos) ->
              (NoDup (Dict.keys results) -> NoDup (Dict.keys results0)) ->
              ((forall k, sget results k <> Some []) ->
               forall k, sget results0 k <> Some []) ->
              (forall w, In w log0 <->
                 In w log \/ (mkmk_warned a = true
                              /\ w = invalid_ligature_anchor (NamedAnchor.name a) g)) ->
              (NoDup (Dict.keys results) -> NoDup (Dict.keys results'))
              /\ ((forall k, sget results k <> Some []) ->
                  forall k, sget results' k <> Some [])
              /\ (forall k pos,
                    mkmk_holds results' k pos <->
                    mkmk_holds results k pos
                    \/ exists a', In a' (a :: anchors) /\ mkmk_attached a' = true
                                  /\ NamedAnchor.key a' = k
                                  /\ pos = MarkToMarkPos g [a'])
              /\ (forall w,
                    In w log' <->
                    In w log
                    \/ exists a', In a' (a :: anchors) /\ mkmk_warned a' = true
                                  /\ w = invalid_ligature_anchor
                                           (NamedAnchor.name a') g)).
    { intros results0 log0 H0 Hatt Hholds Hnd0 Hne0 Hlog0.
      destruct (IH _ _ _ _ H0) as [Hnd [Hne [Hh Hl]]].
      split; [auto|]. split; [auto|]. split.
      - intros k pos. rewrite Hh, Hholds. split.
        + intros [?|[a' [Ha' R]]]; [auto|]. right. exists a'. simpl. auto.
        + intros [?|[a' [[<-|Ha'] [Hm R]]]]; [auto|congruence|].
          right. exists a'. auto.
      - intros w. rewrite Hl, Hlog0. split.
        + intros [[?|[Hw ->]]|[a' [Ha' R]]]; [auto| |].
          * right. exists a. simpl. auto.
          * right. exists a'. simpl. auto.
        + intros [?|[a' [[<-|Ha'] [Hm R]]]]; [auto|auto|].
          right. exists a'. auto. }
    assert (Hwarn : forall (b : bool) w,
              In w log <-> In w log \/ (false && b = true
                /\ w = invalid_ligature_anchor (NamedAnchor.name a) g))
      by (intros b w; simpl; intuition discriminate).
    destruct (is_none (NamedAnchor.markClass a) || NamedAnchor.isMark a) eqn:E1.
    { apply (Hskip _ _ H); try tauto; unfold mkmk_attached, mkmk_warned;
        rewrite E1; [reflexivity|]. apply Hwarn. }
    destruct (NamedAnchor.isContextual a) eqn:E2.
    { apply (Hskip _ _ H); try tauto; unfold mkmk_attached, mkmk_warned;
        rewrite E1, E2; [reflexivity|]. apply Hwarn. }
    destruct (is_none (NamedAnchor.number a)) eqn:E3; cbn [negb] in H.
    + clear Hskip Hwarn.
      assert (Hatt : mkmk_attached a = true)
        by (unfold mkmk_attached; rewrite E1, E2, E3; reflexivity).
      assert (Hnw : mkmk_warned a = false)
        by (unfold mkmk_warned; rewrite E1, E2, E3; reflexivity).
      destruct (IH _ _ _ _ H) as [Hnd [Hne [Hh Hl]]].
      split; [|split; [|split]].
      * intros Hr. apply Hnd. apply sNoDup_keys_set. exact Hr.
      * intros Hr. apply Hne. intros k.
        destruct (String.eqb_spec k (NamedAnchor.key a)) as [->|Hk].
        -- rewrite sget_set_same.
           destruct (sget results (NamedAnchor.key a)) as [l|]; [|discriminate].
           destruct l; discriminate.
        -- rewrite sget_set_other by assumption. apply Hr.
      * intros k pos. rewrite Hh, mkmk_holds_append. split.
        -- intros [[?|[-> ->]]|[a' [Ha' R]]]; [auto| |].
           ++ right. exists a. simpl. auto.
           ++ right. exists a'. simpl. auto.
        -- intros [?|[a' [[<-|Ha'] [Hm [<- ->]]]]]; [auto|auto|].
           right. exists a'. auto.
      * intros w. rewrite Hl. split.
        -- intros [?|[a' [Ha' R]]]; [auto|]. right. exists a'. simpl. auto.
        -- intros [?|[a' [[<-|Ha'] [Hm R]]]]; [auto|congruence|].
           right. exists a'. auto.
    + apply (Hskip _ _ H); try tauto; unfold mkmk_attached, mkmk_warned;
        rewrite E1, E2, E3; [reflexivity|].
      intros w. rewrite in_app_iff. simpl. intuition congruence.
Qed.

Lemma markToMark_glyphs_spec markGlyphNames items :
  forall results log results' log',
    markToMark_glyphs markGlyphNames items results log = (results', log') ->
    (NoDup (Dict.keys results) -> NoDup (Dict.keys results'))
    /\ ((forall k, sget results k <> Some []) ->
        forall k, sget results' k <> Some [])
    /\ (forall k pos,
          mkmk_holds results' k pos <->
          mkmk_holds results k pos
          \/ exists g l a,
               In (g, l) items /\ str_in g markGlyphNames = true /\ In a l
               /\ mkmk_attached a = true /\ NamedAnchor.key a = k
               /\ pos = MarkToMarkPos g [a])
    /\ (forall w,
          In w log' <->
          In w log
          \/ exists g l a,
               In (g, l) items /\ str_in g markGlyphNames = true /\ In a l
               /\ mkmk_warned a = true
               /\ w = invalid_ligature_anchor (NamedAnchor.name a) g).
Proof.
  induction items as [|[g l] items IH]; intros results log results' log' H;
    simpl in H.
  - injection H as <- <-. split; [auto|]. split; [auto|]. split.
    + intros k pos. split; [auto | intros [?|[g [l [a [[] _]]]]]; assumption].
    + intros w. split; [auto | intros [?|[g [l [a [[] _]]]]]; assumption].
  - destruct (str_in g markGlyphNames) eqn:Eg; cbn [negb] in H.
    + destruct (markToMark_anchors g l results log) as [results1 log1] eqn:E1.
      destruct (markToMark_anchors_spec g l _ _ _ _ E1) as [Hnd1 [Hne1 [Hh1 Hl1]]].
      destruct (IH _ _ _ _ H) as [Hnd [Hne [Hh Hl]]].
      split; [auto|]. split; [auto|]. split.
      * intros k pos. rewrite Hh, Hh1. split.
        -- intros [[?|[a [Ha R]]]|[g' [l' [a [Hin R]]]]]; [auto| |].
           ++ right. exists g, l, a. simpl. auto.
           ++ right. exists g', l', a. simpl. auto.
        -- intros [?|[g' [l' [a [[[= <- <-]|Hin] [Hg R]]]]]]; [auto| |].
           ++ left. right. exists a. exact R.
           ++ right. exists g', l', a. auto.
      * intros w. rewrite Hl, Hl1. split.
        -- intros [[?|[a [Ha R]]]|[g' [l' [a [Hin R]]]]]; [auto| |].
           ++ right. exists g, l, a. simpl. auto.
           ++ right. exists g', l', a. simpl. auto.
        -- intros [?|[g' [l' [a [[[= <- <-]|Hin] [Hg R]]]]]]; [auto| |].
           ++ left. right. exists a. exact R.
           ++ right. exists g', l', a. auto.
    + destruct (IH _ _ _ _ H) as [Hnd [Hne [Hh Hl]]].
      split; [auto|]. split; [auto|]. split.
      * intros k pos. rewrite Hh. split.
        -- intros [?|[g' [l' [a [Hin R]]]]]; [auto|].
           right. exists g', l', a. simpl. auto.
        -- intros [?|[g' [l' [a [[[= <- <-]|Hin] [Hg R]]]]]];
             [auto|congruence|]. right. exists g', l', a. auto.
      * intros w. rewrite Hl. split.
        -- intros [?|[g' [l' [a [Hin R]]]]]; [auto|].
           right. exists g', l', a. simpl. auto.
        -- intros [?|[g' [l' [a [[[= <- <-]|Hin] [Hg R]]]]]];
             [auto|congruence|]. right. exists g', l', a. auto.
Qed.

(** X15.  [_makeMarkToMarkAttachments] returns a dict with one entry per
    anchor key and no empty entry.  Under a key it holds exactly the
    attachments of one anchor each, [MarkToMarkPos glyph [anchor]], for
    the anchors with that key of the mark glyphs that have a mark class,
    are no mark anchors, are not contextual and have no component number.
    The warnings logged are exactly those for the anchors of mark glyphs
    that differ from these by having a component number. *)
Theorem _makeMarkToMarkAttachments_entries
    (markGlyphNames : list string) (anchorLists : sdict (list NamedAnchor.t))
    (results : sdict (list Attachment)) (log : list mkmk_warning) :
  _makeMarkToMarkAttachments markGlyphNames anchorLists = (results, log) ->
  NoDup (Dict.keys results)
  /\ (forall k, sget results k <> Some [])
  /\ (forall k pos,
        mkmk_holds results k pos <->
        exists g l a,
          In (g, l) anchorLists /\ str_in g markGlyphNames = true /\ In a l
          /\ mkmk_attached a = true /\ NamedAnchor.key a = k
          /\ pos = MarkToMarkPos g [a])
  /\ (forall w,
        In w log <->
        exists g l a,
          In (g, l) anchorLists /\ str_in g markGlyphNames = true /\ In a l
          /\ mkmk_warned a = true
          /\ w = invalid_ligature_anchor (NamedAnchor.name a) g).
Proof.
  unfold _makeMarkToMarkAttachments. intros H.
  destruct (markToMark_glyphs_spec _ _ _ _ _ _ H) as [Hnd [Hne [Hh Hl]]].
  split; [apply Hnd; constructor|].
  split; [apply Hne; intros k; discriminate|]. split.
  - intros k pos. rewrite Hh. split; [|auto].
    intros [[l [Hl0 _]]|R]; [discriminate | exact R].
  - intros w. rewrite Hl. split; [|auto]. intros [[]|R]. exact R.
Qed.

Lemma _makeMarkToMarkAttachments_entries_witness :
  exists results log,
    _makeMarkToMarkAttachments ["acutecomb"] stacking_anchorLists
    = (results, log)
    /\ NoDup (Dict.keys results)
    /\ log = [invalid_ligature_anchor "top_1" "acutecomb"].
Proof.
  eexists. eexists. split; [reflexivity|]. split; [|reflexivity].
  apply (_makeMarkToMarkAttachments_entries ["acutecomb"] stacking_anchorLists
           _ _ eq_refl).
Defined.

(** ** Mark glyphs grouped by anchor *)

Lemma in_gdef_class_test class g :
  match class with
  | Some glyphs => negb (str_in g glyphs)
  | None => false
  end = false <-> in_gdef_class class g.
Proof.
  unfold in_gdef_class. destruct class as [glyphs|].
  - split.
    + intros H glyphs' [= <-]. apply str_in_In.
      destruct (str_in g glyphs); [reflexivity | discriminate].
    + intros H. specialize (H glyphs eq_refl). apply str_in_In in H.
      rewrite H. reflexivity.
  - split; [intros _ glyphs; discriminate | reflexivity].
Qed.

Lemma distinct_names_filter (keep : NamedAnchor.t -> bool)
    (anchors : list NamedAnchor.t) :
  NoDup (map NamedAnchor.name anchors) ->
  NoDup (map NamedAnchor.name (filter keep anchors)).
Proof.
  induction anchors as [|x anchors IHanchors]; simpl; intros Hnames;
    [apply NoDup_nil|].
  apply NoDup_cons_iff in Hnames. destruct Hnames as [Hfresh Hrest].
  destruct (keep x); simpl; [|auto].
  apply NoDup_cons; [|auto].
  intros Hin. apply Hfresh. apply in_map_iff in Hin.
  destruct Hin as [y [E Hy]]. apply filter_In in Hy.
  apply in_map_iff. exists y. tauto.
Qed.

Lemma group_entry_set (groups : sdict (sdict NamedAnchor.t)) g a n g' a' :
  (forall a0, ~ group_entry groups (NamedAnchor.name a) g a0) ->
  group_entry
    (sset groups (NamedAnchor.name a)
       (sset match sget groups (NamedAnchor.name a) with
             | Some group => group
             | None => []
             end g a)) n g' a'
  <-> group_entry groups n g' a'
      \/ (n = NamedAnchor.name a /\ g' = g /\ a' = a).
Proof.
  intros Hfree. unfold group_entry.
  destruct (String.eqb_spec n (NamedAnchor.name a)) as [->|Hn].
  - rewrite sget_set_same. split.
    + intros [group [[= <-] Hg]].
      destruct (String.eqb_spec g' g) as [->|Hg'].
      * rewrite sget_set_same in Hg. injection Hg as <-. auto.
      * rewrite sget_set_other in Hg by assumption. left.
        destruct (sget groups (NamedAnchor.name a)) as [group|];
          [eauto | discriminate].
    + intros [[group [Hgr Hg]]|[_ [-> ->]]].
      * eexists. split; [reflexivity|]. rewrite Hgr.
        rewrite sget_set_other; [assumption|].
        intros ->. apply (Hfree a'). exists group. auto.
      * eexists. split; [reflexivity|]. apply sget_set_same.
  - rewrite sget_set_other by assumption. split; [auto|].
    intros [H|[E _]]; [assumption | contradiction].
Qed.

Lemma group_markAnchors_spec g anchors :
  forall groups,
    NoDup (map NamedAnchor.name anchors) ->
    (forall a a0, In a anchors -> ~ group_entry groups (NamedAnchor.name a) g a0) ->
    exists groups',
      group_markAnchors g anchors groups = Ok groups'
      /\ (forall n g' a',
            group_entry groups' n g' a' <->
            group_entry groups n g' a'
            \/ (g' = g /\ In a' anchors /\ NamedAnchor.name a' = n))
      /\ (NoDup (Dict.keys groups) -> NoDup (Dict.keys groups')).
Proof.
  induction anchors as [|a anchors IH]; intros groups Hnd Hfree.
  - exists groups. split; [reflexivity|]. split; [|auto].
    intros n g' a'. split; [auto | intros [?|[_ [[] _]]]; assumption].
  - inversion Hnd as [|? ? Hni Hnd']; subst.
    assert (Hfree_a : forall a0, ~ group_entry groups (NamedAnchor.name a) g a0)
      by (intros a0; apply Hfree; simpl; auto).
    cbn [group_markAnchors].
    assert (Hmem : smem match sget groups (NamedAnchor.name a) with
                        | Some group => group
                        | None => []
                        end g = false).
    { unfold Dict.mem.
      destruct (sget groups (NamedAnchor.name a)) as [group|] eqn:Eg;
        [|reflexivity].
      destruct (sget group g) as [a0|] eqn:Ea; [|reflexivity].
      exfalso. apply (Hfree_a a0). exists group. auto. }
    rewrite Hmem. cbn [negb assert bind].
    destruct (IH (sset groups (NamedAnchor.name a)
                    (sset match sget groups (NamedAnchor.name a) with
                          | Some group => group
                          | None => []
                          end g a)) Hnd')
      as [groups' [Hrun [Hentry Hkeys]]].
    { intros b b0 Hb Hent. apply group_entry_set in Hent; [|exact Hfree_a].
      destruct Hent as [Hent|[E _]].
      - apply (Hfree b b0); simpl; auto.
      - apply Hni. rewrite <- E. apply in_map. exact Hb. }
    exists groups'. split; [exact Hrun|]. split.
    + intros n g' a'. rewrite Hentry, group_entry_set by exact Hfree_a. split.
      * intros [[?|[-> [-> ->]]]|[-> [Ha' <-]]]; simpl; auto.
      * intros [?|[-> [[<-|Ha'] <-]]]; auto.
    + intros Hk. apply Hkeys. apply sNoDup_keys_set. exact Hk.
Qed.

Lemma group_markGlyphs_spec gdefMarks markAnchorNames items :
  forall groups markGlyphNames,
    NoDup (Dict.keys items) ->
    (forall g l, In (g, l) items -> NoDup (map NamedAnchor.name l)) ->
    (forall g n a, In g (Dict.keys items) -> ~ group_entry groups n g a) ->
    exists groups' markGlyphNames',
      group_markGlyphs gdefMarks markAnchorNames items groups markGlyphNames
      = Ok (groups', markGlyphNames')
      /\ (forall n g a,
            group_entry groups' n g a <->
            group_entry groups n g a
            \/ exists l, In (g, l) items /\ in_gdef_class gdefMarks g
                         /\ In a l /\ NamedAnchor.name a = n
                         /\ In n markAnchorNames)
      /\ (forall g,
            In g markGlyphNames' <->
            In g markGlyphNames
            \/ exists l a, In (g, l) items /\ in_gdef_class gdefMarks g
                           /\ In a l /\ In (NamedAnchor.name a) markAnchorNames)
      /\ (NoDup (Dict.keys groups) -> NoDup (Dict.keys groups')).
Proof.
  induction items as [|[g l] items IH]; intros groups mgn Hnd Hnames Hfree.
  - exists groups, mgn. split; [reflexivity|]. split; [|split; [|auto]].
    + intros n g a. split; [auto | intros [?|[l [[] _]]]; assumption].
    + intros g. split; [auto | intros [?|[l [a [[] _]]]]; assumption].
  - simpl in Hnd. inversion Hnd as [|? ? Hni Hnd']; subst.
    assert (Hnames' : forall g0 l0, In (g0, l0) items ->
                                    NoDup (map NamedAnchor.name l0))
      by (intros g0 l0 H0; apply (Hnames g0 l0); simpl; auto).
    cbn [group_markGlyphs].
    destruct (match gdefMarks with
              | Some gdefMarks0 => negb (str_in g gdefMarks0)
              | None => false
              end) eqn:Egdef.
    { destruct (IH groups mgn Hnd' Hnames')
        as [groups' [mgn' [Hrun [Hentry [Hmgn Hkeys]]]]].
      { intros g0 n a Hg0. apply Hfree. simpl. auto. }
      assert (Hno : ~ in_gdef_class gdefMarks g).
      { intros Hc. apply in_gdef_class_test in Hc. congruence. }
      exists groups', mgn'. split; [exact Hrun|]. split; [|split; [|exact Hkeys]].
      - intros n g0 a. rewrite Hentry. split.
        + intros [?|[l0 [Hin R]]]; [auto|]. right. exists l0. simpl. auto.
        + intros [?|[l0 [[[= <- <-]|Hin] [Hc R]]]]; [auto|contradiction|].
          right. exists l0. auto.
      - intros g0. rewrite Hmgn. split.
        + intros [?|[l0 [a [Hin R]]]]; [auto|]. right. exists l0, a. simpl. auto.
        + intros [?|[l0 [a [[[= <- <-]|Hin] [Hc R]]]]]; [auto|contradiction|].
          right. exists l0, a. auto. }
    apply in_gdef_class_test in Egdef.
    set (markAnchors := filter (fun a => str_in (NamedAnchor.name a) markAnchorNames) l).
    assert (HmarkIn : forall a, In a markAnchors <->
                                In a l /\ In (NamedAnchor.name a) markAnchorNames).
    { intros a. unfold markAnchors. rewrite filter_In, str_in_In. tauto. }
    destruct (nonempty markAnchors) eqn:Ene; cbn [negb].
    + destruct (group_markAnchors_spec g markAnchors groups)
        as [groups1 [Hrun1 [Hentry1 Hkeys1]]].
      { apply distinct_names_filter. apply (Hnames g l). simpl. auto. }
      { intros a a0 _. apply Hfree. simpl. auto. }
      rewrite Hrun1. cbn [bind].
      destruct (IH groups1 (set_add g mgn) Hnd' Hnames')
        as [groups' [mgn' [Hrun [Hentry [Hmgn Hkeys]]]]].
      { intros g0 n a Hg0 Hent. apply Hentry1 in Hent.
        destruct Hent as [Hent|[-> _]]; [|contradiction].
        apply (Hfree g0 n a); simpl; auto. }
      exists groups', mgn'. split; [exact Hrun|]. split; [|split; [|auto]].
      * intros n g0 a. rewrite Hentry, Hentry1. split.
        -- intros [[?|[-> [Ha <-]]]|[l0 [Hin R]]]; [auto| |].
           ++ apply HmarkIn in Ha. right. exists l. simpl. tauto.
           ++ right. exists l0. simpl. auto.
        -- intros [?|[l0 [[[= <- <-]|Hin] [Hc [Ha [Hn Hm]]]]]]; [auto| |].
           ++ left. right. split; [reflexivity|]. split; [|exact Hn].
              apply HmarkIn. rewrite Hn. auto.
           ++ right. exists l0. auto.
      * intros g0. rewrite Hmgn, set_add_In. split.
        -- intros [[->|?]|[l0 [a [Hin R]]]]; [|auto|].
           ++ destruct markAnchors as [|a ms] eqn:Em; [discriminate|].
              assert (Ha : In a (a :: ms)) by (simpl; auto).
              apply HmarkIn in Ha. right. exists l, a. simpl. tauto.
           ++ right. exists l0, a. simpl. auto.
        -- intros [?|[l0 [a [[[= <- <-]|Hin] R]]]]; [auto|auto|].
           right. exists l0, a. auto.
    + apply nonempty_false in Ene.
      destruct (IH groups mgn Hnd' Hnames')
        as [groups' [mgn' [Hrun [Hentry [Hmgn Hkeys]]]]].
      { intros g0 n a Hg0. apply Hfree. simpl. auto. }
      assert (Hno : forall a, In a l ->
                              ~ In (NamedAnchor.name a) markAnchorNames).
      { intros a Ha Hn. assert (Hin : In a markAnchors) by (apply HmarkIn; auto).
        rewrite Ene in Hin. destruct Hin. }
      exists groups', mgn'. split; [exact Hrun|]. split; [|split; [|exact Hkeys]].
      * intros n g0 a. rewrite Hentry. split.
        -- intros [?|[l0 [Hin R]]]; [auto|]. right. exists l0. simpl. auto.
        -- intros [?|[l0 [[[= <- <-]|Hin] [Hc [Ha [Hn Hm]]]]]]; [auto| |].
           ++ exfalso. apply (Hno a Ha). rewrite Hn. exact Hm.
           ++ right. exists l0. auto.
      * intros g0. rewrite Hmgn. split.
        -- intros [?|[l0 [a [Hin R]]]]; [auto|]. right. exists l0, a. simpl. auto.
        -- intros [?|[l0 [a [[[= <- <-]|Hin] [Hc [Ha Hm]]]]]]; [auto| |].
           ++ exfalso. apply (Hno a Ha Hm).
           ++ right. exists l0, a. auto.
Qed.

(** X16.  On anchor lists with one anchor per name in each glyph, as
    [_getAnchorLists] builds them, [_groupMarkGlyphsByAnchor] returns: its
    assertion that a glyph enters a group once never fails.  The groups
    record exactly, under each mark anchor name of the anchor pairs, the
    anchor of that name of every glyph that passes the GDEF mark class;
    and the mark glyph names are exactly the glyphs that pass it and have
    an anchor so named. *)
Theorem _groupMarkGlyphsByAnchor_groups
    (gdefMarks : option (list string)) (anchorPairs : sdict string)
    (anchorLists : sdict (list NamedAnchor.t)) :
  NoDup (Dict.keys anchorLists) ->
  (forall g l, In (g, l) anchorLists -> NoDup (map NamedAnchor.name l)) ->
  exists groups markGlyphNames,
    _groupMarkGlyphsByAnchor gdefMarks anchorPairs anchorLists
    = Ok (groups, markGlyphNames)
    /\ NoDup (Dict.keys groups)
    /\ (forall n g a,
          group_entry groups n g a <->
          exists l, In (g, l) anchorLists /\ in_gdef_class gdefMarks g
                    /\ In a l /\ NamedAnchor.name a = n
                    /\ In n (Dict.values anchorPairs))
    /\ (forall g,
          In g markGlyphNames <->
          exists l a, In (g, l) anchorLists /\ in_gdef_class gdefMarks g
                      /\ In a l
                      /\ In (NamedAnchor.name a) (Dict.values anchorPairs)).
Proof.
  intros Hnd Hnames. unfold _groupMarkGlyphsByAnchor.
  destruct (group_markGlyphs_spec gdefMarks (Dict.values anchorPairs)
              anchorLists [] [] Hnd Hnames)
    as [groups [mgn [Hrun [Hentry [Hmgn Hkeys]]]]].
  { intros g n a _ [group [H _]]. discriminate. }
  exists groups, mgn. split; [exact Hrun|].
  split; [apply Hkeys; constructor|]. split.
  - intros n g a. rewrite Hentry. split; [|auto].
    intros [[group [H _]]|R]; [discriminate | exact R].
  - intros g. rewrite Hmgn. split; [|auto]. intros [[]|R]. exact R.
Qed.

Lemma _groupMarkGlyphsByAnchor_groups_witness :
  exists groups,
    _groupMarkGlyphsByAnchor None [("top", "_top")] stray_anchorLists
    = Ok (groups, ["acutecomb"]).
Proof.
  destruct (_groupMarkGlyphsByAnchor_groups None [("top", "_top")]
              stray_anchorLists) as [groups [mgn [Hrun _]]].
  - repeat constructor; simpl; intuition discriminate.
  - intros g l Hin. simpl in Hin.
    repeat (destruct Hin as [[= <- <-]|Hin];
            [repeat constructor; simpl; intuition discriminate|]).
    destruct Hin.
  - exists groups. rewrite Hrun. vm_compute in Hrun.
    injection Hrun as _ <-. reflexivity.
Defined.

(** ** The order of the mark class groups *)

Lemma Permutation_concat_groups {A : Type} (gs gs' : list (list A)) :
  Permutation gs gs' -> Permutation (concat gs) (concat gs').
Proof.
  induction 1 as [|g gs gs' _ IH|g1 g2 gs|gs1 gs2 gs3 _ IH1 _ IH2]; simpl.
  - apply perm_nil.
  - apply Permutation_app_head. exact IH.
  - rewrite !app_assoc. apply Permutation_app_tail. apply Permutation_app_comm.
  - eapply perm_trans; eassumption.
Qed.

Lemma concat_sorted_groups (gs : list (list string)) :
  Permutation (concat (map (sorted String.leb) gs)) (concat gs).
Proof.
  induction gs as [|g gs IH]; simpl; [apply perm_nil|].
  apply Permutation_app; [apply sorted_perm | exact IH].
Qed.

Lemma Sorted_weaken {A : Type} (R R' : A -> A -> Prop) (l : list A) :
  (forall a b, R a b -> R' a b) -> Sorted R l -> Sorted R' l.
Proof.
  intros Himp. induction 1 as [|a l Hs IH Hhd]; constructor; [assumption|].
  destruct Hhd; constructor. auto.
Qed.

Lemma StronglySorted_suffix {A : Type} (R : A -> A -> Prop) (l1 l2 : list A) :
  StronglySorted R (l1 ++ l2) -> StronglySorted R l2.
Proof.
  induction l1 as [|a l1 IH]; simpl; intros H; [exact H|].
  apply IH. apply StronglySorted_inv in H. tauto.
Qed.

Lemma list_leb_total (l1 l2 : list string) :
  list_leb l1 l2 = true \/ list_leb l2 l1 = true.
Proof.
  revert l2. induction l1 as [|a l1 IH]; intros [|b l2]; simpl; auto.
  rewrite (String.compare_antisym a b).
  destruct (String.compare b a); simpl; auto.
Qed.

Lemma group_key_leb_total (k1 k2 : Z * list string) :
  group_key_leb k1 k2 = true \/ group_key_leb k2 k1 = true.
Proof.
  unfold group_key_leb.
  destruct (Z.ltb_spec (fst k1) (fst k2)); [auto|].
  destruct (Z.ltb_spec (fst k2) (fst k1)); [auto|].
  assert (E : fst k1 = fst k2) by lia. rewrite E, Z.eqb_refl. simpl.
  apply list_leb_total.
Qed.

Lemma group_key_leb_fst (k1 k2 : Z * list string) :
  group_key_leb k1 k2 = true -> (fst k1 <= fst k2)%Z.
Proof.
  unfold group_key_leb. intros H. apply orb_true_iff in H.
  destruct H as [H|H].
  - apply Z.ltb_lt in H. lia.
  - apply andb_true_iff in H. destruct H as [H _]. apply Z.eqb_eq in H. lia.
Qed.

Lemma class_sort_key_spec (markClass : string) (k : Z) :
  (n <- _removeClassPrefix markClass ;;
   Ok (match sget anchorSortKey n with
       | Some k => k
       | None => 0%Z
       end)) = Ok k ->
  k = class_sort_key markClass.
Proof.
  intros H. inv_bind H as n Hn. unfold _removeClassPrefix in Hn.
  inv_bind Hn as u Hu. injection Hn as <-.
  assert (Hs : PyStr.startswith markClass markClassPrefix = true).
  { destruct (PyStr.startswith markClass markClassPrefix);
      [reflexivity | discriminate]. }
  apply startswith_drop in Hs. injection H as <-.
  remember (PyStr.drop (String.length markClassPrefix) markClass) as n eqn:En.
  clear En Hu. subst markClass. unfold class_sort_key.
  change (String.eqb "MC_bottom" (markClassPrefix ++ n))
    with (String.eqb "_bottom" n).
  change (String.eqb "MC_top" (markClassPrefix ++ n))
    with (String.eqb "_top" n).
  unfold anchorSortKey, markClassPrefix. cbn [Dict.get append].
  rewrite (String.eqb_sym n "_bottom"), (String.eqb_sym n "_top").
  destruct (String.eqb "_bottom" n); [reflexivity|].
  destruct (String.eqb "_top" n); reflexivity.
Qed.

Lemma group_rank_cons (c : string) (group : list string) :
  (- group_rank (c :: group))%Z
  = Z.min (class_sort_key c) (- group_rank group)%Z.
Proof.
  unfold group_rank, class_sort_key, str_in. cbn [existsb].
  destruct (String.eqb "MC_bottom" c), (String.eqb "MC_top" c),
    (existsb (String.eqb "MC_bottom") group),
    (existsb (String.eqb "MC_top") group); reflexivity.
Qed.

Lemma group_rank_range (group : list string) :
  (0 <= group_rank group <= 2)%Z.
Proof.
  unfold group_rank.
  destruct (str_in "MC_bottom" group), (str_in "MC_top" group); lia.
Qed.

Lemma fold_min_class_sort_key (group : list string) (acc : Z) :
  (acc <= 0)%Z ->
  fold_left Z.min (map class_sort_key group) acc
  = Z.min acc (- group_rank group)%Z.
Proof.
  revert acc. induction group as [|c group IH]; intros acc Hacc.
  - simpl. change (group_rank []) with 0%Z. lia.
  - cbn [map fold_left]. rewrite IH by lia.
    rewrite group_rank_cons. lia.
Qed.

Lemma group_sort_key_rank (group : list string) (k : Z * list string) :
  group_sort_key group = Ok k -> fst k = group_rank group /\ snd k = group.
Proof.
  intros H. split; [|apply (group_sort_key_snd _ _ H)].
  unfold group_sort_key in H. inv_bind H as ks Hks.
  assert (Hmap : ks = map class_sort_key group).
  { clear H. revert ks Hks. induction group as [|c group IH]; simpl; intros ks H.
    - injection H as <-. reflexivity.
    - inv_bind H as z Hz. inv_bind H as zs Hzs. injection H as <-.
      rewrite (class_sort_key_spec c z Hz), (IH zs Hzs). reflexivity. }
  destruct group as [|c group]; simpl in Hmap; subst ks; [discriminate|].
  injection H as <-. simpl fst.
  rewrite fold_min_class_sort_key, <- group_rank_cons by
    (unfold class_sort_key;
     destruct (String.eqb "MC_bottom" c), (String.eqb "MC_top" c); lia).
  lia.
Qed.

Lemma _groupMarkClasses_sorted_groups
    (markGlyphToMarkClasses : sdict (list string)) (grouped : list (list string)) :
  _groupMarkClasses markGlyphToMarkClasses = Ok grouped ->
  exists colorGroups keyed,
    mapM group_sort_key (map (sorted String.leb) colorGroups) = Ok keyed
    /\ grouped = map snd (sorted group_key_leb keyed)
    /\ Forall (fun g => g <> []) colorGroups
    /\ Permutation grouped (map (sorted String.leb) colorGroups)
    /\ NoDup (concat grouped)
    /\ forall c, In c (concat grouped) <->
                 In c (concat (Dict.values markGlyphToMarkClasses)).
Proof.
  intros H. unfold _groupMarkClasses in H.
  inv_bind H as adj Hadj. inv_bind H as colorGroups Hcolor.
  inv_bind H as keyed Hkeyed. injection H as <-.
  destruct (conflict_graph_spec markGlyphToMarkClasses)
    as [adj' [Hadj' [Hnd [Hsym [Hkeys _]]]]].
  assert (adj' = adj) by congruence. subst adj'.
  destruct (colorGraph_spec adj Hnd Hsym)
    as [colors [groups [Hrun [Hperm [Hne _]]]]].
  assert (groups = colorGroups) by congruence. subst groups.
  pose proof (mapM_group_sort_key_snd _ _ Hkeyed) as Hsnd.
  assert (Hgrouped : Permutation (map snd (sorted group_key_leb keyed))
                                 (map (sorted String.leb) colorGroups)).
  { rewrite <- Hsnd. apply Permutation_map. apply sorted_perm. }
  assert (Hall : Permutation (concat (map snd (sorted group_key_leb keyed)))
                             (Dict.keys adj)).
  { eapply perm_trans; [apply Permutation_concat_groups; exact Hgrouped|].
    eapply perm_trans; [apply concat_sorted_groups | exact Hperm]. }
  exists colorGroups, keyed. split; [exact Hkeyed|]. split; [reflexivity|].
  split; [exact Hne|]. split; [exact Hgrouped|]. split.
  - eapply Permutation_NoDup; [symmetry; exact Hall | exact Hnd].
  - intros c. rewrite <- Hkeys. split; apply Permutation_in;
      [exact Hall | symmetry; exact Hall].
Qed.

(** X17.  The groups that [_groupMarkClasses] returns partition the mark
    class names it was given: every class name is in exactly one group.
    No group is empty, each one is sorted alphabetically, and the groups
    are ordered by rank: first the groups with neither the class of "_top"
    nor that of "_bottom", then the group that holds "MC_top", and the
    group that holds "MC_bottom" is the last one, so that its lookup is
    applied last. *)
Theorem _groupMarkClasses_partition_order
    (markGlyphToMarkClasses : sdict (list string)) (grouped : list (list string)) :
  _groupMarkClasses markGlyphToMarkClasses = Ok grouped ->
  NoDup (concat grouped)
  /\ (forall c, In c (concat grouped) <->
                In c (concat (Dict.values markGlyphToMarkClasses)))
  /\ Forall (fun group =>
               group <> []
               /\ StronglySorted (fun a b => String.leb a b = true) group)
            grouped
  /\ StronglySorted (fun g1 g2 => (group_rank g1 <= group_rank g2)%Z) grouped
  /\ (forall l1 group l2,
        grouped = l1 ++ group :: l2 -> In "MC_bottom" group -> l2 = []).
Proof.
  intros H.
  destruct (_groupMarkClasses_sorted_groups _ _ H)
    as [colorGroups [keyed [Hkeyed [-> [Hne [Hgrouped [Hnodup Hcover]]]]]]].
  assert (Hrank : StronglySorted
                    (fun g1 g2 => (group_rank g1 <= group_rank g2)%Z)
                    (map snd (sorted group_key_leb keyed))).
  { apply StronglySorted_map.
    apply (StronglySorted_weaken (fun k1 k2 => (fst k1 <= fst k2)%Z)).
    - intros k1 k2 H1 H2 Hle.
      apply sorted_In in H1, H2.
      destruct (mapM_Ok_In _ _ _ Hkeyed k1 H1) as [g1 [_ Hk1]].
      destruct (mapM_Ok_In _ _ _ Hkeyed k2 H2) as [g2 [_ Hk2]].
      apply group_sort_key_rank in Hk1, Hk2.
      destruct Hk1 as [E1 S1], Hk2 as [E2 S2]. rewrite S1, S2, <- E1, <- E2.
      exact Hle.
    - apply Sorted_StronglySorted.
      + intros k1 k2 k3. apply Z.le_trans.
      + apply (Sorted_weaken (fun x y => group_key_leb x y = true)).
        * apply group_key_leb_fst.
        * apply sorted_Sorted. apply group_key_leb_total. }
  split; [exact Hnodup|]. split; [|split; [|split; [exact Hrank|]]].
  - exact Hcover.
  - apply Forall_forall. intros G HG.
    apply (Permutation_in _ Hgrouped) in HG. apply in_map_iff in HG.
    destruct HG as [g0 [<- Hg0]]. split.
    + rewrite Forall_forall in Hne. specialize (Hne g0 Hg0).
      intros E. apply Hne. apply Permutation_nil.
      rewrite <- E. apply sorted_perm.
    + apply sorted_strings_StronglySorted.
  - intros l1 G l2 E HG. destruct l2 as [|G' l2]; [reflexivity|]. exfalso.
    rewrite E in Hrank, Hnodup.
    apply StronglySorted_suffix in Hrank.
    apply StronglySorted_inv in Hrank. destruct Hrank as [_ Hrank].
    rewrite Forall_forall in Hrank. specialize (Hrank G' (or_introl eq_refl)).
    assert (HG2 : group_rank G = 2%Z).
    { unfold group_rank. apply str_in_In in HG. rewrite HG. reflexivity. }
    rewrite HG2 in Hrank.
    assert (HG' : In "MC_bottom" G').
    { apply str_in_In. pose proof (group_rank_range G') as Hr.
      unfold group_rank in Hrank, Hr.
      destruct (str_in "MC_bottom" G'); [reflexivity|].
      destruct (str_in "MC_top" G'); lia. }
    rewrite concat_app in Hnodup. apply NoDup_app_remove_l in Hnodup.
    simpl in Hnodup.
    destruct (in_split _ _ HG) as [g1 [g2 ->]].
    rewrite <- app_assoc in Hnodup. simpl in Hnodup.
    apply NoDup_remove_2 in Hnodup. apply Hnodup.
    apply in_app_iff. right. apply in_app_iff. right.
    apply in_app_iff. left. exact HG'.
Qed.

Lemma _groupMarkClasses_partition_order_witness :
  exists grouped,
    _groupMarkClasses conflicting_classes = Ok grouped
    /\ StronglySorted (fun g1 g2 => (group_rank g1 <= group_rank g2)%Z) grouped
    /\ forall l1 group l2,
         grouped = l1 ++ group :: l2 -> In "MC_bottom" group -> l2 = [].
Proof.
  eexists. split; [reflexivity|].
  split; apply (_groupMarkClasses_partition_order conflicting_classes _ eq_refl).
Defined.

Lemma mapM_app_inv {A B : Type} (f : A -> result B) (l1 l2 : list A) (a : A)
    (bs : list B) :
  mapM f (l1 ++ a :: l2) = Ok bs ->
  exists b1 b b2,
    bs = b1 ++ b :: b2
    /\ mapM f l1 = Ok b1 /\ f a = Ok b /\ mapM f l2 = Ok b2.
Proof.
  revert bs. induction l1 as [|x l1 IH]; simpl; intros bs H.
  - inv_bind H as b Hb. inv_bind H as b2 Hb2. injection H as <-.
    exists [], b, b2. repeat split; assumption.
  - inv_bind H as y Hy. inv_bind H as ys Hys. injection H as <-.
    destruct (IH _ Hys) as [b1 [b [b2 [-> [H1 [Hb H2]]]]]].
    exists (y :: b1), b, b2. rewrite Hy, H1. simpl.
    repeat split; assumption.
Qed.

Lemma NoDup_app_In_l {A : Type} (l1 l2 : list A) (a : A) :
  NoDup (l1 ++ l2) -> In a l1 -> ~ In a l2.
Proof.
  induction l1 as [|x l1 IH]; simpl; intros Hnd Hin; [destruct Hin|].
  inversion Hnd as [|? ? Hni Hnd']; subst.
  destruct Hin as [->|Hin]; [|auto].
  intros H2. apply Hni. apply in_app_iff. auto.
Qed.

(** X18.  With mark class grouping on, [_groupAttachments] neither loses
    nor repeats an anchor: every anchor of the attachments whose mark class
    holds at least one glyph is in the lookup of exactly one position of
    the returned list. *)
Theorem _groupAttachments_grouped_once
    (markClasses : sdict MarkClass.t) (attachments : list Attachment)
    (lookups : list (list Attachment)) :
  _groupAttachments true markClasses attachments = Ok lookups ->
  forall a mc,
    In a (lookup_anchors attachments) ->
    NamedAnchor.markClass a = Some mc -> MarkClass.glyphs mc <> [] ->
    exists before lookup after,
      lookups = before ++ lookup :: after
      /\ In a (lookup_anchors lookup)
      /\ forall other, In other before \/ In other after ->
                       ~ In a (lookup_anchors other).
Proof.
  unfold _groupAttachments. intros H a mc Ha Hmc Hglyphs.
  inv_bind H as grouped Hgrouped. inv_bind Hgrouped as mgc Hmgc.
  destruct (_groupMarkClasses_sorted_groups _ _ Hgrouped)
    as [_ [_ [_ [_ [_ [_ [Hnodup Hcover]]]]]]].
  assert (Hc : In (MarkClass.name mc) (concat grouped)).
  { apply Hcover. destruct (MarkClass.glyphs mc) as [|[g d] gl] eqn:Eg;
      [congruence|].
    destruct (attachments_classes_spec _ _ _ Hmgc) as [_ Hcov].
    destruct (Hcov a mc g Ha Hmc) as [cs [Hcs Hin]].
    { rewrite Eg. simpl. auto. }
    apply in_concat. exists cs. split; [|exact Hin].
    apply sget_Some_In in Hcs. apply (in_map snd) in Hcs. exact Hcs. }
  apply in_concat in Hc. destruct Hc as [G [HG HcG]].
  destruct (in_split _ _ HG) as [g1 [g2 ->]].
  destruct (mapM_app_inv _ _ _ _ _ H) as [b1 [lookup [b2 [-> [H1 [Hl H2]]]]]].
  exists b1, lookup, b2. split; [reflexivity|]. split.
  - apply (make_lookup_anchors _ _ _ Hl). split; [exact Ha|]. eauto.
  - rewrite concat_app in Hnodup. simpl in Hnodup.
    intros other Hother Hin.
    assert (Hdup : exists G', (In G' g1 \/ In G' g2) /\ In (MarkClass.name mc) G').
    { destruct Hother as [Ho|Ho].
      - destruct (mapM_Ok_In _ _ _ H1 other Ho) as [G' [HG' Hmk]].
        apply (make_lookup_anchors _ _ _ Hmk) in Hin.
        destruct Hin as [_ [mc' [E Hn]]]. exists G'. split; [auto|]. congruence.
      - destruct (mapM_Ok_In _ _ _ H2 other Ho) as [G' [HG' Hmk]].
        apply (make_lookup_anchors _ _ _ Hmk) in Hin.
        destruct Hin as [_ [mc' [E Hn]]]. exists G'. split; [auto|]. congruence. }
    destruct Hdup as [G' [[HG'|HG'] Hn]].
    + apply (NoDup_app_In_l _ _ (MarkClass.name mc)) in Hnodup.
      * apply Hnodup. apply in_app_iff. auto.
      * apply in_concat. eauto.
    + apply NoDup_app_remove_l in Hnodup.
      apply (NoDup_app_In_l _ _ (MarkClass.name mc)) in Hnodup;
        [|exact HcG].
      apply Hnodup. apply in_concat. eauto.
Qed.

Lemma _groupAttachments_grouped_once_witness :
  exists lookups,
    _groupAttachments true [] overlapping_attachments = Ok lookups
    /\ forall a mc,
         In a (lookup_anchors overlapping_attachments) ->
         NamedAnchor.markClass a = Some mc -> MarkClass.glyphs mc <> [] ->
         exists before lookup after,
           lookups = before ++ lookup :: after
           /\ In a (lookup_anchors lookup)
           /\ forall other, In other before \/ In other after ->
                            ~ In a (lookup_anchors other).
Proof.
  eexists. split; [reflexivity|].
  apply (_groupAttachments_grouped_once [] overlapping_attachments _ eq_refl).
Defined.

(** ** The shape of the lookups *)

Lemma filter_anchors_in_classes markClasses l l' :
  filter_anchors (include_in markClasses) l = Ok l' ->
  l' = filter (in_classes markClasses) l.
Proof.
  revert l'. induction l as [|a l IH]; simpl; intros l' H.
  - injection H as <-. reflexivity.
  - inv_bind H as b Hb. inv_bind H as l0 Hl0. injection H as <-.
    rewrite (IH _ Hl0). unfold include_in, the_markClass in Hb.
    unfold in_classes. destruct (NamedAnchor.markClass a); [|discriminate].
    simpl in Hb. injection Hb as <-. reflexivity.
Qed.

Lemma filter_components_in_classes markClasses l l' :
  filter_components (include_in markClasses) l = Ok l' ->
  l' = map (filter (in_classes markClasses)) l.
Proof.
  revert l'. induction l as [|c l IH]; simpl; intros l' H.
  - injection H as <-. reflexivity.
  - inv_bind H as c' Hc. inv_bind H as l0 Hl0. injection H as <-.
    rewrite (IH _ Hl0), (filter_anchors_in_classes _ _ _ Hc). reflexivity.
Qed.

Lemma Attachment_filter_restrict markClasses pos r :
  Attachment_filter pos (include_in markClasses) = Ok r ->
  r = if has_anchors (restrict (in_classes markClasses) pos)
      then Some (restrict (in_classes markClasses) pos)
      else None.
Proof.
  unfold has_anchors.
  destruct pos as [n marks|n marks|n marks]; simpl; intros H;
    inv_bind H as marks' Hm; injection H as <-.
  - rewrite (filter_anchors_in_classes _ _ _ Hm). reflexivity.
  - rewrite (filter_anchors_in_classes _ _ _ Hm). reflexivity.
  - rewrite (filter_components_in_classes _ _ _ Hm).
    rewrite some_component_has_anchor. reflexivity.
Qed.

Lemma make_lookup_restricted markClasses attachments lookup :
  make_lookup markClasses attachments = Ok lookup ->
  lookup = restricted_lookup markClasses attachments.
Proof.
  unfold restricted_lookup.
  revert lookup. induction attachments as [|pos attachments IH]; simpl;
    intros lookup H.
  - injection H as <-. reflexivity.
  - inv_bind H as r Hr. inv_bind H as lookup0 Hl0. injection H as <-.
    rewrite (Attachment_filter_restrict _ _ _ Hr), (IH _ Hl0).
    destruct (has_anchors _); reflexivity.
Qed.

Lemma lookups_of_groups attachments (groups : list (list string))
    (lookups : list (list Attachment)) :
  mapM (fun markClasses => make_lookup markClasses attachments) groups
  = Ok lookups ->
  lookups = map (fun group => restricted_lookup group attachments) groups.
Proof.
  revert lookups. induction groups as [|group groups IH]; simpl;
    intros lookups H.
  - injection H as <-. reflexivity.
  - inv_bind H as lookup Hl. inv_bind H as rest Hrest. injection H as <-.
    rewrite (make_lookup_restricted _ _ _ Hl), (IH _ Hrest). reflexivity.
Qed.

(** X19.  The lookups that [_groupAttachments] returns are, group by
    group and in the order of the groups, the attachments it was given, in
    their order, each restricted to the anchors whose mark class is named
    in the group, without those left with no anchor.  The groups are those
    that [_groupMarkClasses] returns for the classes of the attachments
    when mark classes are grouped, and else one group per registered mark
    class, in the order of the anchor keys.  So a lookup keeps the glyph of
    each attachment, and a ligature attachment keeps its number of
    components, each component holding at its position the anchors of the
    original component that are in the group. *)
Theorem _groupAttachments_keeps_shape (groupMarkClasses : bool)
    (markClasses : sdict MarkClass.t) (attachments : list Attachment)
    (lookups : list (list Attachment)) :
  _groupAttachments groupMarkClasses markClasses attachments = Ok lookups ->
  exists groups,
    (if groupMarkClasses
     then exists markGlyphToMarkClasses,
            attachments_classes [] attachments = Ok markGlyphToMarkClasses
            /\ _groupMarkClasses markGlyphToMarkClasses = Ok groups
     else groups = map (fun item => [MarkClass.name (snd item)])
                       (sorted item_leb markClasses))
    /\ lookups = map (fun group => restricted_lookup group attachments) groups
    /\ forall group name components',
         In group groups ->
         In (MarkToLigaPos name components')
            (restricted_lookup group attachments) ->
         exists components,
           In (MarkToLigaPos name components) attachments
           /\ length components' = length components
           /\ forall i, nth i components' []
                        = filter (in_classes group) (nth i components []).
Proof.
  unfold _groupAttachments. intros H.
  inv_bind H as groups Hgroups. exists groups.
  split; [|split].
  - destruct groupMarkClasses.
    + inv_bind Hgroups as mgc Hmgc. exists mgc. auto.
    + injection Hgroups as <-. reflexivity.
  - apply lookups_of_groups. exact H.
  - intros group name components' _ Hpos. unfold restricted_lookup in Hpos.
    apply filter_In in Hpos. destruct Hpos as [Hpos _].
    apply in_map_iff in Hpos. destruct Hpos as [pos [E Hpos]].
    destruct pos as [n marks|n marks|n marks]; try discriminate.
    injection E as -> <-. exists marks. split; [exact Hpos|].
    split; [apply length_map|].
    intros i. apply (map_nth (filter (in_classes group)) marks [] i).
Qed.

Lemma _groupAttachments_keeps_shape_witness :
  exists lookups,
    _groupAttachments true [] overlapping_attachments = Ok lookups
    /\ exists groups,
         (exists markGlyphToMarkClasses,
            attachments_classes [] overlapping_attachments
            = Ok markGlyphToMarkClasses
            /\ _groupMarkClasses markGlyphToMarkClasses = Ok groups)
         /\ lookups = map (fun group =>
                             restricted_lookup group overlapping_attachments)
                          groups
         /\ forall group name components',
              In group groups ->
              In (MarkToLigaPos name components')
                 (restricted_lookup group overlapping_attachments) ->
              exists components,
                In (MarkToLigaPos name components) overlapping_attachments
                /\ length components' = length components
                /\ forall i, nth i components' []
                             = filter (in_classes group) (nth i components []).
Proof.
  eexists. split; [reflexivity|].
  apply (_groupAttachments_keeps_shape true [] overlapping_attachments
           _ eq_refl).
Defined.

(** ** The first steps of the generation *)

Lemma prune_glyphs_keys att items k :
  In k (Dict.keys (prune_glyphs att items)) -> In k (Dict.keys items).
Proof.
  induction items as [|[g l] items IH]; simpl; [auto|].
  destruct (negb (nonempty (prune_anchors att l))); simpl; intuition.
Qed.

Lemma prune_glyphs_NoDup att items :
  NoDup (Dict.keys items) -> NoDup (Dict.keys (prune_glyphs att items)).
Proof.
  induction items as [|[g l] items IH]; simpl; intros H; [exact H|].
  apply NoDup_cons_iff in H. destruct H as [Hfresh Hrest].
  destruct (negb (nonempty (prune_anchors att l))); simpl; [auto|].
  apply NoDup_cons; [|auto].
  intros Hin. apply Hfresh. eapply prune_glyphs_keys. exact Hin.
Qed.

Lemma classed_anchor_origin markClasses anchorPairs anchorLists g l' a' :
  (forall g l a, In (g, l) anchorLists -> In a l -> built a) ->
  In (g, l') (_setBaseAnchorMarkClasses markClasses
                (_pruneUnusedAnchors anchorPairs anchorLists)) ->
  In a' l' ->
  exists a0, built a0 /\ a' = setBaseAnchorMarkClass markClasses a0.
Proof.
  intros Hbuilt Hin Ha. apply _setBaseAnchorMarkClasses_In in Hin.
  destruct Hin as [l1 [Hin ->]]. apply in_map_iff in Ha.
  destruct Ha as [a0 [<- Ha0]]. exists a0. split; [|reflexivity].
  apply prune_glyphs_In in Hin. destruct Hin as [l0 [Hin [-> _]]].
  apply filter_In in Ha0. destruct Ha0 as [Ha0 _].
  exact (Hbuilt g l0 a0 Hin Ha0).
Qed.

Lemma classed_mark_anchor markClasses a0 :
  built a0 ->
  NamedAnchor.isMark (setBaseAnchorMarkClass markClasses a0) = true ->
  NamedAnchor.markClass (setBaseAnchorMarkClass markClasses a0) = None
  /\ NamedAnchor.key (setBaseAnchorMarkClass markClasses a0) <> "".
Proof.
  intros Hb Hm. destruct (built_facts a0 Hb) as [Hmc [Hmark _]].
  destruct (setBaseAnchorMarkClass_fields markClasses a0 Hmc)
    as [_ [Hk [Hm' [_ [_ [Hmc' _]]]]]].
  rewrite Hm' in Hm. rewrite Hm in Hmc'. rewrite Hk.
  split; [exact Hmc' | apply (Hmark Hm)].
Qed.

(** X21.  Whenever [_getAnchorLists] returns, the steps of the generation
    that follow it on these anchors cannot fail, whatever mark classes are
    registered: with the anchor pairs of these lists and after the
    pruning, [_groupMarkGlyphsByAnchor] returns (no glyph enters a group
    twice), and once [_setBaseAnchorMarkClasses] has run,
    [_makeMarkToBaseAttachments] and [_makeMarkToLigaAttachments] return
    for the mark glyphs found (no mark anchor reaches their assertions);
    and every anchor they attach has a mark class, as [_groupAttachments]
    needs. *)
Theorem attachments_of_collected_anchors
    (_getAnchor : string -> string -> UFOAnchor.t -> Coord * Coord)
    (gdefClasses : GDEFClasses.t) (glyphSet : list (string * Glyph.t))
    (anchorLists : sdict (list NamedAnchor.t)) (log : list warning)
    (markClasses : sdict MarkClass.t) :
  _getAnchorLists _getAnchor gdefClasses glyphSet = Ok (anchorLists, log) ->
  let anchorPairs := _getAnchorPairs anchorLists in
  let pruned := _pruneUnusedAnchors anchorPairs anchorLists in
  let classed := _setBaseAnchorMarkClasses markClasses pruned in
  exists groups markGlyphNames base liga,
    _groupMarkGlyphsByAnchor (GDEFClasses.mark gdefClasses) anchorPairs pruned
    = Ok (groups, markGlyphNames)
    /\ _makeMarkToBaseAttachments markGlyphNames (GDEFClasses.base gdefClasses)
         classed = Ok base
    /\ _makeMarkToLigaAttachments markGlyphNames
         (GDEFClasses.ligature gdefClasses) classed = Ok liga
    /\ all_have_markClass base /\ all_have_markClass liga.
Proof.
  intros H anchorPairs pruned classed.
  assert (Hinv : anchorLists_invariant anchorLists).
  { unfold _getAnchorLists in H. inv_bind H as include Hinc.
    apply (anchorLists_loop_invariant _ _ _ _ _ _ _) in H; [exact H|].
    split; [constructor | intros g l []]. }
  destruct Hinv as [Hkeys Hlists].
  assert (Hbuilt : forall g l a, In (g, l) anchorLists -> In a l -> built a).
  { intros g l a Hin Ha. apply (Hlists g l Hin). exact Ha. }
  destruct (group_markGlyphs_spec (GDEFClasses.mark gdefClasses)
              (Dict.values anchorPairs) pruned [] [])
    as [groups [mgn [Hrun _]]].
  { apply prune_glyphs_NoDup. exact Hkeys. }
  { intros g l Hin. apply prune_glyphs_In in Hin.
    destruct Hin as [l0 [Hin [-> _]]]. apply distinct_names_filter.
    apply (Hlists g l0 Hin). }
  { intros g n a _ [group [Hg _]]. discriminate. }
  assert (Hmark : forall g l' a', In (g, l') classed -> In a' l' ->
            NamedAnchor.isMark a' = true ->
            NamedAnchor.markClass a' = None /\ NamedAnchor.key a' <> "").
  { intros g l' a' Hin Ha Hm.
    destruct (classed_anchor_origin _ _ _ _ _ _ Hbuilt Hin Ha) as [a0 [Hb ->]].
    apply classed_mark_anchor; assumption. }
  destruct (_makeMarkToLigaAttachments_anchors mgn
              (GDEFClasses.ligature gdefClasses) classed Hmark)
    as [liga [Hliga Hanch]].
  exists groups, mgn. eexists. exists liga.
  split; [exact Hrun|]. split; [|split; [exact Hliga|split]].
  - apply _makeMarkToBaseAttachments_spec.
    intros g l' a' Hin Ha He.
    destruct (NamedAnchor.isMark a') eqn:Em; [|reflexivity].
    destruct (Hmark g l' a' Hin Ha Em) as [Hmc _].
    rewrite Hmc in He. discriminate.
  - intros a Ha. unfold lookup_anchors in Ha. apply in_flat_map in Ha.
    destruct Ha as [pos [Hpos Ha]]. apply base_attachments_In in Hpos.
    destruct Hpos as [g [l' [_ [_ [_ [_ ->]]]]]]. simpl in Ha.
    apply filter_In in Ha. destruct Ha as [_ He].
    destruct (NamedAnchor.markClass a); [discriminate | discriminate He].
  - intros a Ha. unfold lookup_anchors in Ha. apply in_flat_map in Ha.
    destruct Ha as [pos [Hpos Ha]].
    destruct (Hanch pos a Hpos Ha) as [l' [i [_ [_ Hkeyed]]]].
    unfold keyed_for, collected in Hkeyed.
    destruct (NamedAnchor.markClass a); [discriminate|].
    destruct (PyStr.truthy (NamedAnchor.key a)); simpl in Hkeyed;
      rewrite ?andb_false_r in Hkeyed; discriminate Hkeyed.
Qed.

Lemma attachments_of_collected_anchors_witness :
  exists groups base liga,
    _groupMarkGlyphsByAnchor None [("top_1", "_top"); ("top_2", "_top"); ("top", "_top")]
      (_pruneUnusedAnchors
         [("top_1", "_top"); ("top_2", "_top"); ("top", "_top")]
         (fst (match _getAnchorLists plain_getAnchor
                       (GDEFClasses.mk None None None) ligature_glyphSet with
               | Ok r => r
               | Raise _ => ([], [])
               end)))
    = Ok (groups, ["acutecomb"])
    /\ base <> [] /\ liga <> []
    /\ all_have_markClass base /\ all_have_markClass liga.
Proof.
  destruct (attachments_of_collected_anchors plain_getAnchor
              (GDEFClasses.mk None None None) ligature_glyphSet _ _
              top_bottom_markClasses eq_refl)
    as [groups [mgn [base [liga [Hg [Hb [Hl [Hab Hal]]]]]]]].
  exists groups, base, liga.
  vm_compute in Hg. injection Hg as <- <-.
  vm_compute in Hb. injection Hb as <-.
  vm_compute in Hl. injection Hl as <-.
  split; [reflexivity|]. split; [discriminate|]. split; [discriminate|].
  split; assumption.
Defined.
